(** * Little Alchemy: the element-combination and world-object engine

    A shallow embedding of [main.cpp]: the element catalog, the
    combination registry, the registry of placed objects, the pointer-event
    handler, the collision resolver and the per-frame update, followed by
    the properties of the engine.

    Conventions of the embedding.
    - [float] values are modelled by rationals ([Q]): every value the
      program handles is finite (clock readings, pointer coordinates), and
      on finite values the comparisons of C++ agree with those of [Q].
      The arithmetic on positions ([sf::Vector2f]) and the expiry of the
      invalid mark are rounded to binary32 by [fl32] (round to nearest,
      ties to even, gradual underflow); a result of magnitude beyond the
      binary32 range, an infinity in C++, is excluded where it matters by
      the hypothesis [finite32]. The scroll offsets are kept unrounded:
      what is proved of them (sign, clamping, the agreement of the click
      loop with the draw loop) does not depend on rounding.
    - [int creationCount] is a [Z] within the range of [int]; [++] wraps
      around at [2^31 - 1] as it does in the compiled program ([toInt]).
    - [std::shared_ptr<GameObject>] is an address ([nat]) into a store
      [heap]; [std::shared_ptr<Element>] is an index into the vector
      [elements], which is filled once by the constructor and whose cells
      are mutated in place.
    - SFML's geometry (bounding boxes, containment and intersection tests)
      is external to the program and enters through the class [Geometry];
      the theorems hold for every instance of it, and the examples use
      the instance [boxes]. *)

From Stdlib Require Import String Bool Arith ZArith QArith Qabs Qround Qpower.
From Stdlib Require Import List Lia Lqa.
Import ListNotations.

Local Open Scope string_scope.

(** ** Elements *)

(** [class Element]. *)
Record Element := mkElement {
  name : string;
  description : string;
  discovered : bool;
  creationCount : Z
}.

(** [Element::Element(n, desc, disc)]: the counter starts at zero. *)
Definition newElement (n desc : string) (disc : bool) : Element :=
  mkElement n desc disc 0.

(** ** Combination registry *)

Module CombinationRegistry.

Definition Key : Type := string * string.

Definition key_eqb (k1 k2 : Key) : bool :=
  String.eqb (fst k1) (fst k2) && String.eqb (snd k1) (snd k2).

(** [std::map<std::pair<string,string>,string>] as an association list
    with at most one binding per key. *)
Definition Map : Type := list (Key * string).

(** [m.find(k)]: [None] stands for [m.end()]. *)
Fixpoint map_find (k : Key) (m : Map) : option string :=
  match m with
  | [] => None
  | (k', v) :: rest => if key_eqb k k' then Some v else map_find k rest
  end.

(** [m[k] = v]: overwrite the binding of [k], or add one. *)
Fixpoint map_assign (k : Key) (v : string) (m : Map) : Map :=
  match m with
  | [] => [(k, v)]
  | (k', v') :: rest =>
      if key_eqb k k' then (k, v) :: rest else (k', v') :: map_assign k v rest
  end.

(** The assignments of the constructor, in source order. *)
Definition rules : list (Key * string) :=
  [ (("Fire", "Water"), "Steam");   (("Water", "Fire"), "Steam");
    (("Fire", "Earth"), "Lava");    (("Earth", "Fire"), "Lava");
    (("Fire", "Air"), "Smoke");     (("Air", "Fire"), "Smoke");
    (("Water", "Earth"), "Mud");    (("Earth", "Water"), "Mud");
    (("Water", "Air"), "Mist");     (("Air", "Water"), "Mist");
    (("Earth", "Air"), "Dust");     (("Air", "Earth"), "Dust");
    (("Fire", "Fire"), "Energy");
    (("Water", "Water"), "Ocean");
    (("Earth", "Earth"), "Mountain");
    (("Air", "Air"), "Wind");
    (("Steam", "Air"), "Cloud");    (("Air", "Steam"), "Cloud");
    (("Cloud", "Water"), "Rain");   (("Water", "Cloud"), "Rain");
    (("Mud", "Energy"), "Plant");   (("Energy", "Mud"), "Plant");
    (("Lava", "Air"), "Stone");     (("Air", "Lava"), "Stone");
    (("Lava", "Mountain"), "Volcano"); (("Mountain", "Lava"), "Volcano");
    (("Energy", "Air"), "Lightning"); (("Air", "Energy"), "Lightning");
    (("Water", "Wind"), "Ice");     (("Wind", "Water"), "Ice");
    (("Stone", "Wind"), "Sand");    (("Wind", "Stone"), "Sand");
    (("Mud", "Plant"), "Swamp");    (("Plant", "Mud"), "Swamp");
    (("Plant", "Plant"), "Forest");
    (("Sand", "Sand"), "Desert");
    (("Energy", "Plant"), "Life");  (("Plant", "Energy"), "Life") ].

(** [CombinationRegistry::CombinationRegistry()]. *)
Definition combinations : Map :=
  fold_left (fun m kv => map_assign (fst kv) (snd kv) m) rules [].

(** [isValidCombination(e1, e2)]. *)
Definition isValidCombination (e1 e2 : string) : bool :=
  match map_find (e1, e2) combinations with
  | Some _ => true
  | None => false
  end.

(** [getResult(e1, e2)]: the empty string when the pair is unmapped. *)
Definition getResult (e1 e2 : string) : string :=
  match map_find (e1, e2) combinations with
  | Some r => r
  | None => ""
  end.

End CombinationRegistry.
Import CombinationRegistry.

(** ** SFML value types *)

Definition float : Type := Q.

Local Open Scope Q_scope.

(** [a < b] on [float]. *)
Definition fltb (a b : float) : bool := negb (Qle_bool b a).

(** [std::max(a, b)] and [std::min(a, b)]. *)
Definition fmax (a b : float) : float := if fltb a b then b else a.
Definition fmin (a b : float) : float := if fltb b a then b else a.

(** *** Rounding to binary32 *)

(** The exponent of the leading bit of a positive rational:
    [2 ^ floorLog2 a <= a < 2 ^ (floorLog2 a + 1)]. *)
Definition floorLog2 (a : Q) : Z :=
  let e := (Z.log2 (Qnum a) - Z.log2 (Zpos (Qden a)))%Z in
  if Qle_bool (2 ^ e) a then e else (e - 1)%Z.

(** The nearest integer, the even one of two nearest. *)
Definition roundHalfEven (m : Q) : Z :=
  let f := Qfloor m in
  match Qcompare (m - inject_Z f) (1 # 2) with
  | Lt => f
  | Gt => (f + 1)%Z
  | Eq => if Z.even f then f else (f + 1)%Z
  end.

(** A positive rational rounded to 24 significant bits, the last bit
    weighing at least [2 ^ -149]. *)
Definition roundAbs32 (a : Q) : Q :=
  let q := Z.max (floorLog2 a - 23) (-149) in
  Qred (inject_Z (roundHalfEven (a / 2 ^ q)) * 2 ^ q).

(** The binary32 number an exact result is rounded to. *)
Definition fl32 (x : Q) : float :=
  let r := Qred x in
  match Qcompare r 0 with
  | Eq => 0
  | Gt => roundAbs32 r
  | Lt => - roundAbs32 (- r)
  end.

(** The exact results that binary32 rounds to a finite number: those of
    magnitude below [2^128 - 2^103]. *)
Definition finite32 (x : Q) : bool := fltb (Qabs x) (2 ^ 128 - 2 ^ 103).

(** The unit in the last place of the binary32 numbers around a positive
    rational. *)
Definition ulp32 (a : Q) : Q := 2 ^ Z.max (floorLog2 a - 23) (-149).

(** [a + b], [a - b] and [a / b] on [float]. *)
Definition fadd (a b : float) : float := fl32 (a + b).
Definition fsub (a b : float) : float := fl32 (a - b).
Definition fdiv (a b : float) : float := fl32 (a / b).

(** [sf::Vector2f] with its [operator+], [operator-] and [operator/]. *)
Record Vector2f := vec { vx : float; vy : float }.

Definition vadd (p q : Vector2f) : Vector2f :=
  vec (fadd (vx p) (vx q)) (fadd (vy p) (vy q)).
Definition vsub (p q : Vector2f) : Vector2f :=
  vec (fsub (vx p) (vx q)) (fsub (vy p) (vy q)).
Definition vdiv (p : Vector2f) (d : float) : Vector2f :=
  vec (fdiv (vx p) d) (fdiv (vy p) d).

(** [sf::Color]. *)
Inductive Color := rgba (r g b a : N).

Definition White : Color := rgba 255 255 255 255.
Definition SemiTransparent : Color := rgba 255 255 255 128.

(** The part of [sf::Sprite] the program sets: position, texture (the key
    of the [textures] map it was taken from), scale and colour. *)
Record Sprite := mkSprite {
  position : Vector2f;
  texture : string;
  scale : Vector2f;
  color : Color
}.

Definition setPosition (s : Sprite) (p : Vector2f) : Sprite :=
  mkSprite p (texture s) (scale s) (color s).

Definition setColor (s : Sprite) (c : Color) : Sprite :=
  mkSprite (position s) (texture s) (scale s) c.

(** ** Game objects *)

(** [class GameObject]; [element] is the index in [elements] of the
    [Element] the shared pointer refers to. *)
Record GameObject := mkGameObject {
  element : nat;
  sprite : Sprite;
  spritePath : string;
  creationTime : float;
  isDragging : bool
}.

(** [GameObject::GameObject(elem, texture, path, pos, time)]. *)
Definition newGameObject (elem : nat) (tex path : string) (pos : Vector2f)
    (time : float) : GameObject :=
  mkGameObject elem (mkSprite pos tex (vec 0.5 0.5) White) path time false.

Definition withSprite (o : GameObject) (s : Sprite) : GameObject :=
  mkGameObject (element o) s (spritePath o) (creationTime o) (isDragging o).

Definition withDragging (o : GameObject) (b : bool) : GameObject :=
  mkGameObject (element o) (sprite o) (spritePath o) (creationTime o) b.

(** The store of [GameObject]s, by address. *)
Definition Heap : Type := nat -> GameObject.

Definition upd (h : Heap) (p : nat) (o : GameObject) : Heap :=
  fun q => if Nat.eqb q p then o else h q.

(** [std::make_shared] returns an address distinct from every live one;
    the embedding takes the successor of the largest. *)
Definition freshAddr (live : list nat) : nat := S (list_max live).

(** ** Events *)

Inductive MouseButton := Left | Right | Middle | XButton1 | XButton2.

(** [sf::Event]; the pointer position is the one obtained through
    [window.mapPixelToCoords]. *)
Inductive Event :=
| Closed
| MouseWheelScrolled (delta : float) (mousePos : Vector2f)
| MouseButtonPressed (button : MouseButton) (mousePos : Vector2f)
| MouseButtonReleased (button : MouseButton) (mousePos : Vector2f)
| MouseMoved (mousePos : Vector2f)
| OtherEvent.

(** What the handler reads from its environment while it processes one
    event: the event, [clock.getElapsedTime().asSeconds()] and
    [window.getSize()] (two [unsigned int]). *)
Record Input := mkInput {
  event : Event;
  now : float;
  windowSizeX : Z;
  windowSizeY : Z
}.

(** ** Game state *)

(** The members of [class Game] that the engine reads or writes; of the
    book only [isOpen] feeds back into the engine. *)
Record Game := mkGame {
  windowOpen : bool;
  elements : list Element;
  heap : Heap;
  objects : list nat;
  bookOpen : bool;
  draggingObject : option nat;
  invalidMarkTime : float;
  invalidMarkPos : Vector2f;
  sidebarScroll : float
}.

Definition maxObjects : nat := 50.
Definition scrollSpeed : float := 30.

Definition set_windowOpen (g : Game) (b : bool) : Game :=
  mkGame b (elements g) (heap g) (objects g) (bookOpen g) (draggingObject g)
         (invalidMarkTime g) (invalidMarkPos g) (sidebarScroll g).

Definition set_elements (g : Game) (els : list Element) : Game :=
  mkGame (windowOpen g) els (heap g) (objects g) (bookOpen g)
         (draggingObject g) (invalidMarkTime g) (invalidMarkPos g)
         (sidebarScroll g).

Definition set_heap (g : Game) (h : Heap) : Game :=
  mkGame (windowOpen g) (elements g) h (objects g) (bookOpen g)
         (draggingObject g) (invalidMarkTime g) (invalidMarkPos g)
         (sidebarScroll g).

Definition set_objects (g : Game) (l : list nat) : Game :=
  mkGame (windowOpen g) (elements g) (heap g) l (bookOpen g)
         (draggingObject g) (invalidMarkTime g) (invalidMarkPos g)
         (sidebarScroll g).

Definition set_bookOpen (g : Game) (b : bool) : Game :=
  mkGame (windowOpen g) (elements g) (heap g) (objects g) b
         (draggingObject g) (invalidMarkTime g) (invalidMarkPos g)
         (sidebarScroll g).

Definition set_draggingObject (g : Game) (d : option nat) : Game :=
  mkGame (windowOpen g) (elements g) (heap g) (objects g) (bookOpen g) d
         (invalidMarkTime g) (invalidMarkPos g) (sidebarScroll g).

Definition set_invalidMark (g : Game) (pos : Vector2f) (t : float) : Game :=
  mkGame (windowOpen g) (elements g) (heap g) (objects g) (bookOpen g)
         (draggingObject g) t pos (sidebarScroll g).

Definition set_sidebarScroll (g : Game) (s : float) : Game :=
  mkGame (windowOpen g) (elements g) (heap g) (objects g) (bookOpen g)
         (draggingObject g) (invalidMarkTime g) (invalidMarkPos g) s.

(** The [Element]s pushed by [Game::Game()], in order. *)
Definition initialElements : list Element :=
  [ newElement "Fire" "A blazing flame" true;
    newElement "Water" "Crystal clear liquid" true;
    newElement "Earth" "Rich brown soil" true;
    newElement "Air" "Invisible breeze" true;
    newElement "Steam" "Hot water vapor" false;
    newElement "Lava" "Molten rock and fire" false;
    newElement "Smoke" "Cloudy haze" false;
    newElement "Mud" "Wet and sticky earth" false;
    newElement "Mist" "Gentle water vapor" false;
    newElement "Dust" "Fine particles in air" false;
    newElement "Energy" "Pure concentrated power" false;
    newElement "Ocean" "Vast body of water" false;
    newElement "Mountain" "Towering earthen peak" false;
    newElement "Wind" "Strong moving air" false;
    newElement "Cloud" "Fluffy sky formation" false;
    newElement "Rain" "Falling water droplets" false;
    newElement "Plant" "Green growing life" false;
    newElement "Stone" "Hard solid rock" false;
    newElement "Volcano" "Explosive mountain" false;
    newElement "Lightning" "Electric bolt" false;
    newElement "Ice" "Frozen water crystal" false;
    newElement "Sand" "Tiny rock particles" false;
    newElement "Swamp" "Muddy wetland" false;
    newElement "Forest" "Dense tree collection" false;
    newElement "Desert" "Vast sandy wasteland" false;
    newElement "Life" "The essence of living things" false ].

(** The cell read through an address that was never allocated. *)
Definition noObject : GameObject :=
  newGameObject 0 "" "" (vec 0 0) 0.

(** The state [Game::Game()] leaves: no object, nothing dragged, the book
    closed, [invalidMarkTime(0)], a default-constructed [invalidMarkPos]. *)
Definition initialGame : Game :=
  mkGame true initialElements (fun _ => noObject) [] false None 0 (vec 0 0) 0.

(** ** Catalog helpers *)

(** The index and the cell of the first element of the vector called [n]:
    the loop [for (auto &elem : elements) if (elem->name == n) ...]. *)
Fixpoint findElement (n : string) (els : list Element) (i : nat)
    : option (nat * Element) :=
  match els with
  | [] => None
  | e :: rest =>
      if String.eqb (name e) n then Some (i, e)
      else findElement n rest (S i)
  end.

(** In-place mutation of the cell at index [i]. *)
Fixpoint updateAt (i : nat) (f : Element -> Element) (els : list Element)
    : list Element :=
  match els, i with
  | [], _ => []
  | e :: rest, O => f e :: rest
  | e :: rest, S j => e :: updateAt j f rest
  end.

(** [static_cast<int>]: the value of an integer in two's complement on
    32 bits. *)
Definition toInt (z : Z) : Z := Z.modulo (z + 2 ^ 31) (2 ^ 32) - 2 ^ 31.

(** The values of an [int]. *)
Definition isInt (z : Z) : Prop := (- 2 ^ 31 <= z < 2 ^ 31)%Z.

(** [elem->creationCount++]: from [2^31 - 1] the counter goes to
    [- 2^31]. *)
Definition incrementCreated (e : Element) : Element :=
  mkElement (name e) (description e) (discovered e)
            (toInt (creationCount e + 1)).

(** [elem->discovered = true]. *)
Definition markDiscovered (e : Element) : Element :=
  mkElement (name e) (description e) true (creationCount e).

(** [elements[i]->name]. *)
Definition elementName (els : list Element) (i : nat) : string :=
  match nth_error els i with
  | Some e => name e
  | None => ""
  end.

(** ** Oldest-first eviction *)

Section MinElement.

Variable A : Type.
Variable comp : A -> A -> bool.

(** [std::min_element(first, last, comp)] as the position of the result:
    [smallest] (at position [si]) is replaced by a later element only when
    that element compares strictly less. *)
Fixpoint min_element_from (si : nat) (smallest : A) (i : nat) (l : list A)
    : nat :=
  match l with
  | [] => si
  | b :: rest =>
      if comp b smallest then min_element_from i b (S i) rest
      else min_element_from si smallest (S i) rest
  end.

Definition min_element (l : list A) : nat :=
  match l with
  | [] => 0
  | a :: rest => min_element_from 0 a 1 rest
  end.

(** [v.erase(v.begin() + i)]. *)
Fixpoint erase (i : nat) (l : list A) : list A :=
  match l, i with
  | [], _ => []
  | _ :: rest, O => rest
  | a :: rest, S j => a :: erase j rest
  end.

(** The body of the eviction loop. *)
Definition erase_oldest (l : list A) : list A := erase (min_element l) l.

(** [while (v.size() > cap) v.erase(min_element(...))]; every iteration
    shortens the vector, so [length l] iterations are enough. *)
Fixpoint evict_loop (fuel cap : nat) (l : list A) : list A :=
  match fuel with
  | O => l
  | S fuel' =>
      if Nat.ltb cap (length l) then evict_loop fuel' cap (erase_oldest l)
      else l
  end.

Definition evict (cap : nat) (l : list A) : list A :=
  evict_loop (length l) cap l.

End MinElement.

Arguments min_element {A}.
Arguments erase {A}.
Arguments erase_oldest {A}.
Arguments evict_loop {A}.
Arguments evict {A}.

(** *** Describing an eviction *)

(** An eviction is described by one flag per position of the vector:
    [select flags l] keeps the entries whose flag is [false]. *)
Fixpoint select {A : Type} (flags : list bool) (l : list A) : list A :=
  match flags, l with
  | true :: fs, _ :: rest => select fs rest
  | false :: fs, a :: rest => a :: select fs rest
  | _, _ => l
  end.

Section OldestFlags.

Variable A : Type.
Variable comp : A -> A -> bool.

(** How many entries of [l] compare strictly less than [x]. *)
Definition count_less (x : A) (l : list A) : nat :=
  length (filter (fun y => comp y x) l).

(** The flags of the [k] oldest entries: the head goes when fewer than
    [k] later entries are strictly older than it. *)
Fixpoint oldest_flags (k : nat) (l : list A) : list bool :=
  match l with
  | [] => []
  | x :: rest =>
      if Nat.ltb (count_less x rest) k
      then true :: oldest_flags (k - 1) rest
      else false :: oldest_flags k rest
  end.

End OldestFlags.

Arguments count_less {A}.
Arguments oldest_flags {A}.

(** ** The engine *)

(** [unsigned int] arithmetic: the result is taken modulo [2^32]. *)
Definition uint (z : Z) : Z := Z.modulo z (2 ^ 32).

(** The addresses held by the registry or by [draggingObject]. *)
Definition live (g : Game) : list nat :=
  objects g ++ match draggingObject g with Some d => [d] | None => [] end.

(** [(p + q) / 2.0f]. *)
Definition midpoint (p q : Vector2f) : Vector2f := vdiv (vadd p q) 2.

(** [objects.erase(std::remove_if(..., o in toRemove), objects.end())]. *)
Definition eraseAll (toRemove l : list nat) : list nat :=
  filter (fun o => negb (existsb (Nat.eqb o) toRemove)) l.

(** SFML's rectangles, as the interface the engine uses: [sf::FloatRect]
    with [contains] and [intersects]; the global bounds of a sprite, which
    SFML computes from the size of its texture, its position and its
    scale; [getGlobalBounds] of an [sf::RectangleShape] of a given size at
    a given position; and the bounds of the two fixed sprites. *)
Class Geometry := {
  FloatRect : Type;
  contains : FloatRect -> Vector2f -> bool;
  intersects : FloatRect -> FloatRect -> bool;
  spriteBounds : string -> Vector2f -> Vector2f -> FloatRect;
  shapeBounds : Vector2f -> Vector2f -> FloatRect;
  trashBounds : FloatRect;
  bookIconBounds : FloatRect
}.

Section Engine.

Context {sfml : Geometry}.

(** [sprite.getGlobalBounds()]. *)
Definition getGlobalBounds (s : Sprite) : FloatRect :=
  spriteBounds (texture s) (position s) (scale s).

(** *** [ElementBook::handleInput], as far as [isOpen] goes *)

Definition book_handleInput (isOpen : bool) (ev : Event) : bool :=
  match ev with
  | MouseButtonPressed Left mousePos =>
      if negb isOpen then
        if contains bookIconBounds mousePos then negb isOpen else isOpen
      else if fltb (vx mousePos) 100 || fltb 700 (vx mousePos)
              || fltb (vy mousePos) 100 || fltb 500 (vy mousePos)
      then negb isOpen
      else if contains (shapeBounds (vec 32 32) (vec 668 100)) mousePos
      then negb isOpen
      else isOpen
  | _ => isOpen
  end.

(** *** Scrolling the sidebar *)

Definition discoveredCount (els : list Element) : Z :=
  Z.of_nat (length (filter discovered els)).

Definition scrollSidebar (g : Game) (delta : float) (mousePos : Vector2f)
    (wx wy : Z) : Game :=
  if fltb (inject_Z (uint (wx - 100))) (vx mousePos) && negb (bookOpen g) then
    let s := sidebarScroll g - delta * scrollSpeed in
    let maxScroll :=
      fmax 0 (inject_Z (discoveredCount (elements g)) * 30 - inject_Z wy + 50) in
    set_sidebarScroll g (fmax 0 (fmin s maxScroll))
  else g.

(** *** Pointer down: spawn from the sidebar, then start dragging *)

(** The loop over [elements]: the index of the element whose visible
    button holds the pointer while the registry is under capacity. *)
Fixpoint sidebarLoop (g : Game) (mousePos : Vector2f) (wy : Z)
    (els : list Element) (i : nat) (discoveredIndex : Z) : option nat :=
  match els with
  | [] => None
  | e :: rest =>
      if negb (discovered e) then
        sidebarLoop g mousePos wy rest (S i) discoveredIndex
      else
        let pos := vec 705 (inject_Z (10 + discoveredIndex * 30)
                            - sidebarScroll g) in
        if Qle_bool (-30) (vy pos) && Qle_bool (vy pos) (inject_Z wy)
           && (contains (shapeBounds (vec 100 30) pos) mousePos
               && Nat.ltb (length (objects g)) maxObjects)
        then Some i
        else sidebarLoop g mousePos wy rest (S i) (discoveredIndex + 1)
  end.

(** The body of the successful branch: a new object of [elements[i]] at
    (400, 300), pushed at the back, and [creationCount++]. *)
Definition spawnElement (g : Game) (i : nat) (time : float) : Game :=
  let n := elementName (elements g) i in
  let p := freshAddr (live g) in
  let obj := newGameObject i n ("assets/" ++ n ++ ".png") (vec 400 300) time in
  set_elements
    (set_objects (set_heap g (upd (heap g) p obj)) (objects g ++ [p]))
    (updateAt i incrementCreated (elements g)).

Definition sidebarSpawn (g : Game) (mousePos : Vector2f) (wy : Z)
    (time : float) : Game :=
  match sidebarLoop g mousePos wy (elements g) 0 0 with
  | Some i => spawnElement g i time
  | None => g
  end.

(** The first object, in registry order, whose bounds hold the pointer. *)
Fixpoint objectAt (h : Heap) (mousePos : Vector2f) (l : list nat)
    : option nat :=
  match l with
  | [] => None
  | p :: rest =>
      if contains (getGlobalBounds (sprite (h p))) mousePos then Some p
      else objectAt h mousePos rest
  end.

Definition startDragging (g : Game) (mousePos : Vector2f) : Game :=
  match objectAt (heap g) mousePos (objects g) with
  | Some p =>
      set_draggingObject
        (set_heap g (upd (heap g) p (withDragging (heap g p) true)))
        (Some p)
  | None => g
  end.

(** *** [Game::checkCollisions] *)

(** The [else] branch: the red mark and the semi-transparent partner. *)
Definition recordInvalid (g : Game) (d other : nat) (time : float) : Game :=
  let g1 := set_invalidMark g
              (midpoint (position (sprite (heap g d)))
                        (position (sprite (heap g other))))
              (fadd time 1) in
  set_heap g1 (upd (heap g1) other
                 (withSprite (heap g1 other)
                    (setColor (sprite (heap g1 other)) SemiTransparent))).

(** The loop over [objects]; it stops at the first overlapping partner
    with a result and returns it. *)
Fixpoint scanObjects (g : Game) (d : nat) (time : float) (l : list nat)
    : Game * option (nat * string) :=
  match l with
  | [] => (g, None)
  | other :: rest =>
      if Nat.eqb other d || isDragging (heap g other) then
        scanObjects g d time rest
      else if intersects (getGlobalBounds (sprite (heap g d)))
                         (getGlobalBounds (sprite (heap g other))) then
        let result :=
          getResult (elementName (elements g) (element (heap g d)))
                    (elementName (elements g) (element (heap g other))) in
        if negb (String.eqb result "") then (g, Some (other, result))
        else scanObjects (recordInvalid g d other time) d time rest
      else scanObjects g d time rest
  end.

(** The inner loop of the valid branch: the first element called
    [result] is discovered and counted, and an object of it is pushed at
    the midpoint; nothing happens when no element has that name. *)
Definition spawnResult (g : Game) (d other : nat) (result : string)
    (time : float) : Game :=
  match findElement result (elements g) 0 with
  | Some (j, _) =>
      let p := freshAddr (d :: live g) in
      let obj := newGameObject j result ("assets/" ++ result ++ ".png")
                   (midpoint (position (sprite (heap g d)))
                             (position (sprite (heap g other))))
                   time in
      set_objects
        (set_heap
           (set_elements g
              (updateAt j (fun e => incrementCreated (markDiscovered e))
                 (elements g)))
           (upd (heap g) p obj))
        (objects g ++ [p])
  | None => g
  end.

Definition checkCollisions (g : Game) (dragged : nat) (time : float) : Game :=
  match scanObjects g dragged time (objects g) with
  | (g1, Some (other, result)) =>
      let g2 := spawnResult g1 dragged other result time in
      set_objects g2 (eraseAll [dragged; other] (objects g2))
  | (g1, None) => g1
  end.

(** *** Pointer up and pointer move *)

Definition releaseDragged (g : Game) (time : float) : Game :=
  match draggingObject g with
  | Some d =>
      let g1 :=
        if intersects (getGlobalBounds (sprite (heap g d))) trashBounds
        then set_objects g (eraseAll [d] (objects g))
        else checkCollisions g d time in
      set_draggingObject
        (set_heap g1 (upd (heap g1) d (withDragging (heap g1 d) false)))
        None
  | None => g
  end.

Definition moveDragged (g : Game) (mousePos : Vector2f) : Game :=
  match draggingObject g with
  | Some d =>
      set_heap g (upd (heap g) d
                    (withSprite (heap g d)
                       (setPosition (sprite (heap g d))
                          (vsub mousePos (vec 25 25)))))
  | None => g
  end.

(** *** [Game::handleEvents] *)

(** The body of the [while (window.pollEvent(event))] loop. *)
Definition handleEvent (g : Game) (inp : Input) : Game :=
  let ev := event inp in
  let g1 := match ev with Closed => set_windowOpen g false | _ => g end in
  let g2 := match ev with
            | MouseWheelScrolled delta mousePos =>
                scrollSidebar g1 delta mousePos (windowSizeX inp)
                              (windowSizeY inp)
            | _ => g1
            end in
  let g3 := set_bookOpen g2 (book_handleInput (bookOpen g2) ev) in
  if bookOpen g3 then g3
  else
    match ev with
    | MouseButtonPressed Left mousePos =>
        startDragging
          (sidebarSpawn g3 mousePos (windowSizeY inp) (now inp)) mousePos
    | MouseButtonReleased Left _ => releaseDragged g3 (now inp)
    | MouseMoved mousePos => moveDragged g3 mousePos
    | _ => g3
    end.

(** A closed window delivers no further event. *)
Fixpoint handleEvents (g : Game) (inputs : list Input) : Game :=
  match inputs with
  | [] => g
  | inp :: rest =>
      if windowOpen g then handleEvents (handleEvent g inp) rest else g
  end.

(** *** [Game::update] *)

(** [a->creationTime < b->creationTime]. *)
Definition older (h : Heap) (a b : nat) : bool :=
  fltb (creationTime (h a)) (creationTime (h b)).

(** [obj->sprite.setColor(sf::Color::White)] for every object. *)
Definition resetColors (l : list nat) (h : Heap) : Heap :=
  fold_left
    (fun h' p => upd h' p (withSprite (h' p) (setColor (sprite (h' p)) White)))
    l h.

Definition update (g : Game) (time : float) : Game :=
  let kept := evict (older (heap g)) maxObjects (objects g) in
  set_heap (set_objects g kept) (resetColors kept (heap g)).

(** *** [Game::run] *)

(** One turn of the main loop: the queued events, then the update. *)
Record Frame := mkFrame { inputs : list Input; frameTime : float }.

Definition frame (g : Game) (f : Frame) : Game :=
  update (handleEvents g (inputs f)) (frameTime f).

Fixpoint run (g : Game) (frames : list Frame) : Game :=
  match frames with
  | [] => g
  | f :: rest => if windowOpen g then run (frame g f) rest else g
  end.

(** The addresses of the registry whose object has [isDragging] set. *)
Definition draggers (g : Game) : list nat :=
  filter (fun p => isDragging (heap g p)) (objects g).

(** *** Vocabulary for the collision resolver *)

(** The three tests the scan makes on a candidate [p] for the dragged
    object [d]: it is skipped (it is [d] or it is being dragged), its
    bounds overlap those of [d], and the result registered for the pair
    of names. *)
Definition skipped (g : Game) (d p : nat) : bool :=
  Nat.eqb p d || isDragging (heap g p).

Definition overlaps (g : Game) (d p : nat) : bool :=
  intersects (getGlobalBounds (sprite (heap g d)))
             (getGlobalBounds (sprite (heap g p))).

Definition pairResult (g : Game) (d p : nat) : string :=
  getResult (elementName (elements g) (element (heap g d)))
            (elementName (elements g) (element (heap g p))).

(** [p] is a partner [d] combines with. *)
Definition combinable (g : Game) (d p : nat) : bool :=
  negb (skipped g d p) && overlaps g d p
  && negb (String.eqb (pairResult g d p) "").

(** [p] is a partner that is examined and rejected. *)
Definition rejected (g : Game) (d p : nat) : bool :=
  negb (skipped g d p) && overlaps g d p
  && String.eqb (pairResult g d p) "".

End Engine.

(** The names of the catalog. *)
Definition catalogNames : list string := map name initialElements.

(** An object with its colour put back to white: what is left of it when
    the feedback colour is disregarded. *)
Definition uncolored (o : GameObject) : GameObject :=
  withSprite o (setColor (sprite o) White).

(** Two states that differ at most by the invalid mark and by the colours
    of the sprites. *)
Definition sameButFeedback (g g' : Game) : Prop :=
  windowOpen g' = windowOpen g
  /\ elements g' = elements g
  /\ objects g' = objects g
  /\ bookOpen g' = bookOpen g
  /\ draggingObject g' = draggingObject g
  /\ sidebarScroll g' = sidebarScroll g
  /\ forall p, uncolored (heap g' p) = uncolored (heap g p).

(** ** Runs *)

(** One operation of a run: an event is processed, or the update runs.
    The states reached from [initialGame] by a sequence of operations are
    the states observed between two processed events or after an update. *)
Inductive Step :=
| ProcessEvent (inp : Input)
| Tick (time : float).

Definition step {sfml : Geometry} (g : Game) (s : Step) : Game :=
  match s with
  | ProcessEvent inp => handleEvent g inp
  | Tick time => update g time
  end.

Definition steps {sfml : Geometry} (g : Game) (l : list Step) : Game :=
  fold_left step l g.

(** Every instance of the registry with [isDragging] set is the one
    [draggingObject] points to. *)
Definition draggerTracked (g : Game) : Prop :=
  forall p, In p (objects g) -> isDragging (heap g p) = true ->
            draggingObject g = Some p.

(** A run in which a left press is only processed while nothing is being
    dragged, as with a single pointer whose releases are all delivered. *)
Fixpoint pressesWhenIdle {sfml : Geometry} (g : Game) (ops : list Step)
    : Prop :=
  match ops with
  | [] => True
  | s :: rest =>
      match s with
      | ProcessEvent inp =>
          match event inp with
          | MouseButtonPressed Left _ => draggingObject g = None
          | _ => True
          end
      | Tick _ => True
      end
      /\ pressesWhenIdle (step g s) rest
  end.

(** ** A concrete geometry for the examples *)

(** [sf::Rect<float>]. *)
Record Rect := mkRect {
  rleft : float; rtop : float; rwidth : float; rheight : float
}.

(** [Rect::contains(x, y)]. *)
Definition rect_contains (r : Rect) (p : Vector2f) : bool :=
  let minX := fmin (rleft r) (rleft r + rwidth r) in
  let maxX := fmax (rleft r) (rleft r + rwidth r) in
  let minY := fmin (rtop r) (rtop r + rheight r) in
  let maxY := fmax (rtop r) (rtop r + rheight r) in
  Qle_bool minX (vx p) && fltb (vx p) maxX
  && Qle_bool minY (vy p) && fltb (vy p) maxY.

(** [Rect::intersects(rectangle)]. *)
Definition rect_intersects (r1 r2 : Rect) : bool :=
  let r1MinX := fmin (rleft r1) (rleft r1 + rwidth r1) in
  let r1MaxX := fmax (rleft r1) (rleft r1 + rwidth r1) in
  let r1MinY := fmin (rtop r1) (rtop r1 + rheight r1) in
  let r1MaxY := fmax (rtop r1) (rtop r1 + rheight r1) in
  let r2MinX := fmin (rleft r2) (rleft r2 + rwidth r2) in
  let r2MaxX := fmax (rleft r2) (rleft r2 + rwidth r2) in
  let r2MinY := fmin (rtop r2) (rtop r2 + rheight r2) in
  let r2MaxY := fmax (rtop r2) (rtop r2 + rheight r2) in
  let interLeft := fmax r1MinX r2MinX in
  let interTop := fmax r1MinY r2MinY in
  let interRight := fmin r1MaxX r2MaxX in
  let interBottom := fmin r1MaxY r2MaxY in
  fltb interLeft interRight && fltb interTop interBottom.

(** Every texture is 50 by 50 pixels (the size of the fallback image),
    the window is 800 by 600, the trash bin and the book icon are scaled
    to 64 by 64. *)
Definition boxes : Geometry := {|
  FloatRect := Rect;
  contains := rect_contains;
  intersects := rect_intersects;
  spriteBounds := fun _ pos sc =>
    mkRect (vx pos) (vy pos) (50 * vx sc) (50 * vy sc);
  shapeBounds := fun size pos => mkRect (vx pos) (vy pos) (vx size) (vy size);
  trashBounds := mkRect 10 526 64 64;
  bookIconBounds := mkRect 10 10 64 64
|}.

Definition press (x y : Z) (t : Z) : Input :=
  mkInput (MouseButtonPressed Left (vec (inject_Z x) (inject_Z y)))
          (inject_Z t) 800 600.

Definition lift (x y : Z) (t : Z) : Input :=
  mkInput (MouseButtonReleased Left (vec (inject_Z x) (inject_Z y)))
          (inject_Z t) 800 600.

Definition move (x y : Z) (t : Z) : Input :=
  mkInput (MouseMoved (vec (inject_Z x) (inject_Z y))) (inject_Z t) 800 600.

(** Fire and Water are spawned from the sidebar (both at (400, 300)),
    then the Fire object is picked up. *)
Definition fireOverWater : Game :=
  handleEvents (sfml := boxes) initialGame
    [press 710 15 1; lift 710 15 2; press 710 45 3; lift 710 45 4;
     press 410 310 5].

(** The same run, as a sequence of operations. *)
Definition pickFire : list Step :=
  map ProcessEvent
    [press 710 15 1; lift 710 15 2; press 710 45 3; lift 710 45 4;
     press 410 310 5].

(** Fire is dropped on Water (Steam appears), a second Fire is spawned
    on top of the Steam, and the Steam object is picked up. *)
Definition steamOverFire : Game :=
  handleEvents (sfml := boxes) fireOverWater
    [lift 410 310 6; press 710 15 7; lift 710 15 8; press 410 310 9].

(** A Fire object is picked up, carried over the trash bin and still
    held. *)
Definition fireOverTrash : Game :=
  handleEvents (sfml := boxes) initialGame
    [press 710 15 1; lift 710 15 2; press 410 310 3; move 50 570 4].

(** Two presses with no release in between: Fire is picked up and
    carried away, then a second press lands on Water. *)
Definition pressTwice : list Input :=
  [press 710 15 1; lift 710 15 2; press 710 45 3; lift 710 45 4;
   press 410 310 5; move 100 100 6; press 410 310 7].

(** A registry of fifty-one objects created at times 1, 2, ..., 51. *)
Definition crowded : Game :=
  set_objects
    (set_heap initialGame
       (fun p => newGameObject 0 "Fire" "assets/Fire.png" (vec 400 300)
                   (inject_Z (Z.of_nat p))))
    (seq 1 51).

(** A full registry: fifty objects. *)
Definition full : Game :=
  set_objects
    (set_heap initialGame
       (fun p => newGameObject 0 "Fire" "assets/Fire.png" (vec 400 300)
                   (inject_Z (Z.of_nat p))))
    (seq 1 50).

(** The four elements that start discovered. *)
Definition primitives : list string := ["Fire"; "Water"; "Earth"; "Air"].

(** Fire and Water have been spawned from the sidebar and nothing is
    held. *)
Definition twoSpawned : list Step :=
  map ProcessEvent
    [press 710 15 1; lift 710 15 2; press 710 45 3; lift 710 45 4].

(** Fire is picked up and carried to (100, 100), away from Water. *)
Definition carryFireAway : list Step :=
  (pickFire ++ [ProcessEvent (move 100 100 6)])%list.

(** Fire is picked up and carried a few pixels: it is at (388, 281) and
    still overlaps Water, which is at (400, 300). *)
Definition nudgeFire : list Step :=
  (pickFire ++ [ProcessEvent (move 413 306 6)])%list.

(** The Steam object of [steamOverFire] is carried a few pixels: it is
    at (388, 281) and still overlaps the Fire object at (400, 300). *)
Definition steamNudged : Game :=
  handleEvents (sfml := boxes) steamOverFire [move 413 306 10].

(** ** The element book *)

(** [size_t] arithmetic. *)
Definition usize (z : Z) : Z := Z.modulo z (2 ^ 64).

(** The members of [class ElementBook] that [handleInput] reads or
    writes. *)
Record ElementBook := mkBook {
  isOpen : bool;
  selectedIndex : Z;
  bookScroll : float
}.

Definition bookScrollSpeed : float := 30.

(** [ElementBook::ElementBook]: [isOpen(false)], [selectedIndex(-1)],
    [bookScroll = 0.0f]. *)
Definition newBook : ElementBook := mkBook false (-1) 0.

(** [ElementBook::toggle]. *)
Definition toggle (b : ElementBook) : ElementBook :=
  mkBook (negb (isOpen b)) (-1) (bookScroll b).

Section Book.

Context {sfml : Geometry}.

(** [elements.size()], the number of elements added to the book. *)
Variable size : nat.

(** The loop over the entries of the sidebar of the book, from entry
    [i], with [count] entries left: the first visible entry whose area
    holds the pointer is selected. *)
Fixpoint selectLoop (b : ElementBook) (mousePos : Vector2f) (count i : nat)
    : ElementBook :=
  match count with
  | O => b
  | S count' =>
      let yPos := inject_Z (usize (100 + usize (Z.of_nat i * 30)))
                  - bookScroll b in
      if Qle_bool 70 yPos && Qle_bool yPos 500
         && contains (shapeBounds (vec 100 30) (vec 130 yPos)) mousePos
      then mkBook (isOpen b) (toInt (Z.of_nat i)) (bookScroll b)
      else selectLoop b mousePos count' (S i)
  end.

(** The wheel over the sidebar of the open book. *)
Definition scrollBook (b : ElementBook) (delta : float) (mousePos : Vector2f)
    : ElementBook :=
  if Qle_bool 100 (vx mousePos) && Qle_bool (vx mousePos) 200
     && Qle_bool 100 (vy mousePos) && Qle_bool (vy mousePos) 500
  then
    let s := bookScroll b - delta * bookScrollSpeed in
    let maxScroll := fmax 0 (inject_Z (Z.of_nat size) * 30 - 400 + 50) in
    mkBook (isOpen b) (selectedIndex b) (fmax 0 (fmin s maxScroll))
  else b.

(** [ElementBook::handleInput]. *)
Definition handleInput (b : ElementBook) (ev : Event) : ElementBook :=
  if negb (isOpen b) then
    match ev with
    | MouseButtonPressed Left mousePos =>
        if contains bookIconBounds mousePos then toggle b else b
    | _ => b
    end
  else
    match ev with
    | MouseButtonPressed Left mousePos =>
        if fltb (vx mousePos) 100 || fltb 700 (vx mousePos)
           || fltb (vy mousePos) 100 || fltb 500 (vy mousePos)
        then toggle b
        else if contains (shapeBounds (vec 32 32) (vec 668 100)) mousePos
        then toggle b
        else selectLoop b mousePos size 0
    | MouseWheelScrolled delta mousePos => scrollBook b delta mousePos
    | _ => b
    end.

End Book.

(** ** What [Game::draw] shows of the engine *)

(** The calls [window.draw(obj->sprite)], in order: the objects that are
    not being dragged, then the dragged one. *)
Definition drawnObjects (g : Game) : list nat :=
  filter (fun p => negb (isDragging (heap g p))) (objects g)
  ++ match draggingObject g with Some d => [d] | None => [] end.

(** The buttons of the sidebar, in order: the index of the element and
    the ordinate of its icon and of its name. *)
Fixpoint drawnButtons (scroll : float) (wy : Z) (els : list Element)
    (i : nat) (discoveredIndex : Z) : list (nat * float) :=
  match els with
  | [] => []
  | e :: rest =>
      if discovered e then
        let yPos := inject_Z (10 + discoveredIndex * 30) - scroll in
        if Qle_bool (-30) yPos && Qle_bool yPos (inject_Z wy)
        then (i, yPos) :: drawnButtons scroll wy rest (S i) (discoveredIndex + 1)
        else drawnButtons scroll wy rest (S i) (discoveredIndex + 1)
      else drawnButtons scroll wy rest (S i) discoveredIndex
  end.

(** ** Well-formed states *)

(** What every state of a run satisfies: the registry is within
    capacity and holds no address twice; the dragged object is in the
    registry and flagged; every object of the registry is of a discovered
    element of the catalog; every counter is a value of [int] and differs
    from zero only for a discovered element; the sidebar is not scrolled
    above its top. *)
Definition wellFormed (g : Game) : Prop :=
  (length (objects g) <= maxObjects)%nat
  /\ NoDup (objects g)
  /\ (forall d, draggingObject g = Some d ->
                In d (objects g) /\ isDragging (heap g d) = true)
  /\ (forall p, In p (objects g) ->
                exists e, nth_error (elements g) (element (heap g p)) = Some e
                          /\ discovered e = true)
  /\ Forall (fun e => isInt (creationCount e)
                      /\ (creationCount e <> 0%Z -> discovered e = true))
            (elements g)
  /\ 0 <= sidebarScroll g.

(** The names that can be obtained from the four primitive elements by
    registered combinations. *)
Inductive Obtainable : string -> Prop :=
| obtain_primitive (n : string) : In n primitives -> Obtainable n
| obtain_combined (a b : string) :
    Obtainable a -> Obtainable b -> getResult a b <> "" ->
    Obtainable (getResult a b).

(** * Properties *)

(** ** Machine arithmetic *)

Lemma toInt_isInt (z : Z) : isInt (toInt z).
Proof.
  unfold isInt, toInt.
  pose proof (Z.mod_pos_bound (z + 2 ^ 31) (2 ^ 32)). lia.
Qed.

Lemma toInt_id (z : Z) : isInt z -> toInt z = z.
Proof.
  unfold isInt, toInt. intros H. rewrite Z.mod_small; lia.
Qed.

(** Below [2^31 - 1] the increment of an [int] is the successor. *)
Lemma toInt_succ (z : Z) :
  isInt z -> (z < 2 ^ 31 - 1)%Z -> toInt (z + 1) = (z + 1)%Z.
Proof.
  unfold isInt. intros H1 H2. apply toInt_id. unfold isInt. lia.
Qed.

(** At [2^31 - 1] it is [- 2^31]. *)
Example toInt_wraps : toInt (2147483647 + 1) = (-2147483648)%Z.
Proof. reflexivity. Qed.

(** Rounding depends on the value only, not on the fraction that
    denotes it. *)
Lemma fl32_Qeq (x y : Q) : x == y -> fl32 x = fl32 y.
Proof.
  intros H. unfold fl32. now rewrite (Qred_complete _ _ H).
Qed.

Lemma pow2_pos (e : Z) : 0 < 2 ^ e.
Proof. apply Qpower_0_lt. reflexivity. Qed.

Lemma pow2_nat (e : Z) : (0 <= e)%Z -> 2 ^ e == inject_Z (2 ^ e).
Proof. intros H. rewrite Zpower_Qpower by assumption. reflexivity. Qed.

Lemma pow2_add (a b : Z) : 2 ^ (a + b) == 2 ^ a * 2 ^ b.
Proof. apply Qpower_plus. discriminate. Qed.

Lemma pow2_sub (a b : Z) : 2 ^ (a - b) == 2 ^ a / 2 ^ b.
Proof. apply Qpower_minus. discriminate. Qed.

(** [floorLog2] is the exponent of the leading bit. *)
Lemma floorLog2_spec (a : Q) :
  0 < a -> 2 ^ floorLog2 a <= a /\ a < 2 ^ (floorLog2 a + 1).
Proof.
  intros Ha. unfold floorLog2.
  destruct a as [n d]. cbn [Qnum Qden].
  assert (Hn : (0 < n)%Z).
  { unfold Qlt in Ha. simpl in Ha. lia. }
  pose proof (Z.log2_spec n Hn) as [Hn1 Hn2].
  pose proof (Z.log2_spec (Zpos d) (Pos2Z.is_pos d)) as [Hd1 Hd2].
  pose proof (Z.log2_nonneg n) as Hi.
  pose proof (Z.log2_nonneg (Zpos d)) as Hj.
  set (i := Z.log2 n) in *. set (j := Z.log2 (Zpos d)) in *.
  assert (Hq : n # d == inject_Z n / inject_Z (Zpos d))
    by apply Qmake_Qdiv.
  assert (Hdpos : 0 < inject_Z (Zpos d)) by reflexivity.
  assert (Hpow : forall k, (0 <= k)%Z -> 0 < inject_Z (2 ^ k)).
  { intros k Hk. change 0 with (inject_Z 0). rewrite <- Zlt_Qlt.
    apply Z.pow_pos_nonneg; lia. }
  destruct (Qle_bool (2 ^ (i - j)) (n # d)) eqn:E.
  - apply Qle_bool_iff in E. split; [exact E|].
    replace (i - j + 1)%Z with (Z.succ i - j)%Z by lia.
    rewrite pow2_sub, Hq.
    rewrite (pow2_nat (Z.succ i)) by lia. rewrite (pow2_nat j) by lia.
    apply Qlt_shift_div_l; [now apply Hpow|].
    setoid_replace (inject_Z n / inject_Z (Zpos d) * inject_Z (2 ^ j))
      with (inject_Z n * inject_Z (2 ^ j) / inject_Z (Zpos d))
      by (field; discriminate).
    apply Qlt_shift_div_r; [assumption|].
    rewrite <- !inject_Z_mult, <- Zlt_Qlt. nia.
  - assert (Hlt : n # d < 2 ^ (i - j)).
    { apply Qnot_le_lt. intros H. apply Qle_bool_iff in H. congruence. }
    split.
    + replace (i - j - 1)%Z with (i - Z.succ j)%Z by lia.
      rewrite pow2_sub, Hq.
      rewrite (pow2_nat i) by lia. rewrite (pow2_nat (Z.succ j)) by lia.
      apply Qle_shift_div_r; [now apply Hpow; lia|].
      setoid_replace (inject_Z n / inject_Z (Zpos d) * inject_Z (2 ^ Z.succ j))
        with (inject_Z n * inject_Z (2 ^ Z.succ j) / inject_Z (Zpos d))
        by (field; discriminate).
      apply Qle_shift_div_l; [assumption|].
      rewrite <- !inject_Z_mult, <- Zle_Qle. nia.
    + replace (i - j - 1 + 1)%Z with (i - j)%Z by lia. exact Hlt.
Qed.

(** The exponent of the leading bit is determined by the interval. *)
Lemma floorLog2_unique (a : Q) (e : Z) :
  2 ^ e <= a -> a < 2 ^ (e + 1) -> floorLog2 a = e.
Proof.
  intros H1 H2.
  assert (Ha : 0 < a) by (eapply Qlt_le_trans; [apply pow2_pos|exact H1]).
  destruct (floorLog2_spec a Ha) as [H3 H4].
  assert (floorLog2 a < e + 1)%Z.
  { apply (Qpower_lt_compat_l_inv 2); [|reflexivity].
    eapply Qle_lt_trans; eassumption. }
  assert (e < floorLog2 a + 1)%Z.
  { apply (Qpower_lt_compat_l_inv 2); [|reflexivity].
    eapply Qle_lt_trans; eassumption. }
  lia.
Qed.

Lemma roundHalfEven_Qeq (x y : Q) : x == y -> roundHalfEven x = roundHalfEven y.
Proof.
  intros H. unfold roundHalfEven.
  rewrite (Qfloor_comp _ _ H).
  assert (E : Qcompare (x - inject_Z (Qfloor y)) (1 # 2)
              = Qcompare (y - inject_Z (Qfloor y)) (1 # 2))
    by (now rewrite H).
  now rewrite E.
Qed.

Lemma roundHalfEven_Z (n : Z) : roundHalfEven (inject_Z n) = n.
Proof.
  unfold roundHalfEven. rewrite Qfloor_Z.
  assert (E : Qcompare (inject_Z n - inject_Z n) (1 # 2) = Lt).
  { apply Qlt_alt. setoid_replace (inject_Z n - inject_Z n) with 0 by ring.
    reflexivity. }
  now rewrite E.
Qed.

(** A binary32 number, [m * 2^k] with [m] below [2^24] and [k] at least
    [-149], is rounded to itself. *)
Lemma roundAbs32_exact (a : Q) (m k : Z) :
  (0 < m < 2 ^ 24)%Z -> (-149 <= k)%Z ->
  a == inject_Z m * 2 ^ k ->
  roundAbs32 a == inject_Z m * 2 ^ k.
Proof.
  intros Hm Hk Ea. unfold roundAbs32.
  assert (Ha : 0 < a).
  { rewrite Ea. apply Qmult_lt_0_compat; [|apply pow2_pos].
    change 0 with (inject_Z 0). rewrite <- Zlt_Qlt. lia. }
  destruct (floorLog2_spec a Ha) as [H1 H2].
  set (e := floorLog2 a) in *.
  assert (He : (e - 23 <= k)%Z).
  { assert (2 ^ e < 2 ^ (24 + k)).
    { eapply Qle_lt_trans; [exact H1|]. rewrite Ea, pow2_add.
      apply Qmult_lt_compat_r; [apply pow2_pos|].
      rewrite (pow2_nat 24) by lia. rewrite <- Zlt_Qlt. lia. }
    apply (Qpower_lt_compat_l_inv 2) in H; [lia|reflexivity]. }
  set (q := Z.max (e - 23) (-149)).
  assert (Hq : (q <= k)%Z) by lia.
  assert (Ediv : a / 2 ^ q == inject_Z (m * 2 ^ (k - q))).
  { rewrite Ea, inject_Z_mult, <- (pow2_nat (k - q)) by lia.
    rewrite pow2_sub. field. apply Qpower_not_0. discriminate. }
  rewrite Qred_correct, (roundHalfEven_Qeq _ _ Ediv), roundHalfEven_Z.
  rewrite inject_Z_mult, <- (pow2_nat (k - q)) by lia.
  rewrite pow2_sub. field. apply Qpower_not_0. discriminate.
Qed.

(** Hence every binary32 number is the result of rounding itself. *)
Lemma fl32_exact (m k : Z) :
  (Z.abs m < 2 ^ 24)%Z -> (-149 <= k)%Z ->
  fl32 (inject_Z m * 2 ^ k) == inject_Z m * 2 ^ k.
Proof.
  intros Hm Hk. unfold fl32.
  set (x := inject_Z m * 2 ^ k).
  assert (Ex : Qred x == x) by apply Qred_correct.
  assert (Hsign : forall z : Z, (0 <= z)%Z -> 0 <= inject_Z z * 2 ^ k).
  { intros z Hz. apply Qmult_le_0_compat; [|apply Qlt_le_weak, pow2_pos].
    change 0 with (inject_Z 0). now rewrite <- Zle_Qle. }
  destruct (Qcompare (Qred x) 0) eqn:E.
  - apply Qeq_alt in E. now rewrite <- Ex, E.
  - apply Qlt_alt in E. rewrite Ex in E.
    assert (Hneg : (m < 0)%Z).
    { destruct (Z_lt_le_dec m 0) as [|Hge]; [assumption|exfalso].
      exact (Qlt_not_le _ _ E (Hsign m Hge)). }
    rewrite (roundAbs32_exact (- Qred x) (- m) k); [|lia|lia|].
    + unfold x. rewrite inject_Z_opp. ring.
    + rewrite Ex. unfold x. rewrite inject_Z_opp. ring.
  - apply Qgt_alt in E. rewrite Ex in E.
    assert (Hpos : (0 < m)%Z).
    { destruct (Z_lt_le_dec 0 m) as [|Hle]; [assumption|exfalso].
      apply (Qlt_not_le _ _ E).
      setoid_replace x with (- (inject_Z (- m) * 2 ^ k))
        by (unfold x; rewrite inject_Z_opp; ring).
      apply (Qopp_le_compat 0). apply Hsign. lia. }
    apply roundAbs32_exact; [lia|lia|exact Ex].
Qed.

(** Integers of magnitude below [2^24], such as the coordinates of the
    pointer, are added and halved exactly. *)
Lemma half_sum_of_integers (a b : Z) :
  (Z.abs (a + b) < 2 ^ 24)%Z ->
  fl32 (inject_Z a + inject_Z b) == inject_Z a + inject_Z b
  /\ fl32 ((inject_Z a + inject_Z b) / 2) == (inject_Z a + inject_Z b) / 2.
Proof.
  intros H. split.
  - rewrite (fl32_Qeq _ (inject_Z (a + b) * 2 ^ 0)).
    + rewrite fl32_exact by lia. rewrite inject_Z_plus. simpl. ring.
    + rewrite inject_Z_plus. simpl. ring.
  - rewrite (fl32_Qeq _ (inject_Z (a + b) * 2 ^ (-1))).
    + rewrite fl32_exact by lia. rewrite inject_Z_plus.
      change (2 ^ (-1)) with (/ 2). field.
    + rewrite inject_Z_plus. change (2 ^ (-1)) with (/ 2). field.
Qed.

Lemma floorLog2_Qeq (a b : Q) : 0 < a -> a == b -> floorLog2 a = floorLog2 b.
Proof.
  intros Ha E. assert (Hb : 0 < b) by now rewrite <- E.
  destruct (floorLog2_spec b Hb) as [H1 H2].
  apply floorLog2_unique.
  - eapply Qle_trans; [exact H1|]. apply Qle_lteq. right. now symmetry.
  - eapply Qle_lt_trans; [|exact H2]. apply Qle_lteq. now right.
Qed.

(** The nearest integer is within a half. *)
Lemma roundHalfEven_near (m : Q) :
  Qabs (inject_Z (roundHalfEven m) - m) <= 1 # 2.
Proof.
  unfold roundHalfEven.
  pose proof (Qfloor_le m) as Hlo. pose proof (Qlt_floor m) as Hhi.
  set (f := Qfloor m) in *.
  rewrite inject_Z_plus in Hhi. change (inject_Z 1) with 1 in Hhi.
  apply Qabs_Qle_condition.
  destruct (Qcompare (m - inject_Z f) (1 # 2)) eqn:E.
  - apply Qeq_alt in E.
    destruct (Z.even f); [|rewrite inject_Z_plus; change (inject_Z 1) with 1];
      split; lra.
  - apply Qlt_alt in E. split; lra.
  - apply Qgt_alt in E. rewrite inject_Z_plus. change (inject_Z 1) with 1.
    split; lra.
Qed.

(** Rounding goes to a multiple of the unit in the last place, at most
    half a unit away. *)
Lemma roundAbs32_near (a : Q) :
  (exists n : Z, roundAbs32 a == inject_Z n * ulp32 a)
  /\ Qabs (roundAbs32 a - a) <= ulp32 a / 2.
Proof.
  unfold roundAbs32, ulp32.
  set (q := Z.max (floorLog2 a - 23) (-149)).
  set (n := roundHalfEven (a / 2 ^ q)).
  split; [exists n; apply Qred_correct|].
  rewrite Qred_correct.
  pose proof (roundHalfEven_near (a / 2 ^ q)) as H. fold n in H.
  pose proof (pow2_pos q) as Hq.
  apply Qabs_Qle_condition in H. apply Qabs_Qle_condition.
  destruct H as [H1 H2].
  assert (E : inject_Z n * 2 ^ q - a == (inject_Z n - a / 2 ^ q) * 2 ^ q).
  { field. intros H0. rewrite H0 in Hq. discriminate Hq. }
  rewrite E. split.
  - setoid_replace (- (2 ^ q / 2)) with (- (1 # 2) * 2 ^ q) by field.
    apply Qmult_le_compat_r; [exact H1|now apply Qlt_le_weak].
  - setoid_replace (2 ^ q / 2) with ((1 # 2) * 2 ^ q) by field.
    apply Qmult_le_compat_r; [exact H2|now apply Qlt_le_weak].
Qed.

(** [fl32] is at most half a unit in the last place away. *)
Lemma fl32_near (x : Q) :
  ~ x == 0 -> Qabs (fl32 x - x) <= ulp32 (Qabs x) / 2.
Proof.
  intros Hx. unfold fl32.
  assert (Ex : Qred x == x) by apply Qred_correct.
  destruct (Qcompare (Qred x) 0) eqn:E.
  - apply Qeq_alt in E. exfalso. apply Hx. now rewrite <- Ex.
  - apply Qlt_alt in E.
    assert (Ea : - Qred x == Qabs x).
    { rewrite Ex. symmetry. apply Qabs_neg. rewrite <- Ex.
      now apply Qlt_le_weak. }
    assert (Hpos : 0 < - Qred x) by lra.
    unfold ulp32. rewrite <- (floorLog2_Qeq _ _ Hpos Ea).
    destruct (roundAbs32_near (- Qred x)) as [_ H]. unfold ulp32 in H.
    setoid_replace (- roundAbs32 (- Qred x) - x)
      with (- (roundAbs32 (- Qred x) - - Qred x))
      by lra.
    now rewrite Qabs_opp.
  - apply Qgt_alt in E.
    assert (Ea : Qred x == Qabs x).
    { rewrite Ex. symmetry. apply Qabs_pos. rewrite <- Ex.
      now apply Qlt_le_weak. }
    unfold ulp32. rewrite <- (floorLog2_Qeq _ _ E Ea).
    destruct (roundAbs32_near (Qred x)) as [_ H]. unfold ulp32 in H.
    setoid_replace (roundAbs32 (Qred x) - x)
      with (roundAbs32 (Qred x) - Qred x)
      by lra.
    exact H.
Qed.

(** The half of a sum that binary32 holds exactly is computed exactly. *)
Lemma half_sum_exact (a b : float) :
  fl32 (a + b) == a + b ->
  fl32 ((a + b) / 2) == (a + b) / 2 ->
  fdiv (fadd a b) 2 == (a + b) / 2.
Proof.
  intros H1 H2. unfold fdiv, fadd.
  rewrite (fl32_Qeq (fl32 (a + b) / 2) ((a + b) / 2)); [exact H2|].
  now rewrite H1.
Qed.

Example fl32_of_an_integer : fl32 800 = 800.
Proof. reflexivity. Qed.

Example fl32_of_a_half : fl32 (785 # 2) = 785 # 2.
Proof. reflexivity. Qed.

(** [0.1f] is [13421773 / 2^27]. *)
Example fl32_of_a_tenth : fl32 (1 # 10) = 13421773 # 134217728.
Proof. reflexivity. Qed.

(** Above [2^24] the odd integers are rounded away: a tie goes to the
    even significand. *)
Example fl32_above_24_bits :
  fl32 16777217 = 16777216 /\ fl32 16777219 = 16777220.
Proof. split; reflexivity. Qed.

(** Gradual underflow: the numbers below [2^-126] are multiples of
    [2^-149]. *)
Example fl32_subnormal :
  fl32 (3 # 2 ^ 150) = 1 # 2 ^ 148 /\ fl32 (1 # 2 ^ 150) = 0.
Proof. split; reflexivity. Qed.

(** ** The combination registry *)

Lemma key_eqb_eq (k1 k2 : Key) : key_eqb k1 k2 = true <-> k1 = k2.
Proof.
  destruct k1 as [a b], k2 as [c d]; unfold key_eqb; simpl.
  rewrite andb_true_iff, !String.eqb_eq.
  split; [intros [-> ->]; reflexivity | intros H; inversion H; auto].
Qed.

Lemma map_find_In (k : Key) (v : string) (m : Map) :
  map_find k m = Some v -> In (k, v) m.
Proof.
  induction m as [|[k' v'] m IH]; simpl; [discriminate|].
  destruct (key_eqb k k') eqn:E.
  - intros H; inversion H; subst. apply key_eqb_eq in E; subst. now left.
  - intros H; right; auto.
Qed.

(** Every binding of the table has its mirror image in the table. *)
Lemma combinations_mirrored :
  Forall (fun kv => map_find (snd (fst kv), fst (fst kv)) combinations
                    = Some (snd kv)) combinations.
Proof. vm_compute. repeat constructor. Qed.

Lemma map_find_mirror (a b r : string) :
  map_find (a, b) combinations = Some r ->
  map_find (b, a) combinations = Some r.
Proof.
  intros H. apply map_find_In in H.
  exact (proj1 (Forall_forall _ _) combinations_mirrored _ H).
Qed.

Lemma map_find_sym (a b : string) :
  map_find (a, b) combinations = map_find (b, a) combinations.
Proof.
  destruct (map_find (a, b) combinations) as [r|] eqn:E.
  - symmetry; now apply map_find_mirror.
  - destruct (map_find (b, a) combinations) as [r|] eqn:E'; [|reflexivity].
    apply map_find_mirror in E'. congruence.
Qed.

(** C3. For every pair of element names the registry is symmetric:
    [getResult a b] equals [getResult b a], and [isValidCombination a b]
    equals [isValidCombination b a]. *)
Theorem registry_symmetric (a b : string) :
  getResult a b = getResult b a
  /\ isValidCombination a b = isValidCombination b a.
Proof.
  unfold getResult, isValidCombination.
  now rewrite (map_find_sym a b).
Qed.

Example getResult_Fire_Water : getResult "Fire" "Water" = "Steam".
Proof. reflexivity. Qed.

Example getResult_Fire_Steam : getResult "Fire" "Steam" = "".
Proof. reflexivity. Qed.

(** The names of the catalog built by the constructor. *)
Lemma results_in_catalog :
  Forall (fun kv => existsb (String.eqb (snd kv)) (map name initialElements)
                    = true) combinations.
Proof. vm_compute. repeat constructor. Qed.

Lemma getResult_in_catalog (a b : string) :
  getResult a b <> "" -> In (getResult a b) (map name initialElements).
Proof.
  unfold getResult.
  destruct (map_find (a, b) combinations) as [r|] eqn:E; [|congruence].
  intros _. apply map_find_In in E.
  pose proof (proj1 (Forall_forall _ _) results_in_catalog _ E) as H.
  apply existsb_exists in H. destruct H as [n [Hn Heq]].
  apply String.eqb_eq in Heq. now subst.
Qed.

(** ** Oldest-first eviction *)

Section ErasingShortens.

Variable A : Type.
Variable comp : A -> A -> bool.

Lemma min_element_from_bound (si i : nat) (s : A) (l : list A) :
  (si < i)%nat -> (min_element_from A comp si s i l < i + length l)%nat.
Proof.
  revert si s i; induction l as [|b rest IH]; intros si s i H; simpl.
  - lia.
  - destruct (comp b s).
    + pose proof (IH i b (S i)). lia.
    + pose proof (IH si s (S i)). lia.
Qed.

Lemma erase_length (i : nat) (l : list A) :
  (i < length l)%nat -> S (length (erase i l)) = length l.
Proof.
  revert i; induction l as [|a rest IH]; intros [|i] H; simpl in *; try lia.
  rewrite IH; lia.
Qed.

Lemma erase_oldest_length (l : list A) :
  l <> [] -> S (length (erase_oldest comp l)) = length l.
Proof.
  intros Hne. unfold erase_oldest. apply erase_length.
  destruct l as [|a rest]; [congruence|]. simpl.
  pose proof (min_element_from_bound 0 1 a rest). lia.
Qed.

(** After the loop the vector holds at most [cap] entries. *)
Lemma evict_loop_bound (fuel cap : nat) (l : list A) :
  (length l <= cap + fuel)%nat ->
  (length (evict_loop comp fuel cap l) <= cap)%nat.
Proof.
  revert l; induction fuel as [|fuel IH]; intros l Hl; simpl.
  - lia.
  - destruct (Nat.ltb_spec cap (length l)); [|lia].
    apply IH.
    assert (Hne : l <> []) by (destruct l; [simpl in *; lia|congruence]).
    pose proof (erase_oldest_length l Hne). lia.
Qed.

End ErasingShortens.

Section EvictionTheory.

Variable A : Type.
Variable comp : A -> A -> bool.

(** [comp] is a strict weak order, as [<] on creation times is. *)
Hypothesis comp_trans :
  forall a b c, comp a b = true -> comp b c = true -> comp a c = true.
Hypothesis comp_negtrans :
  forall a b c, comp a b = false -> comp b c = false -> comp a c = false.

Lemma min_element_from_shift (k si i : nat) (s : A) (l : list A) :
  min_element_from A comp (k + si) s (k + i) l
  = (k + min_element_from A comp si s i l)%nat.
Proof.
  revert si s i; induction l as [|b rest IH]; intros si s i; simpl; auto.
  destruct (comp b s).
  - rewrite <- IH. f_equal. lia.
  - rewrite <- IH. f_equal. lia.
Qed.

Lemma min_element_from_none (si i : nat) (s : A) (l : list A) :
  existsb (fun y => comp y s) l = false ->
  min_element_from A comp si s i l = si.
Proof.
  revert i; induction l as [|b rest IH]; intros i; simpl; auto.
  rewrite orb_false_iff. intros [-> H]. auto.
Qed.

Lemma existsb_less_trans (x y : A) (l : list A) :
  comp y x = false ->
  existsb (fun z => comp z x) l = true ->
  existsb (fun z => comp z y) l = true.
Proof.
  intros Hyx H. apply existsb_exists in H. destruct H as [z [Hin Hz]].
  apply existsb_exists. exists z. split; auto.
  destruct (comp z y) eqn:E; auto.
  rewrite (comp_negtrans z y x E Hyx) in Hz. discriminate.
Qed.

Lemma min_element_from_some (si i : nat) (s : A) (l : list A) :
  existsb (fun y => comp y s) l = true ->
  min_element_from A comp si s i l = (i + min_element comp l)%nat.
Proof.
  revert si s i; induction l as [|b rest IH]; intros si s i; simpl.
  - discriminate.
  - destruct (comp b s) eqn:E; simpl.
    + intros _. replace i with (i + 0)%nat at 1 by lia.
      replace (S i) with (i + 1)%nat by lia.
      apply min_element_from_shift.
    + intros H. rewrite (IH si s (S i) H).
      rewrite (IH 0%nat b 1%nat (existsb_less_trans s b rest E H)). lia.
Qed.

(** The oldest entry of [x :: r] is [x] unless a later entry is strictly
    older. *)
Lemma erase_oldest_cons (x : A) (r : list A) :
  erase_oldest comp (x :: r)
  = if existsb (fun y => comp y x) r then x :: erase_oldest comp r else r.
Proof.
  unfold erase_oldest. simpl min_element.
  destruct (existsb (fun y => comp y x) r) eqn:E.
  - rewrite (min_element_from_some _ _ _ _ E). reflexivity.
  - rewrite (min_element_from_none _ _ _ _ E). reflexivity.
Qed.

Lemma count_less_pos (x : A) (l : list A) :
  existsb (fun y => comp y x) l = true <-> (0 < count_less comp x l)%nat.
Proof.
  unfold count_less. induction l as [|y r IH]; simpl.
  - split; [discriminate|lia].
  - destruct (comp y x); simpl; [split; auto; lia | exact IH].
Qed.

Lemma count_less_cons (x y : A) (l : list A) :
  count_less comp x (y :: l)
  = ((if comp y x then 1 else 0) + count_less comp x l)%nat.
Proof. unfold count_less; simpl. now destruct (comp y x). Qed.

Lemma count_less_length (x : A) (l : list A) :
  (count_less comp x l <= length l)%nat.
Proof. apply filter_length_le. Qed.

Lemma count_less_mono (a b : A) (l : list A) :
  comp a b = true -> (count_less comp a l <= count_less comp b l)%nat.
Proof.
  intros Hab. induction l as [|y r IH]; [auto|].
  rewrite !count_less_cons.
  destruct (comp y a) eqn:E.
  - rewrite (comp_trans y a b E Hab). lia.
  - destruct (comp y b); lia.
Qed.

Lemma count_less_anti (a b : A) (l : list A) :
  comp a b = false -> (count_less comp b l <= count_less comp a l)%nat.
Proof.
  intros Hab. induction l as [|y r IH]; [auto|].
  rewrite !count_less_cons.
  destruct (comp y a) eqn:E.
  - destruct (comp y b); lia.
  - rewrite (comp_negtrans y a b E Hab). lia.
Qed.

(** Erasing the oldest entry takes one off the count of the entries
    older than [x], when there is one. *)
Lemma count_less_erase_oldest (x : A) (l : list A) :
  existsb (fun y => comp y x) l = true ->
  S (count_less comp x (erase_oldest comp l)) = count_less comp x l.
Proof.
  induction l as [|y r IH]; [discriminate|]. intros H.
  rewrite erase_oldest_cons.
  destruct (existsb (fun z => comp z y) r) eqn:E.
  - rewrite !count_less_cons. rewrite <- IH; [lia|].
    simpl in H. destruct (comp y x) eqn:Eyx; [|exact H].
    apply existsb_exists in E. destruct E as [z [Hin Hz]].
    apply existsb_exists. exists z. split; eauto.
  - rewrite count_less_cons.
    destruct (comp y x) eqn:Eyx; [lia|].
    simpl in H. rewrite Eyx in H. simpl in H.
    rewrite (existsb_less_trans x y r Eyx H) in E. discriminate.
Qed.

Lemma select_oldest_zero (l : list A) :
  select (oldest_flags comp 0 l) l = l.
Proof. induction l as [|x r IH]; simpl; [reflexivity|now rewrite IH]. Qed.

(** One turn of the loop takes the eviction of [k] entries to that of
    [S k]. *)
Lemma select_oldest_step (l : list A) (k : nat) :
  l <> [] ->
  select (oldest_flags comp (S k) l) l
  = select (oldest_flags comp k (erase_oldest comp l)) (erase_oldest comp l).
Proof.
  revert k; induction l as [|x r IH]; [congruence|]. intros k _.
  rewrite erase_oldest_cons.
  destruct (existsb (fun y => comp y x) r) eqn:E.
  - pose proof (count_less_erase_oldest x r E) as Hc.
    assert (Hr : r <> []) by (destruct r; [discriminate|congruence]).
    cbn [oldest_flags].
    destruct (Nat.ltb_spec (count_less comp x r) (S k)) as [Hlt|Hge];
      destruct (Nat.ltb_spec (count_less comp x (erase_oldest comp r)) k)
        as [Hlt'|Hge']; try lia; cbn [select].
    + replace (S k - 1)%nat with (S (k - 1)) by lia.
      apply (IH (k - 1)%nat Hr).
    + f_equal. apply (IH k Hr).
  - cbn [oldest_flags].
    assert (Hz : count_less comp x r = 0%nat).
    { destruct (count_less comp x r) eqn:Ec; [reflexivity|].
      assert (H : (0 < count_less comp x r)%nat) by lia.
      apply count_less_pos in H. congruence. }
    rewrite Hz. cbn [Nat.ltb Nat.leb select].
    now replace (S k - 1)%nat with k by lia.
Qed.

(** The loop, started over capacity by [k], evicts the [k] oldest. *)
Lemma evict_loop_flags (k fuel cap : nat) (l : list A) :
  (k <= fuel)%nat -> length l = (cap + k)%nat ->
  evict_loop comp fuel cap l = select (oldest_flags comp k l) l.
Proof.
  revert fuel l; induction k as [|k IH]; intros fuel l Hf Hl.
  - rewrite select_oldest_zero.
    destruct fuel; simpl; [reflexivity|].
    destruct (Nat.ltb_spec cap (length l)); [lia|reflexivity].
  - destruct fuel as [|fuel]; [lia|]. simpl evict_loop.
    destruct (Nat.ltb_spec cap (length l)); [|lia].
    assert (Hne : l <> []) by (destruct l; [simpl in Hl; lia|congruence]).
    rewrite (select_oldest_step l k Hne).
    apply IH; [lia|].
    pose proof (erase_oldest_length A comp l Hne). lia.
Qed.

Lemma oldest_flags_length (k : nat) (l : list A) :
  length (oldest_flags comp k l) = length l.
Proof.
  revert k; induction l as [|x r IH]; intros k; simpl; [reflexivity|].
  destruct (Nat.ltb (count_less comp x r) k); simpl; now rewrite IH.
Qed.

Lemma oldest_flags_count (k : nat) (l : list A) :
  (k <= length l)%nat ->
  count_occ Bool.bool_dec (oldest_flags comp k l) true = k.
Proof.
  revert k; induction l as [|x r IH]; intros k Hk; simpl in *; [lia|].
  pose proof (count_less_length x r).
  destruct (Nat.ltb_spec (count_less comp x r) k).
  - rewrite count_occ_cons_eq by reflexivity. rewrite IH; lia.
  - rewrite count_occ_cons_neq by discriminate. apply IH; lia.
Qed.

(** A kept entry has more than [k] entries below anything above it. *)
Lemma kept_rank (l : list A) (k j : nat) (b v : A) :
  nth_error (oldest_flags comp k l) j = Some false ->
  nth_error l j = Some b ->
  comp b v = true ->
  (k < count_less comp v l)%nat.
Proof.
  revert k j; induction l as [|y r IH]; intros k j Hm Hl Hbv.
  - destruct j; discriminate.
  - rewrite count_less_cons. cbn [oldest_flags] in Hm.
    destruct (Nat.ltb_spec (count_less comp y r) k) as [Hlt|Hge].
    + destruct j as [|j]; [discriminate|]. simpl in Hm, Hl.
      pose proof (IH _ _ Hm Hl Hbv) as Hr.
      destruct (comp y v) eqn:E; [lia|].
      pose proof (count_less_anti y v r E). lia.
    + destruct j as [|j]; simpl in Hm, Hl.
      * inversion Hl; subst. rewrite Hbv.
        pose proof (count_less_mono b v r Hbv). lia.
      * pose proof (IH _ _ Hm Hl Hbv). lia.
Qed.

(** An evicted entry is below anything that has [k] entries below it. *)
Lemma evicted_rank (l : list A) (k i : nat) (a v : A) :
  nth_error (oldest_flags comp k l) i = Some true ->
  nth_error l i = Some a ->
  (k <= count_less comp v l)%nat ->
  comp a v = true.
Proof.
  revert k i; induction l as [|y r IH]; intros k i Hm Hl Hk.
  - destruct i; discriminate.
  - rewrite count_less_cons in Hk. cbn [oldest_flags] in Hm.
    destruct (Nat.ltb_spec (count_less comp y r) k) as [Hlt|Hge].
    + destruct i as [|i]; simpl in Hm, Hl.
      * inversion Hl; subst.
        destruct (comp a v) eqn:E; [reflexivity|].
        pose proof (count_less_anti a v r E). lia.
      * apply (IH (k - 1)%nat i Hm Hl).
        destruct (comp y v); lia.
    + destruct i as [|i]; [discriminate|]. simpl in Hm, Hl.
      apply (IH k i Hm Hl).
      destruct (comp y v) eqn:E; [|lia].
      pose proof (count_less_mono y v r E). lia.
Qed.

(** Every evicted entry is strictly older than every kept one, or not
    younger and placed before it. *)
Lemma oldest_flags_order (l : list A) (k i j : nat) (a b : A) :
  nth_error (oldest_flags comp k l) i = Some true ->
  nth_error l i = Some a ->
  nth_error (oldest_flags comp k l) j = Some false ->
  nth_error l j = Some b ->
  comp a b = true \/ (comp b a = false /\ (i < j)%nat).
Proof.
  revert k i j; induction l as [|x r IH]; intros k i j Hi Ha Hj Hb.
  - destruct i; discriminate.
  - cbn [oldest_flags] in Hi, Hj.
    destruct (Nat.ltb_spec (count_less comp x r) k) as [Hlt|Hge].
    + destruct j as [|j]; [discriminate|]. simpl in Hj, Hb.
      destruct i as [|i]; simpl in Hi, Ha.
      * inversion Ha; subst. right. split; [|lia].
        destruct (comp b a) eqn:E; [|reflexivity].
        pose proof (kept_rank r _ _ _ _ Hj Hb E). lia.
      * destruct (IH _ _ _ Hi Ha Hj Hb) as [H|[H1 H2]]; [now left|].
        right; split; [assumption|lia].
    + destruct i as [|i]; [discriminate|]. simpl in Hi, Ha.
      destruct j as [|j]; simpl in Hj, Hb.
      * inversion Hb; subst. left.
        apply (evicted_rank r k i a b Hi Ha Hge).
      * destruct (IH _ _ _ Hi Ha Hj Hb) as [H|[H1 H2]]; [now left|].
        right; split; [assumption|lia].
Qed.

End EvictionTheory.

(** ** The collision resolver *)

Lemma upd_same (h : Heap) (p : nat) (o : GameObject) : upd h p o p = o.
Proof. unfold upd. now rewrite Nat.eqb_refl. Qed.

Lemma upd_other (h : Heap) (p q : nat) (o : GameObject) :
  q <> p -> upd h p o q = h q.
Proof. unfold upd. intros H. apply Nat.eqb_neq in H. now rewrite H. Qed.

Lemma freshAddr_gt (live : list nat) (x : nat) :
  In x live -> (x < freshAddr live)%nat.
Proof.
  intros H. unfold freshAddr.
  pose proof (proj1 (list_max_le live (list_max live)) (Nat.le_refl _)) as Hall.
  pose proof (proj1 (Forall_forall _ _) Hall x H) as Hx. cbv beta in Hx. lia.
Qed.

Lemma uncolored_fields (o o' : GameObject) :
  uncolored o = uncolored o' ->
  element o = element o'
  /\ position (sprite o) = position (sprite o')
  /\ texture (sprite o) = texture (sprite o')
  /\ scale (sprite o) = scale (sprite o')
  /\ spritePath o = spritePath o'
  /\ creationTime o = creationTime o'
  /\ isDragging o = isDragging o'.
Proof.
  destruct o as [e [p t s c] sp ct dr], o' as [e' [p' t' s' c'] sp' ct' dr'].
  unfold uncolored, withSprite, setColor; simpl.
  intros H; inversion H; subst; repeat split; reflexivity.
Qed.

Lemma sameButFeedback_refl (g : Game) : sameButFeedback g g.
Proof. unfold sameButFeedback; repeat split; reflexivity. Qed.

Lemma sameButFeedback_trans (g1 g2 g3 : Game) :
  sameButFeedback g1 g2 -> sameButFeedback g2 g3 -> sameButFeedback g1 g3.
Proof.
  unfold sameButFeedback.
  intros (A1 & A2 & A3 & A4 & A5 & A6 & A7) (B1 & B2 & B3 & B4 & B5 & B6 & B7).
  repeat split; try congruence.
Qed.

Lemma sameButFeedback_live (g g' : Game) :
  sameButFeedback g g' -> live g' = live g.
Proof.
  intros (_ & _ & Ho & _ & Hd & _). unfold live. now rewrite Ho, Hd.
Qed.

Section ResolverProperties.

Context {sfml : Geometry}.

Lemma recordInvalid_feedback (g : Game) (d o : nat) (time : float) :
  sameButFeedback g (recordInvalid g d o time).
Proof.
  unfold sameButFeedback, recordInvalid; simpl; repeat split.
  intros p. unfold upd. destruct (Nat.eqb_spec p o); [subst|]; reflexivity.
Qed.

Lemma skipped_feedback (g g' : Game) (d p : nat) :
  sameButFeedback g g' -> skipped g' d p = skipped g d p.
Proof.
  intros (_ & _ & _ & _ & _ & _ & H). unfold skipped.
  destruct (uncolored_fields _ _ (H p)) as (_ & _ & _ & _ & _ & _ & ->).
  reflexivity.
Qed.

Lemma overlaps_feedback (g g' : Game) (d p : nat) :
  sameButFeedback g g' -> overlaps g' d p = overlaps g d p.
Proof.
  intros (_ & _ & _ & _ & _ & _ & H). unfold overlaps, getGlobalBounds.
  destruct (uncolored_fields _ _ (H p)) as (_ & -> & -> & -> & _).
  destruct (uncolored_fields _ _ (H d)) as (_ & -> & -> & -> & _).
  reflexivity.
Qed.

Lemma pairResult_feedback (g g' : Game) (d p : nat) :
  sameButFeedback g g' -> pairResult g' d p = pairResult g d p.
Proof.
  intros (_ & He & _ & _ & _ & _ & H). unfold pairResult. rewrite He.
  destruct (uncolored_fields _ _ (H p)) as (-> & _).
  destruct (uncolored_fields _ _ (H d)) as (-> & _).
  reflexivity.
Qed.

Lemma combinable_feedback (g g' : Game) (d p : nat) :
  sameButFeedback g g' -> combinable g' d p = combinable g d p.
Proof.
  intros H. unfold combinable.
  now rewrite (skipped_feedback _ _ _ _ H), (overlaps_feedback _ _ _ _ H),
    (pairResult_feedback _ _ _ _ H).
Qed.

(** One turn of the scan, by the three tests. *)
Lemma scanObjects_cons (g : Game) (d : nat) (time : float) (o : nat)
    (rest : list nat) :
  scanObjects g d time (o :: rest)
  = if combinable g d o then (g, Some (o, pairResult g d o))
    else if rejected g d o
         then scanObjects (recordInvalid g d o time) d time rest
         else scanObjects g d time rest.
Proof.
  unfold combinable, rejected. cbn [scanObjects].
  fold (skipped g d o). fold (overlaps g d o). fold (pairResult g d o).
  destruct (skipped g d o); [reflexivity|].
  destruct (overlaps g d o); [|reflexivity].
  simpl. now destruct (String.eqb (pairResult g d o) "").
Qed.

(** The scan changes nothing but the feedback. *)
Lemma scanObjects_feedback (g : Game) (d : nat) (time : float) (l : list nat) :
  sameButFeedback g (fst (scanObjects g d time l)).
Proof.
  revert g; induction l as [|o rest IH]; intros g.
  - apply sameButFeedback_refl.
  - rewrite scanObjects_cons.
    destruct (combinable g d o); [apply sameButFeedback_refl|].
    destruct (rejected g d o); [|apply IH].
    eapply sameButFeedback_trans; [apply recordInvalid_feedback|apply IH].
Qed.

(** Candidates that do not combine are passed over. *)
Lemma scanObjects_app (g : Game) (d : nat) (time : float) (pre rest : list nat) :
  Forall (fun p => combinable g d p = false) pre ->
  snd (scanObjects g d time pre) = None
  /\ scanObjects g d time (pre ++ rest)
     = scanObjects (fst (scanObjects g d time pre)) d time rest.
Proof.
  revert g; induction pre as [|o pre IH]; intros g Hpre.
  - split; reflexivity.
  - inversion Hpre as [|? ? Ho Hrest]; subst.
    rewrite <- app_comm_cons, !scanObjects_cons, Ho.
    destruct (rejected g d o); [|apply IH; assumption].
    apply IH.
    eapply Forall_impl; [|exact Hrest]. intros p Hp.
    now rewrite (combinable_feedback _ _ _ _ (recordInvalid_feedback g d o time)).
Qed.

Lemma findElement_found (r : string) (els : list Element) (i : nat) :
  In r (map name els) ->
  exists j e, findElement r els i = Some ((i + j)%nat, e)
              /\ nth_error els j = Some e /\ name e = r.
Proof.
  revert i; induction els as [|e els IH]; intros i Hin; [destruct Hin|].
  simpl. destruct (String.eqb_spec (name e) r) as [Heq|Hne].
  - exists 0%nat, e. rewrite Nat.add_0_r. auto.
  - destruct Hin as [Hin|Hin]; [contradiction|].
    destruct (IH (S i) Hin) as (j & e' & Hf & Hn & Hname).
    exists (S j), e'. rewrite Hf. repeat split; auto. f_equal. f_equal. lia.
Qed.

Lemma nth_error_updateAt_same (f : Element -> Element) (els : list Element)
    (j : nat) (e : Element) :
  nth_error els j = Some e ->
  nth_error (updateAt j f els) j = Some (f e).
Proof.
  revert j; induction els as [|x els IH]; intros [|j]; simpl; try discriminate.
  - intros H; inversion H; reflexivity.
  - apply IH.
Qed.

Lemma nth_error_updateAt_other (f : Element -> Element) (els : list Element)
    (i j : nat) :
  i <> j -> nth_error (updateAt j f els) i = nth_error els i.
Proof.
  revert i j; induction els as [|x els IH]; intros [|i] [|j] H; simpl;
    try reflexivity; try congruence.
  apply IH. congruence.
Qed.

Lemma eraseAll_app_fresh (toRemove l : list nat) (p : nat) :
  ~ In p toRemove ->
  eraseAll toRemove (l ++ [p]) = (eraseAll toRemove l ++ [p])%list.
Proof.
  intros H. unfold eraseAll. rewrite filter_app. f_equal. simpl.
  destruct (existsb (Nat.eqb p) toRemove) eqn:E; [|reflexivity].
  apply existsb_exists in E. destruct E as [x [Hin Hx]].
  apply Nat.eqb_eq in Hx. subst. contradiction.
Qed.


Lemma updateAt_length (f : Element -> Element) (els : list Element) (j : nat) :
  length (updateAt j f els) = length els.
Proof.
  revert j; induction els as [|x els IH]; intros [|j]; simpl; auto.
Qed.

(** What a release does when the scan stops at [o] with result [r]. *)
Lemma checkCollisions_hit (g g1 : Game) (d o : nat) (time : float)
    (r : string) (j : nat) (e : Element) :
  scanObjects g d time (objects g) = (g1, Some (o, r)) ->
  findElement r (elements g) 0 = Some (j, e) ->
  In o (objects g) ->
  let p := freshAddr (d :: live g) in
  elements (checkCollisions g d time)
  = updateAt j (fun e => incrementCreated (markDiscovered e)) (elements g)
  /\ objects (checkCollisions g d time)
     = (eraseAll [d; o] (objects g) ++ [p])%list
  /\ heap (checkCollisions g d time) p
     = newGameObject j r ("assets/" ++ r ++ ".png")
         (midpoint (position (sprite (heap g d)))
                   (position (sprite (heap g o)))) time
  /\ (forall q, q <> p ->
        uncolored (heap (checkCollisions g d time) q) = uncolored (heap g q))
  /\ draggingObject (checkCollisions g d time) = draggingObject g.
Proof.
  intros Hscan Hfind Hin p.
  pose proof (scanObjects_feedback g d time (objects g)) as Hsim.
  rewrite Hscan in Hsim. simpl in Hsim.
  pose proof (sameButFeedback_live _ _ Hsim) as Hlive.
  destruct Hsim as (_ & He & Ho & _ & Hd & _ & Hh).
  unfold checkCollisions. rewrite Hscan. unfold spawnResult.
  rewrite He, Hfind, Hlive, Ho. fold p. simpl.
  assert (Hpd : p <> d).
  { pose proof (freshAddr_gt (d :: live g) d (or_introl eq_refl)).
    unfold p. lia. }
  assert (Hpo : p <> o).
  { assert (In o (d :: live g)) as Hl
      by (right; unfold live; apply in_or_app; now left).
    pose proof (freshAddr_gt _ _ Hl). unfold p. lia. }
  repeat split.
  - apply (eraseAll_app_fresh [d; o] (objects g) p).
    simpl. intros [H|[H|[]]]; congruence.
  - rewrite upd_same.
    destruct (uncolored_fields _ _ (Hh d)) as (_ & -> & _).
    destruct (uncolored_fields _ _ (Hh o)) as (_ & -> & _).
    reflexivity.
  - intros q Hq. rewrite upd_other by assumption. apply Hh.
  - exact Hd.
Qed.


Lemma rejected_feedback (g g' : Game) (d p : nat) :
  sameButFeedback g g' -> rejected g' d p = rejected g d p.
Proof.
  intros H. unfold rejected.
  now rewrite (skipped_feedback _ _ _ _ H), (overlaps_feedback _ _ _ _ H),
    (pairResult_feedback _ _ _ _ H).
Qed.

Lemma rejected_not_combinable (g : Game) (d p : nat) :
  rejected g d p = true -> combinable g d p = false.
Proof.
  unfold rejected, combinable.
  destruct (negb (skipped g d p) && overlaps g d p); simpl; [|reflexivity].
  now intros ->.
Qed.

Lemma scanObjects_none (g : Game) (d : nat) (time : float) (l : list nat) :
  Forall (fun p => combinable g d p = false) l ->
  snd (scanObjects g d time l) = None.
Proof.
  intros H. destruct (scanObjects_app g d time l [] H) as [Hn _]. exact Hn.
Qed.

(** Candidates that are neither combined nor rejected leave no trace. *)
Lemma scanObjects_idle (g : Game) (d : nat) (time : float) (l : list nat) :
  Forall (fun p => combinable g d p = false /\ rejected g d p = false) l ->
  scanObjects g d time l = (g, None).
Proof.
  induction l as [|o rest IH]; intros H; [reflexivity|].
  inversion H as [|? ? [Hc Hr] Hrest]; subst.
  rewrite scanObjects_cons, Hc, Hr. now apply IH.
Qed.

(** The scan never takes the rejection colour off an object. *)
Lemma scanObjects_keeps_flag (g : Game) (d : nat) (time : float)
    (l : list nat) (o : nat) :
  color (sprite (heap g o)) = SemiTransparent ->
  color (sprite (heap (fst (scanObjects g d time l)) o)) = SemiTransparent.
Proof.
  revert g; induction l as [|x rest IH]; intros g H; [exact H|].
  rewrite scanObjects_cons.
  destruct (combinable g d x); [exact H|].
  destruct (rejected g d x); [|now apply IH].
  apply IH. unfold recordInvalid; simpl. unfold upd.
  destruct (Nat.eqb o x); [reflexivity|exact H].
Qed.

Lemma checkCollisions_keeps_flag (g : Game) (d : nat) (time : float) (o : nat) :
  In o (objects g) ->
  color (sprite (heap (fst (scanObjects g d time (objects g))) o))
  = SemiTransparent ->
  color (sprite (heap (checkCollisions g d time) o)) = SemiTransparent.
Proof.
  intros Hin H. unfold checkCollisions.
  pose proof (scanObjects_feedback g d time (objects g)) as Hsim.
  destruct (scanObjects g d time (objects g)) as [g2 [[other res]|]];
    simpl in *; [|exact H].
  unfold spawnResult.
  destruct (findElement res (elements g2) 0) as [[j e]|]; simpl; [|exact H].
  rewrite upd_other; [exact H|].
  assert (Hl : In o (d :: live g2)).
  { right. rewrite (sameButFeedback_live _ _ Hsim).
    unfold live. apply in_or_app. now left. }
  pose proof (freshAddr_gt _ _ Hl). lia.
Qed.

Lemma resetColors_keeps_white (l : list nat) (h : Heap) (p : nat) :
  color (sprite (h p)) = White ->
  color (sprite (resetColors l h p)) = White.
Proof.
  revert h; induction l as [|a l IH]; intros h H; [exact H|].
  simpl. apply IH. unfold upd. destruct (Nat.eqb p a); [reflexivity|exact H].
Qed.

Lemma resetColors_In (l : list nat) (h : Heap) (p : nat) :
  In p l -> color (sprite (resetColors l h p)) = White.
Proof.
  revert h; induction l as [|a l IH]; intros h Hin; [destruct Hin|].
  destruct Hin as [Hin|Hin].
  - subst. simpl. apply resetColors_keeps_white. now rewrite upd_same.
  - simpl. now apply IH.
Qed.

(** The update leaves every object of the registry white. *)
Lemma update_resets_colors (g : Game) (time : float) (p : nat) :
  In p (objects (update g time)) ->
  color (sprite (heap (update g time) p)) = White.
Proof. unfold update; simpl. apply resetColors_In. Qed.

(** C5. When the dragged instance [d] is released and the scan reaches an
    instance [o] that is examined (neither [d] nor being dragged),
    overlaps [d] and has no registered result with it, the resolver sets
    the invalid mark at the midpoint of the positions of [d] and [o] as
    binary32 computes it, each coordinate being the rounded half of the
    rounded sum of the two coordinates (the exact half of the exact sum
    when binary32 holds both), with the binary32 sum of [time] and [1]
    as expiry, which is at most half a unit in the last place away from
    [time + 1]; it gives [o] the rejection colour, touches no element
    and removes no instance, and goes on scanning the instances after
    [o]. The rejection colour stays on [o] to the end of the release and
    is taken off by the next update; when no instance combines with [d],
    the release changes no element and removes no instance, and when no
    instance after [o] is examined with an overlap, the mark of [o] is the
    one left by the release. The sums are taken within the range of
    binary32. *)
Theorem release_rejects_invalid (g : Game) (d : nat) (time : float)
    (pre : list nat) (o : nat) (post : list nat) :
  let xd := vx (position (sprite (heap g d))) in
  let yd := vy (position (sprite (heap g d))) in
  let xo := vx (position (sprite (heap g o))) in
  let yo := vy (position (sprite (heap g o))) in
  objects g = (pre ++ o :: post)%list ->
  Forall (fun p => combinable g d p = false) pre ->
  skipped g d o = false ->
  overlaps g d o = true ->
  pairResult g d o = "" ->
  finite32 (xd + xo) = true ->
  finite32 (yd + yo) = true ->
  finite32 (time + 1) = true ->
  let g0 := fst (scanObjects g d time pre) in
  let g1 := recordInvalid g0 d o time in
  let g' := checkCollisions g d time in
  invalidMarkPos g1
  = vec (fl32 (fl32 (xd + xo) / 2)) (fl32 (fl32 (yd + yo) / 2))
  /\ (fl32 (xd + xo) == xd + xo -> fl32 ((xd + xo) / 2) == (xd + xo) / 2 ->
      vx (invalidMarkPos g1) == (xd + xo) / 2)
  /\ (fl32 (yd + yo) == yd + yo -> fl32 ((yd + yo) / 2) == (yd + yo) / 2 ->
      vy (invalidMarkPos g1) == (yd + yo) / 2)
  /\ invalidMarkTime g1 = fl32 (time + 1)
  /\ (~ time + 1 == 0 ->
      Qabs (invalidMarkTime g1 - (time + 1)) <= ulp32 (Qabs (time + 1)) / 2)
  /\ color (sprite (heap g1 o)) = SemiTransparent
  /\ elements g1 = elements g
  /\ objects g1 = objects g
  /\ scanObjects g d time (objects g) = scanObjects g1 d time post
  /\ color (sprite (heap g' o)) = SemiTransparent
  /\ (forall t, In o (objects (update g' t)) ->
                color (sprite (heap (update g' t) o)) = White)
  /\ (Forall (fun p => combinable g d p = false) post ->
      elements g' = elements g /\ objects g' = objects g)
  /\ (Forall (fun p => combinable g d p = false /\ rejected g d p = false)
             post ->
      invalidMarkPos g'
      = vec (fl32 (fl32 (xd + xo) / 2)) (fl32 (fl32 (yd + yo) / 2))
      /\ invalidMarkTime g' = fl32 (time + 1)).
Proof.
  intros xd yd xo yo Hobj Hpre Hskip Hover Hres _ _ _ g0 g1 g'.
  assert (Hrej : rejected g d o = true).
  { unfold rejected. now rewrite Hskip, Hover, Hres. }
  pose proof (scanObjects_feedback g d time pre) as Hsim0. fold g0 in Hsim0.
  pose proof (recordInvalid_feedback g0 d o time) as Hsim01. fold g1 in Hsim01.
  pose proof (sameButFeedback_trans _ _ _ Hsim0 Hsim01) as Hsim1.
  destruct (scanObjects_app g d time pre (o :: post) Hpre) as [_ Happ].
  fold g0 in Happ.
  rewrite scanObjects_cons in Happ.
  rewrite (rejected_not_combinable g0 d o) in Happ
    by now rewrite (rejected_feedback _ _ _ _ Hsim0).
  rewrite (rejected_feedback _ _ _ _ Hsim0), Hrej in Happ. fold g1 in Happ.
  rewrite <- Hobj in Happ.
  assert (Hino : In o (objects g))
    by (rewrite Hobj; apply in_or_app; right; now left).
  assert (Hpos : invalidMarkPos g1
                 = vec (fl32 (fl32 (xd + xo) / 2))
                       (fl32 (fl32 (yd + yo) / 2))).
  { destruct Hsim0 as (_ & _ & _ & _ & _ & _ & Hh).
    unfold g1, recordInvalid; cbn [invalidMarkPos set_invalidMark set_heap].
    destruct (uncolored_fields _ _ (Hh d)) as (_ & -> & _).
    destruct (uncolored_fields _ _ (Hh o)) as (_ & -> & _).
    reflexivity. }
  assert (Hcol : color (sprite (heap g1 o)) = SemiTransparent).
  { unfold g1, recordInvalid; simpl. now rewrite upd_same. }
  assert (Hfinal : color (sprite (heap g' o)) = SemiTransparent).
  { apply checkCollisions_keeps_flag; [assumption|].
    rewrite Happ. now apply scanObjects_keeps_flag. }
  split; [exact Hpos|].
  split; [intros H1 H2; rewrite Hpos; exact (half_sum_exact xd xo H1 H2)|].
  split; [intros H1 H2; rewrite Hpos; exact (half_sum_exact yd yo H1 H2)|].
  split; [reflexivity|].
  split; [intros Ht; exact (fl32_near (time + 1) Ht)|].
  split; [exact Hcol|].
  split; [apply Hsim1|]. split; [apply Hsim1|]. split; [exact Happ|].
  split; [exact Hfinal|].
  split; [intros t; apply update_resets_colors|].
  split.
  - intros Hpost.
    assert (Hall : Forall (fun p => combinable g d p = false) (objects g)).
    { rewrite Hobj. apply Forall_app. split; [assumption|].
      constructor; [now apply rejected_not_combinable|assumption]. }
    pose proof (scanObjects_none g d time (objects g) Hall) as Hnone.
    pose proof (scanObjects_feedback g d time (objects g)) as Hsim.
    unfold g', checkCollisions.
    destruct (scanObjects g d time (objects g)) as [g2 res]; simpl in *.
    subst res. split; apply Hsim.
  - intros Hpost.
    assert (Hidle : scanObjects g1 d time post = (g1, None)).
    { apply scanObjects_idle. eapply Forall_impl; [|exact Hpost].
      intros p [Hc Hr].
      now rewrite (combinable_feedback _ _ _ _ Hsim1),
        (rejected_feedback _ _ _ _ Hsim1). }
    unfold g', checkCollisions. rewrite Happ, Hidle.
    split; [exact Hpos|reflexivity].
Qed.

End ResolverProperties.

(** ** Oldest-first eviction in [update] *)

Lemma fltb_lt (a b : float) : fltb a b = true <-> a < b.
Proof.
  unfold fltb. rewrite negb_true_iff.
  split.
  - intros H. apply Qnot_le_lt. intros Hle.
    apply Qle_bool_iff in Hle. congruence.
  - intros H. destruct (Qle_bool b a) eqn:E; [|reflexivity].
    apply Qle_bool_iff in E. exfalso. exact (Qlt_not_le _ _ H E).
Qed.

Lemma fltb_ge (a b : float) : fltb a b = false <-> b <= a.
Proof.
  unfold fltb. rewrite negb_false_iff. apply Qle_bool_iff.
Qed.

Lemma older_trans (h : Heap) (a b c : nat) :
  older h a b = true -> older h b c = true -> older h a c = true.
Proof.
  unfold older. rewrite !fltb_lt. apply Qlt_trans.
Qed.

Lemma older_negtrans (h : Heap) (a b c : nat) :
  older h a b = false -> older h b c = false -> older h a c = false.
Proof.
  unfold older. rewrite !fltb_ge. intros H1 H2. eapply Qle_trans; eauto.
Qed.

(** C2. After one update the registry holds at most [maxObjects]
    instances; and when it held [maxObjects + k] before, the update
    removes [k] of them, keeps the others in their order, and every
    removed instance was created strictly before every kept one, or at
    the same time and inserted before it. *)
Theorem update_evicts_oldest (g : Game) (time : float) :
  (length (objects (update g time)) <= maxObjects)%nat
  /\ forall k : nat,
       length (objects g) = (maxObjects + k)%nat ->
       exists evicted : list bool,
         length evicted = length (objects g)
         /\ count_occ Bool.bool_dec evicted true = k
         /\ objects (update g time) = select evicted (objects g)
         /\ forall (i j a b : nat),
              nth_error evicted i = Some true ->
              nth_error (objects g) i = Some a ->
              nth_error evicted j = Some false ->
              nth_error (objects g) j = Some b ->
              creationTime (heap g a) < creationTime (heap g b)
              \/ (creationTime (heap g a) == creationTime (heap g b)
                  /\ (i < j)%nat).
Proof.
  split.
  - unfold update; simpl. unfold evict. apply evict_loop_bound. lia.
  - intros k Hk.
    exists (oldest_flags (older (heap g)) k (objects g)).
    split; [apply oldest_flags_length|].
    split; [apply oldest_flags_count; lia|].
    split.
    + unfold update; simpl. unfold evict.
      apply (evict_loop_flags _ _ (older_trans (heap g))
               (older_negtrans (heap g))); lia.
    + intros i j a b Hi Ha Hj Hb.
      destruct (oldest_flags_order _ _ (older_trans (heap g))
                  (older_negtrans (heap g)) _ _ _ _ _ _ Hi Ha Hj Hb)
        as [H|[H Hij]].
      * left. now apply fltb_lt.
      * unfold older in H. apply fltb_ge in H.
        destruct (Qlt_le_dec (creationTime (heap g a))
                             (creationTime (heap g b))) as [Hlt|Hle].
        -- now left.
        -- right. split; [now apply Qle_antisym|assumption].
Qed.

Lemma update_evicts_oldest_witness :
  length (objects crowded) = (maxObjects + 1)%nat
  /\ exists evicted : list bool,
       length evicted = length (objects crowded)
       /\ count_occ Bool.bool_dec evicted true = 1%nat
       /\ objects (update crowded 0) = select evicted (objects crowded)
       /\ forall (i j a b : nat),
            nth_error evicted i = Some true ->
            nth_error (objects crowded) i = Some a ->
            nth_error evicted j = Some false ->
            nth_error (objects crowded) j = Some b ->
            creationTime (heap crowded a) < creationTime (heap crowded b)
            \/ (creationTime (heap crowded a) == creationTime (heap crowded b)
                /\ (i < j)%nat).
Proof.
  split; [reflexivity|].
  exact (proj2 (update_evicts_oldest crowded 0) 1%nat eq_refl).
Defined.

Example update_crowded : objects (update crowded 0) = seq 2 50.
Proof. vm_compute. reflexivity. Qed.

(** ** The event handler *)

Section HandlerProperties.

Context {sfml : Geometry}.

Lemma sidebarLoop_full (g : Game) (mousePos : Vector2f) (wy : Z)
    (els : list Element) (i : nat) (di : Z) :
  (maxObjects <= length (objects g))%nat ->
  sidebarLoop g mousePos wy els i di = None.
Proof.
  intros Hfull. revert i di; induction els as [|e rest IH]; intros i di; simpl.
  - reflexivity.
  - destruct (discovered e); simpl; [|apply IH].
    destruct (Nat.ltb_spec (length (objects g)) maxObjects); [lia|].
    rewrite !andb_false_r. apply IH.
Qed.

Lemma scanObjects_some (g g1 : Game) (d : nat) (time : float) (l : list nat)
    (o : nat) (r : string) :
  scanObjects g d time l = (g1, Some (o, r)) ->
  In o l /\ r <> "" /\ exists a b, r = getResult a b.
Proof.
  revert g; induction l as [|x rest IH]; intros g H; [discriminate|].
  rewrite scanObjects_cons in H.
  destruct (combinable g d x) eqn:Ec.
  - inversion H; subst. split; [now left|].
    unfold combinable in Ec. apply andb_true_iff in Ec. destruct Ec as [_ Ec].
    apply negb_true_iff, String.eqb_neq in Ec.
    split; [assumption|]. unfold pairResult. eauto.
  - destruct (rejected g d x);
      apply IH in H; destruct H as (Hin & Hr & Hab); auto with datatypes.
Qed.

Lemma eraseAll_length_lt (toRemove l : list nat) (x : nat) :
  In x toRemove -> In x l -> (length (eraseAll toRemove l) < length l)%nat.
Proof.
  intros Hrm Hin. unfold eraseAll.
  induction l as [|y l IH]; [destruct Hin|]. simpl.
  destruct Hin as [->|Hin].
  - assert (E : existsb (Nat.eqb x) toRemove = true).
    { apply existsb_exists. exists x. split; [assumption|apply Nat.eqb_refl]. }
    rewrite E. simpl.
    pose proof (filter_length_le
                  (fun o => negb (existsb (Nat.eqb o) toRemove)) l). lia.
  - specialize (IH Hin).
    destruct (negb (existsb (Nat.eqb y) toRemove)); simpl; lia.
Qed.

(** A release never lengthens the registry. *)
Lemma checkCollisions_length_le (g : Game) (d : nat) (time : float) :
  (length (objects (checkCollisions g d time)) <= length (objects g))%nat.
Proof.
  unfold checkCollisions.
  pose proof (scanObjects_feedback g d time (objects g)) as Hsim.
  destruct (scanObjects g d time (objects g)) as [g2 [[o r]|]] eqn:Hscan;
    simpl in Hsim.
  - destruct (scanObjects_some _ _ _ _ _ _ _ Hscan) as (Hin & _).
    pose proof (sameButFeedback_live _ _ Hsim) as Hlive.
    destruct Hsim as (_ & _ & Ho & _).
    unfold spawnResult.
    destruct (findElement r (elements g2) 0) as [[j e]|]; simpl.
    + rewrite Ho, Hlive, eraseAll_app_fresh.
      * rewrite length_app. simpl.
        pose proof (eraseAll_length_lt [d; o] (objects g) o
                      (or_intror (or_introl eq_refl)) Hin). lia.
      * assert (In o (d :: live g)) as Hl
          by (right; unfold live; apply in_or_app; now left).
        pose proof (freshAddr_gt _ _ Hl).
        pose proof (freshAddr_gt (d :: live g) d (or_introl eq_refl)).
        simpl. intros [H1|[H1|[]]]; lia.
    + rewrite Ho.
      pose proof (eraseAll_length_lt [d; o] (objects g) o
                    (or_intror (or_introl eq_refl)) Hin). lia.
  - destruct Hsim as (_ & _ & -> & _). lia.
Qed.

Lemma checkCollisions_elements (g : Game) (d : nat) (time : float) :
  elements (checkCollisions g d time) = elements g
  \/ exists j, elements (checkCollisions g d time)
               = updateAt j (fun e => incrementCreated (markDiscovered e))
                   (elements g).
Proof.
  unfold checkCollisions.
  pose proof (scanObjects_feedback g d time (objects g)) as Hsim.
  destruct (scanObjects g d time (objects g)) as [g2 [[o r]|]];
    simpl in Hsim; destruct Hsim as (_ & He & _).
  - unfold spawnResult.
    destruct (findElement r (elements g2) 0) as [[j e]|]; simpl.
    + right. exists j. now rewrite He.
    + now left.
  - now left.
Qed.

(** The catalog changes in two ways only: a counter is incremented, or
    an element is marked discovered and its counter incremented. *)
Lemma handleEvent_elements (g : Game) (inp : Input) :
  elements (handleEvent g inp) = elements g
  \/ (exists i, elements (handleEvent g inp)
                = updateAt i incrementCreated (elements g))
  \/ (exists j, elements (handleEvent g inp)
                = updateAt j (fun e => incrementCreated (markDiscovered e))
                    (elements g)).
Proof.
  unfold handleEvent.
  destruct (event inp) as [|delta mp|b mp|b mp|mp|]; cbv zeta;
    try (simpl; match goal with
                | |- context [if ?c then _ else _] => destruct c
                end; now left).
  - (* wheel *)
    unfold scrollSidebar.
    destruct (fltb _ _ && negb (bookOpen g)); simpl;
      match goal with
      | |- context [if ?c then _ else _] => destruct c
      end; now left.
  - (* press *)
    match goal with
    | |- context [if ?c then _ else _] => destruct c
    end; [now left|].
    destruct b; try (now left).
    unfold startDragging, sidebarSpawn, spawnElement. simpl.
    destruct (sidebarLoop _ mp (windowSizeY inp) (elements g) 0 0) as [i|];
      simpl.
    + match goal with
      | |- context [objectAt ?h ?m ?l] => destruct (objectAt h m l)
      end; simpl; right; left; now exists i.
    + match goal with
      | |- context [objectAt ?h ?m ?l] => destruct (objectAt h m l)
      end; simpl; now left.
  - (* release *)
    match goal with
    | |- context [if ?c then _ else _] => destruct c
    end; [now left|].
    destruct b; try (now left).
    unfold releaseDragged. simpl.
    destruct (draggingObject g) as [d|]; simpl; [|now left].
    match goal with
    | |- context [if ?c then _ else _] => destruct c
    end; simpl; [now left|].
    match goal with
    | |- context [checkCollisions ?g0 d ?t] =>
        destruct (checkCollisions_elements g0 d t) as [H|[j H]]
    end.
    + left. exact H.
    + right; right. exists j. exact H.
  - (* move *)
    match goal with
    | |- context [if ?c then _ else _] => destruct c
    end; [now left|].
    unfold moveDragged. simpl. destruct (draggingObject g); now left.
Qed.

Lemma sidebarLoop_some (g : Game) (mousePos : Vector2f) (wy : Z)
    (els : list Element) (i k : nat) (di : Z) :
  sidebarLoop g mousePos wy els i di = Some k ->
  (length (objects g) < maxObjects)%nat.
Proof.
  destruct (Nat.ltb_spec (length (objects g)) maxObjects) as [H|H];
    [auto|].
  now rewrite sidebarLoop_full.
Qed.

Lemma eraseAll_length_le (toRemove l : list nat) :
  (length (eraseAll toRemove l) <= length l)%nat.
Proof. apply filter_length_le. Qed.

(** No event takes the registry over its capacity. *)
Lemma handleEvent_capacity (g : Game) (inp : Input) :
  (length (objects g) <= maxObjects)%nat ->
  (length (objects (handleEvent g inp)) <= maxObjects)%nat.
Proof.
  intros Hcap. unfold handleEvent.
  destruct (event inp) as [|delta mp|b mp|b mp|mp|]; cbv zeta;
    try (simpl; match goal with
                | |- context [if ?c then _ else _] => destruct c
                end; exact Hcap).
  - unfold scrollSidebar.
    destruct (fltb _ _ && negb (bookOpen g)); simpl;
      match goal with
      | |- context [if ?c then _ else _] => destruct c
      end; exact Hcap.
  - match goal with
    | |- context [if ?c then _ else _] => destruct c
    end; [exact Hcap|].
    destruct b; try exact Hcap.
    unfold startDragging, sidebarSpawn, spawnElement. simpl.
    destruct (sidebarLoop _ mp (windowSizeY inp) (elements g) 0 0) as [i|]
      eqn:Hloop; simpl.
    + apply sidebarLoop_some in Hloop. simpl in Hloop.
      match goal with
      | |- context [objectAt ?h ?m ?l] => destruct (objectAt h m l)
      end; simpl; rewrite length_app; simpl; lia.
    + match goal with
      | |- context [objectAt ?h ?m ?l] => destruct (objectAt h m l)
      end; simpl; exact Hcap.
  - match goal with
    | |- context [if ?c then _ else _] => destruct c
    end; [exact Hcap|].
    destruct b; try exact Hcap.
    unfold releaseDragged. simpl.
    destruct (draggingObject g) as [d|]; simpl; [|exact Hcap].
    match goal with
    | |- context [if ?c then _ else _] => destruct c
    end; simpl.
    + pose proof (eraseAll_length_le [d] (objects g)). lia.
    + match goal with
      | |- context [checkCollisions ?g0 d ?t] =>
          pose proof (checkCollisions_length_le g0 d t) as H
      end.
      simpl in H. lia.
  - match goal with
    | |- context [if ?c then _ else _] => destruct c
    end; [exact Hcap|].
    unfold moveDragged. simpl. destruct (draggingObject g); exact Hcap.
Qed.

(** C4, as the program has it. A press while the registry holds
    [maxObjects] instances (or more) adds no instance and increments no
    counter. A combination is not gated on capacity: whenever the scan
    finds a partner whose result is in the catalog, the new instance
    enters the registry; but a release never lengthens the registry,
    since the partner leaves it, so that no event takes the registry
    over [maxObjects]. *)
Theorem spawn_gate_and_combination_size :
  (forall (g : Game) (inp : Input) (button : MouseButton) (mousePos : Vector2f),
      event inp = MouseButtonPressed button mousePos ->
      (maxObjects <= length (objects g))%nat ->
      objects (handleEvent g inp) = objects g
      /\ elements (handleEvent g inp) = elements g)
  /\ (forall (g g1 : Game) (d o : nat) (r : string) (j : nat) (e : Element)
             (time : float),
        scanObjects g d time (objects g) = (g1, Some (o, r)) ->
        findElement r (elements g) 0 = Some (j, e) ->
        In (freshAddr (d :: live g)) (objects (checkCollisions g d time)))
  /\ (forall (g : Game) (d : nat) (time : float),
        (length (objects (checkCollisions g d time)) <= length (objects g))%nat)
  /\ (forall (g : Game) (inp : Input),
        (length (objects g) <= maxObjects)%nat ->
        (length (objects (handleEvent g inp)) <= maxObjects)%nat).
Proof.
  split; [|split; [|split]].
  - intros g inp button mousePos Hev Hfull.
    unfold handleEvent. rewrite Hev. cbv zeta.
    match goal with
    | |- context [if ?c then _ else _] => destruct c
    end; [split; reflexivity|].
    destruct button; try (split; reflexivity).
    unfold sidebarSpawn. rewrite sidebarLoop_full by exact Hfull.
    unfold startDragging.
    match goal with
    | |- context [objectAt ?h ?m ?l] => destruct (objectAt h m l)
    end; split; reflexivity.
  - intros g g1 d o r j e time Hscan Hfind.
    destruct (scanObjects_some _ _ _ _ _ _ _ Hscan) as (Hin & _).
    destruct (checkCollisions_hit g g1 d o time r j e Hscan Hfind Hin)
      as (_ & -> & _).
    apply in_or_app. right. now left.
  - apply checkCollisions_length_le.
  - apply handleEvent_capacity.
Qed.

(** *** Invariants of the catalog along a run *)

Lemma step_elements (g : Game) (s : Step) :
  elements (step g s) = elements g
  \/ (exists i, elements (step g s) = updateAt i incrementCreated (elements g))
  \/ (exists j, elements (step g s)
                = updateAt j (fun e => incrementCreated (markDiscovered e))
                    (elements g)).
Proof.
  destruct s as [inp|time]; simpl.
  - apply handleEvent_elements.
  - now left.
Qed.

(** A property of the catalog that both mutations keep holds along every
    run. *)
Lemma steps_elements_invariant (P : list Element -> Prop) :
  (forall els i, P els -> P (updateAt i incrementCreated els)) ->
  (forall els j, P els ->
     P (updateAt j (fun e => incrementCreated (markDiscovered e)) els)) ->
  forall (ops : list Step) (g : Game),
    P (elements g) -> P (elements (steps g ops)).
Proof.
  intros Hinc Hdisc ops. induction ops as [|s ops IH]; intros g Hg.
  - exact Hg.
  - simpl. apply IH.
    destruct (step_elements g s) as [H|[[i H]|[j H]]]; rewrite H; auto.
Qed.

Lemma updateAt_Forall (P : Element -> Prop) (f : Element -> Element)
    (els : list Element) (j : nat) :
  (forall e, P e -> P (f e)) -> Forall P els -> Forall P (updateAt j f els).
Proof.
  intros Hf. revert j; induction els as [|x els IH]; intros [|j] H; simpl;
    inversion H; subst; constructor; auto.
Qed.

Lemma updateAt_names (f : Element -> Element) (els : list Element) (j : nat) :
  (forall e, name (f e) = name e) ->
  map name (updateAt j f els) = map name els.
Proof.
  intros Hf. revert j; induction els as [|x els IH]; intros [|j]; simpl;
    try reflexivity.
  - now rewrite Hf.
  - now rewrite IH.
Qed.

(** The names of the catalog never change. *)
Lemma steps_catalog (ops : list Step) (g : Game) :
  map name (elements g) = catalogNames ->
  map name (elements (steps g ops)) = catalogNames.
Proof.
  apply (steps_elements_invariant (fun els => map name els = catalogNames));
    intros els k H; rewrite updateAt_names; auto.
Qed.

(** The catalog holds no name twice. *)
Lemma catalogNames_NoDup : NoDup catalogNames.
Proof.
  unfold catalogNames, initialElements, newElement; cbn [map name].
  repeat (apply NoDup_cons;
          [cbn [In]; intros H;
           repeat (destruct H as [H|H]; [discriminate H|]); exact H|]).
  apply NoDup_nil.
Qed.

(** With the names of the constructor, a name is at one index only. *)
Lemma catalog_index_unique (els : list Element) (j k : nat) (e e' : Element) :
  map name els = catalogNames ->
  nth_error els j = Some e ->
  nth_error els k = Some e' ->
  name e' = name e ->
  k = j.
Proof.
  intros Hcat Hj Hk Hname.
  pose proof catalogNames_NoDup as Hnd. rewrite <- Hcat in Hnd.
  apply (proj1 (NoDup_nth_error (map name els)) Hnd).
  - rewrite length_map. apply nth_error_Some. congruence.
  - rewrite !nth_error_map, Hj, Hk. simpl. now rewrite Hname.
Qed.



(** C10. Every non-empty result of the registry is the name of an
    element of the catalog; hence, in every state of a run, the search
    for the result element succeeds: it returns the cell [e] of the catalog
    at an index [j], that cell has the name of the result, and no other
    index of the catalog has that name. A release whose scan finds a
    partner [o] with result [r] leaves the registry as it was without the
    dragged instance and [o], followed by exactly one instance, which is
    not in the registry before: it is an instance of the element of the
    catalog called [r], with the sprite of [r], and that element is
    discovered afterwards. *)
Theorem result_element_is_found (ops : list Step) :
  let g := steps initialGame ops in
  (forall a b : string,
      getResult a b <> "" ->
      In (getResult a b) catalogNames
      /\ exists j e, findElement (getResult a b) (elements g) 0 = Some (j, e)
                     /\ nth_error (elements g) j = Some e
                     /\ name e = getResult a b
                     /\ (forall k e', nth_error (elements g) k = Some e' ->
                                      name e' = getResult a b -> k = j))
  /\ (forall (d : nat) (time : float) (g1 : Game) (o : nat) (r : string),
        scanObjects g d time (objects g) = (g1, Some (o, r)) ->
        let g' := checkCollisions g d time in
        let p := freshAddr (d :: live g) in
        exists j e,
          findElement r (elements g) 0 = Some (j, e)
          /\ nth_error (elements g) j = Some e
          /\ name e = r
          /\ (forall k e', nth_error (elements g) k = Some e' ->
                           name e' = r -> k = j)
          /\ objects g' = (eraseAll [d; o] (objects g) ++ [p])%list
          /\ ~ In p (objects g)
          /\ element (heap g' p) = j
          /\ texture (sprite (heap g' p)) = r
          /\ spritePath (heap g' p) = "assets/" ++ r ++ ".png"
          /\ (exists e', nth_error (elements g') (element (heap g' p)) = Some e'
                         /\ name e' = r
                         /\ description e' = description e
                         /\ discovered e' = true)).
Proof.
  intros g.
  assert (Hcat : map name (elements g) = catalogNames)
    by (apply steps_catalog; reflexivity).
  assert (Hfound : forall r, In r catalogNames ->
            exists j e, findElement r (elements g) 0 = Some (j, e)
                        /\ nth_error (elements g) j = Some e
                        /\ name e = r
                        /\ (forall k e', nth_error (elements g) k = Some e' ->
                                         name e' = r -> k = j)).
  { intros r Hr. rewrite <- Hcat in Hr.
    destruct (findElement_found r (elements g) 0 Hr) as (j & e & Hf & Hn & He).
    exists j, e. simpl in Hn.
    split; [assumption|]. split; [assumption|]. split; [assumption|].
    intros k e' Hk Hname.
    apply (catalog_index_unique (elements g) j k e e' Hcat Hn Hk).
    congruence. }
  split.
  - intros a b Hab. pose proof (getResult_in_catalog a b Hab) as Hin.
    split; [exact Hin|]. apply Hfound. exact Hin.
  - intros d time g1 o r Hscan g' p.
    destruct (scanObjects_some _ _ _ _ _ _ _ Hscan) as (Hin & Hr & a & b & Hab).
    assert (Hrc : In r catalogNames).
    { rewrite Hab. apply getResult_in_catalog. now rewrite <- Hab. }
    destruct (Hfound r Hrc) as (j & e & Hf & Hn & He & Huniq).
    exists j, e.
    destruct (checkCollisions_hit g g1 d o time r j e Hscan Hf Hin)
      as (Hels & Hobjs & Hnew & _).
    fold g' in Hels, Hobjs, Hnew. fold p in Hobjs, Hnew.
    split; [assumption|]. split; [assumption|]. split; [assumption|].
    split; [assumption|]. split; [assumption|].
    split.
    { intros Hp.
      assert (Hl : In p (d :: live g))
        by (right; unfold live; apply in_or_app; now left).
      pose proof (freshAddr_gt _ _ Hl). unfold p in *. lia. }
    rewrite Hnew. cbn [element sprite texture spritePath newGameObject].
    split; [reflexivity|]. split; [reflexivity|]. split; [reflexivity|].
    exists (incrementCreated (markDiscovered e)).
    rewrite Hels, (nth_error_updateAt_same _ _ _ _ Hn).
    cbn [incrementCreated markDiscovered name description discovered].
    auto.
Qed.

Lemma updateAt_Forall_impl (P Q : Element -> Prop) (f : Element -> Element)
    (els : list Element) (j : nat) :
  (forall e, P e -> Q e) -> (forall e, P e -> Q (f e)) ->
  Forall P els -> Forall Q (updateAt j f els).
Proof.
  intros Hk Hf. revert j; induction els as [|x els IH]; intros [|j] H; simpl;
    inversion H; subst; constructor; auto.
  - eapply Forall_impl; [|eassumption]. exact Hk.
Qed.

(** A property of the catalog indexed by the number of operations
    processed: if no operation and both mutations take it from [n] to
    [n + 1], it holds along every run. *)
Lemma steps_elements_counted (P : nat -> list Element -> Prop) :
  (forall n els, P n els -> P (S n) els) ->
  (forall n els i, P n els -> P (S n) (updateAt i incrementCreated els)) ->
  (forall n els j, P n els ->
     P (S n) (updateAt j (fun e => incrementCreated (markDiscovered e)) els)) ->
  forall (ops : list Step) (g : Game) (n : nat),
    P n (elements g) -> P (length ops + n)%nat (elements (steps g ops)).
Proof.
  intros Hsame Hinc Hdisc ops. induction ops as [|s ops IH]; intros g n Hg.
  - exact Hg.
  - cbn [length steps fold_left]. rewrite Nat.add_succ_l, <- Nat.add_succ_r.
    apply (IH (step g s) (S n)).
    destruct (step_elements g s) as [H|[[i H]|[j H]]]; rewrite H; auto.
Qed.

(** Along a run of fewer than [2^31] operations from the initial state,
    every counter is between zero and the number of operations, and a
    discovered element is a primitive one or has been created. *)
Lemma run_counters (ops : list Step) :
  (Z.of_nat (length ops) < 2 ^ 31)%Z ->
  Forall (fun x => (0 <= creationCount x <= Z.of_nat (length ops))%Z
                   /\ (discovered x = true ->
                       In (name x) primitives \/ (1 <= creationCount x)%Z))
    (elements (steps initialGame ops)).
Proof.
  set (inv := fun (n : nat) (x : Element) =>
                (0 <= creationCount x <= Z.of_nat n)%Z
                /\ (discovered x = true ->
                    In (name x) primitives \/ (1 <= creationCount x)%Z)).
  assert (Hinv : (Z.of_nat (length ops + 0) < 2 ^ 31)%Z ->
                 Forall (inv (length ops + 0)%nat)
                   (elements (steps initialGame ops))).
  { apply (steps_elements_counted
             (fun n els => (Z.of_nat n < 2 ^ 31)%Z -> Forall (inv n) els)).
    - intros n els H Hn.
      eapply Forall_impl; [|apply H; lia].
      intros x [H0 H1]. split; [lia|exact H1].
    - intros n els i H Hn.
      apply (updateAt_Forall_impl (inv n)); [| |apply H; lia].
      + intros x [H0 H1]. split; [lia|exact H1].
      + intros x [H0 H1]. unfold inv.
        cbn [incrementCreated name discovered creationCount].
        rewrite toInt_id by (unfold isInt; lia).
        split; [lia|]. intros Hd. destruct (H1 Hd); [now left|right; lia].
    - intros n els j H Hn.
      apply (updateAt_Forall_impl (inv n)); [| |apply H; lia].
      + intros x [H0 H1]. split; [lia|exact H1].
      + intros x [H0 H1]. unfold inv.
        cbn [incrementCreated markDiscovered name discovered creationCount].
        rewrite toInt_id by (unfold isInt; lia).
        split; [lia|]. intros _. right; lia.
    - intros _. unfold initialGame, initialElements, newElement; cbn [elements].
      repeat (apply Forall_cons;
              [split; [cbn; lia
                      |cbn; intros Hd';
                       first [discriminate Hd' | left; tauto]]|]).
      apply Forall_nil. }
  rewrite Nat.add_0_r in Hinv. exact Hinv.
Qed.

(** C7, as the program has it. In every state reached from the initial
    state by fewer than [2^31] events and updates, every element that is
    discovered and is not one of the four primitive elements has a
    creation count of at least one, and of at most the number of
    operations. *)
Theorem discovered_derived_is_counted (ops : list Step) (e : Element) :
  (Z.of_nat (length ops) < 2 ^ 31)%Z ->
  In e (elements (steps initialGame ops)) ->
  discovered e = true ->
  ~ In (name e) primitives ->
  (1 <= creationCount e <= Z.of_nat (length ops))%Z.
Proof.
  intros Hlen Hin Hdisc Hprim.
  pose proof (proj1 (Forall_forall _ _) (run_counters ops Hlen) e Hin)
    as [H0 H].
  destruct (H Hdisc); [contradiction|lia].
Qed.

(** C8. Once an element is discovered, it is still discovered, under the
    same name and at the same place of the catalog, after any sequence of
    events and updates. *)
Theorem discovery_is_monotone (g : Game) (ops : list Step) (i : nat)
    (e : Element) :
  nth_error (elements g) i = Some e ->
  discovered e = true ->
  exists e', nth_error (elements (steps g ops)) i = Some e'
             /\ name e' = name e
             /\ discovered e' = true.
Proof.
  intros Hn Hd.
  apply (steps_elements_invariant
           (fun els => exists e', nth_error els i = Some e'
                                  /\ name e' = name e
                                  /\ discovered e' = true)).
  - intros els k (e' & Hn' & Hname & Hdisc).
    destruct (Nat.eq_dec i k) as [->|Hik].
    + exists (incrementCreated e').
      rewrite (nth_error_updateAt_same _ _ _ _ Hn'). auto.
    + exists e'. rewrite nth_error_updateAt_other by assumption. auto.
  - intros els k (e' & Hn' & Hname & Hdisc).
    destruct (Nat.eq_dec i k) as [->|Hik].
    + exists (incrementCreated (markDiscovered e')).
      rewrite (nth_error_updateAt_same _ _ _ _ Hn'). auto.
    + exists e'. rewrite nth_error_updateAt_other by assumption. auto.
  - exists e. auto.
Qed.


(** *** The dragged instance *)

(** An event is handled in a state that has the registry, the store and
    the dragged instance of the state it arrived in. *)
Lemma handleEvent_shape (g : Game) (inp : Input) :
  exists g3,
    objects g3 = objects g /\ heap g3 = heap g
    /\ draggingObject g3 = draggingObject g
    /\ (handleEvent g inp = g3
        \/ (exists mp, event inp = MouseButtonPressed Left mp
                       /\ handleEvent g inp
                          = startDragging
                              (sidebarSpawn g3 mp (windowSizeY inp) (now inp))
                              mp)
        \/ (exists mp, event inp = MouseButtonReleased Left mp
                       /\ handleEvent g inp = releaseDragged g3 (now inp))
        \/ (exists mp, event inp = MouseMoved mp
                       /\ handleEvent g inp = moveDragged g3 mp)).
Proof.
  unfold handleEvent.
  destruct (event inp) as [|delta mp|b mp|b mp|mp|]; cbv zeta;
    match goal with
    | |- context [if bookOpen ?g3 then _ else _] => exists g3
    end;
    (split; [|split; [|split]]);
    try (unfold scrollSidebar;
         destruct (fltb _ _ && negb (bookOpen g)); reflexivity);
    try reflexivity;
    match goal with
    | |- context [if ?c then _ else _] => destruct c
    end; try (now left).
  - destruct b; try (now left). right; left. now exists mp.
  - destruct b; try (now left). right; right; left. now exists mp.
  - right; right; right. now exists mp.
Qed.

Lemma draggerTracked_same (g g' : Game) :
  objects g' = objects g ->
  (forall p, isDragging (heap g' p) = isDragging (heap g p)) ->
  draggingObject g' = draggingObject g ->
  draggerTracked g -> draggerTracked g'.
Proof.
  intros Ho Hh Hd H p Hin Hp. rewrite Hd. apply H.
  - now rewrite <- Ho.
  - now rewrite <- Hh.
Qed.

Lemma press_keeps_tracked (g : Game) (mp : Vector2f) (wy : Z) (time : float) :
  draggingObject g = None -> draggerTracked g ->
  draggerTracked (startDragging (sidebarSpawn g mp wy time) mp).
Proof.
  intros Hidle H.
  assert (Hnone : forall q, In q (objects g) ->
                            isDragging (heap g q) = false).
  { intros q Hq. destruct (isDragging (heap g q)) eqn:E; [|reflexivity].
    specialize (H q Hq E). congruence. }
  set (g4 := sidebarSpawn g mp wy time).
  assert (Hnone4 : forall q, In q (objects g4) ->
                             isDragging (heap g4 q) = false).
  { unfold g4, sidebarSpawn.
    destruct (sidebarLoop g mp wy (elements g) 0 0) as [i|]; [|exact Hnone].
    unfold spawnElement; simpl. intros q Hq.
    apply in_app_or in Hq. unfold upd.
    destruct (Nat.eqb_spec q (freshAddr (live g))) as [->|Hne];
      [reflexivity|].
    destruct Hq as [Hq|[Hq|[]]]; [now apply Hnone|congruence]. }
  unfold startDragging.
  destruct (objectAt (heap g4) mp (objects g4)) as [p0|].
  - intros q Hq Hflag. simpl in *. unfold upd in Hflag.
    destruct (Nat.eqb_spec q p0) as [->|Hne]; [reflexivity|].
    rewrite (Hnone4 q Hq) in Hflag. discriminate.
  - intros q Hq Hflag. rewrite (Hnone4 q Hq) in Hflag. discriminate.
Qed.

(** The instances a release leaves flagged were flagged before it. *)
Lemma checkCollisions_flags (g : Game) (d : nat) (time : float) (q : nat) :
  In q (objects (checkCollisions g d time)) ->
  isDragging (heap (checkCollisions g d time) q) = true ->
  In q (objects g) /\ isDragging (heap g q) = true.
Proof.
  unfold checkCollisions.
  pose proof (scanObjects_feedback g d time (objects g)) as Hsim.
  destruct (scanObjects g d time (objects g)) as [g2 [[o r]|]];
    simpl in Hsim; destruct Hsim as (_ & _ & Ho & _ & _ & _ & Hh).
  - unfold spawnResult.
    destruct (findElement r (elements g2) 0) as [[j e]|]; simpl.
    + intros Hin Hflag. unfold eraseAll in Hin. apply filter_In in Hin.
      destruct Hin as [Hin _]. unfold upd in Hflag.
      destruct (Nat.eqb_spec q (freshAddr (d :: live g2))) as [->|Hne];
        [discriminate|].
      apply in_app_or in Hin. destruct Hin as [Hin|[Hin|[]]]; [|congruence].
      destruct (uncolored_fields _ _ (Hh q)) as (_ & _ & _ & _ & _ & _ & <-).
      rewrite <- Ho. auto.
    + intros Hin Hflag. unfold eraseAll in Hin. apply filter_In in Hin.
      destruct Hin as [Hin _].
      destruct (uncolored_fields _ _ (Hh q)) as (_ & _ & _ & _ & _ & _ & <-).
      rewrite <- Ho. auto.
  - intros Hin Hflag.
    destruct (uncolored_fields _ _ (Hh q)) as (_ & _ & _ & _ & _ & _ & <-).
    rewrite <- Ho. auto.
Qed.

Lemma release_keeps_tracked (g : Game) (time : float) :
  draggerTracked g -> draggerTracked (releaseDragged g time).
Proof.
  intros H. unfold releaseDragged.
  destruct (draggingObject g) as [d|] eqn:Hd; [|exact H].
  intros q Hq Hflag. exfalso. simpl in *. unfold upd in Hflag.
  destruct (Nat.eqb_spec q d) as [->|Hne]; [discriminate|].
  destruct (intersects _ trashBounds); simpl in *.
  - unfold eraseAll in Hq. apply filter_In in Hq. destruct Hq as [Hq _].
    specialize (H q Hq Hflag). congruence.
  - destruct (checkCollisions_flags g d time q Hq Hflag) as [Hq' Hflag'].
    specialize (H q Hq' Hflag'). congruence.
Qed.

Lemma move_keeps_tracked (g : Game) (mp : Vector2f) :
  draggerTracked g -> draggerTracked (moveDragged g mp).
Proof.
  intros H. unfold moveDragged.
  destruct (draggingObject g) as [d|] eqn:Hd; [|exact H].
  apply (draggerTracked_same g); try reflexivity; [|exact H].
  intros p. simpl. unfold upd.
  destruct (Nat.eqb_spec p d) as [->|]; reflexivity.
Qed.

Lemma erase_In (A : Type) (i : nat) (l : list A) (x : A) :
  In x (erase i l) -> In x l.
Proof.
  revert i; induction l as [|a l IH]; intros [|i] H; simpl in *; auto.
  destruct H as [H|H]; eauto.
Qed.

Lemma evict_loop_In (A : Type) (comp : A -> A -> bool) (fuel cap : nat)
    (l : list A) (x : A) :
  In x (evict_loop comp fuel cap l) -> In x l.
Proof.
  revert l; induction fuel as [|fuel IH]; intros l H; simpl in H; auto.
  destruct (Nat.ltb cap (length l)); auto.
  apply IH in H. unfold erase_oldest in H. eapply erase_In; eauto.
Qed.

Lemma resetColors_isDragging (l : list nat) (h : Heap) (p : nat) :
  isDragging (resetColors l h p) = isDragging (h p).
Proof.
  revert h; induction l as [|a l IH]; intros h; simpl; [reflexivity|].
  rewrite IH. unfold upd. destruct (Nat.eqb_spec p a) as [->|]; reflexivity.
Qed.

Lemma update_keeps_tracked (g : Game) (time : float) :
  draggerTracked g -> draggerTracked (update g time).
Proof.
  intros H q Hq Hflag. unfold update in *; simpl in *.
  rewrite resetColors_isDragging in Hflag.
  apply H; [|exact Hflag]. unfold evict in Hq. eapply evict_loop_In; eauto.
Qed.

(** Along a run in which every left press arrives while nothing is
    dragged, the flagged instances of the registry are tracked by
    [draggingObject]; in particular two flagged instances are the same. *)
Lemma single_dragger_when_presses_idle (ops : list Step) (g : Game) :
  draggerTracked g -> pressesWhenIdle g ops ->
  draggerTracked (steps g ops)
  /\ forall p q, In p (objects (steps g ops)) -> In q (objects (steps g ops)) ->
                 isDragging (heap (steps g ops) p) = true ->
                 isDragging (heap (steps g ops) q) = true -> p = q.
Proof.
  intros H Hidle.
  assert (Ht : draggerTracked (steps g ops)).
  { revert g H Hidle; induction ops as [|s ops IH]; intros g H Hidle;
      [exact H|].
    destruct Hidle as [Hs Hrest].
    simpl. apply IH; [|exact Hrest].
    destruct s as [inp|time]; simpl; [|now apply update_keeps_tracked].
    destruct (handleEvent_shape g inp) as (g3 & Ho & Hh & Hd & Hcase).
    assert (H3 : draggerTracked g3).
    { apply (draggerTracked_same g); auto. intros p. now rewrite Hh. }
    destruct Hcase as [->|[(mp & Hev & ->)|[(mp & Hev & ->)|(mp & Hev & ->)]]].
    - exact H3.
    - rewrite Hev in Hs. apply press_keeps_tracked; [congruence|exact H3].
    - now apply release_keeps_tracked.
    - now apply move_keeps_tracked. }
  split; [exact Ht|].
  intros p q Hp Hq Hfp Hfq.
  pose proof (Ht p Hp Hfp). pose proof (Ht q Hq Hfq). congruence.
Qed.

(** *** Dropping on the trash bin *)

Lemma filter_absent (d : nat) (l : list nat) :
  ~ In d l -> filter (fun p => negb (Nat.eqb p d)) l = l.
Proof.
  induction l as [|x l IH]; intros H; simpl; [reflexivity|].
  destruct (Nat.eqb_spec x d) as [->|Hne]; simpl.
  - exfalso. apply H. now left.
  - rewrite IH; [reflexivity|]. intros Hin. apply H. now right.
Qed.

Lemma eraseAll_single (d : nat) (l : list nat) :
  eraseAll [d] l = filter (fun p => negb (Nat.eqb p d)) l.
Proof.
  unfold eraseAll. apply filter_ext. intros p. simpl. now rewrite orb_false_r.
Qed.

(** C9. When the dragged instance [d] is released while its bounds
    intersect the trash bin, the handler removes [d] from the registry and
    nothing else: the other instances stay, in their order and with their
    state, no element of the catalog changes, and no combination is
    looked for (the invalid mark is not touched). *)
Theorem release_over_trash (g : Game) (inp : Input) (mousePos : Vector2f)
    (d : nat) :
  event inp = MouseButtonReleased Left mousePos ->
  bookOpen g = false ->
  draggingObject g = Some d ->
  intersects (getGlobalBounds (sprite (heap g d))) trashBounds = true ->
  let g' := handleEvent g inp in
  objects g' = filter (fun p => negb (Nat.eqb p d)) (objects g)
  /\ (forall l1 l2 : list nat,
        objects g = (l1 ++ d :: l2)%list -> ~ In d l1 -> ~ In d l2 ->
        objects g' = (l1 ++ l2)%list)
  /\ elements g' = elements g
  /\ (forall p, p <> d -> heap g' p = heap g p)
  /\ invalidMarkPos g' = invalidMarkPos g
  /\ invalidMarkTime g' = invalidMarkTime g
  /\ draggingObject g' = None.
Proof.
  intros Hev Hbook Hdrag Htrash g'.
  assert (Hg' : g' = set_draggingObject
                       (set_heap (set_objects g (eraseAll [d] (objects g)))
                          (upd (heap g) d (withDragging (heap g d) false)))
                       None).
  { unfold g', handleEvent. rewrite Hev. cbv zeta.
    unfold book_handleInput. simpl. rewrite Hbook.
    unfold releaseDragged. simpl. rewrite Hdrag, Htrash.
    destruct g; simpl in *; subst; reflexivity. }
  rewrite Hg'. simpl.
  split; [apply eraseAll_single|].
  split.
  - intros l1 l2 Hobj H1 H2.
    rewrite eraseAll_single, Hobj, filter_app. simpl.
    rewrite Nat.eqb_refl. simpl. now rewrite !filter_absent.
  - repeat split. intros p Hp. now apply upd_other.
Qed.

End HandlerProperties.

(** ** Examples and concrete runs *)

(** C6, evaluated on the run [pressTwice]: after a press on the Fire
    object, a move, and a second press on the Water object with no release
    in between, two instances of the registry have [isDragging] set. *)
Theorem two_presses_leave_two_draggers :
  draggers (handleEvents (sfml := boxes) initialGame pressTwice)
  = [1%nat; 2%nat]
  /\ draggingObject (handleEvents (sfml := boxes) initialGame pressTwice)
     = Some 2%nat.
Proof. vm_compute. split; reflexivity. Qed.

(** A release never lengthens the registry, so a combination cannot
    take it over [maxObjects]. *)
Lemma combination_cannot_overshoot :
  ~ exists (sfml : Geometry) (g : Game) (d : nat) (time : float),
      (length (objects g) <= maxObjects)%nat
      /\ (maxObjects < length (objects (checkCollisions g d time)))%nat.
Proof.
  intros (sfml & g & d & time & Hle & Hgt).
  pose proof (checkCollisions_length_le g d time). lia.
Qed.

(** In the initial state Fire is discovered and its counter is zero. *)
Lemma initial_primitives_uncounted :
  ~ forall (ops : list Step) (e : Element),
      In e (elements (steps (sfml := boxes) initialGame ops)) ->
      discovered e = true ->
      (1 <= creationCount e)%Z.
Proof.
  intros H.
  specialize (H [] (newElement "Fire" "A blazing flame" true)
                (or_introl eq_refl) eq_refl).
  simpl in H. lia.
Qed.

Example initial_Fire :
  nth_error (elements initialGame) 0
  = Some (mkElement "Fire" "A blazing flame" true 0).
Proof. reflexivity. Qed.

Example fire_and_water_make_steam :
  let g := handleEvents (sfml := boxes) fireOverWater [lift 410 310 6] in
  objects g = [3%nat]
  /\ elementName (elements g) (element (heap g 3%nat)) = "Steam"
  /\ nth_error (elements g) 4
     = Some (mkElement "Steam" "Hot water vapor" true 1).
Proof. vm_compute. repeat split; reflexivity. Qed.

Example trash_removes_fire :
  objects (handleEvents (sfml := boxes) fireOverTrash [lift 50 570 5]) = [].
Proof. vm_compute. reflexivity. Qed.

(** ** The theorems at concrete inputs *)


(** In that release Fire is at (388, 281) and Water at (400, 300): the
    Steam object is placed at (394, 290.5). *)
Example steam_appears_halfway :
  let g := steps (sfml := boxes) initialGame nudgeFire in
  let g' := checkCollisions (sfml := boxes) g 1 7 in
  position (sprite (heap g 1%nat)) = vec 388 281
  /\ position (sprite (heap g 2%nat)) = vec 400 300
  /\ objects g' = [3%nat]
  /\ position (sprite (heap g' 3%nat)) = vec 394 (581 # 2)
  /\ creationTime (heap g' 3%nat) = 7.
Proof. vm_compute. repeat split; reflexivity. Qed.

(** A press on the Fire button while the registry is full. *)
Lemma spawn_gate_and_combination_size_witness :
  (event (press 710 15 1)
   = MouseButtonPressed Left (vec (inject_Z 710) (inject_Z 15))
   /\ (maxObjects <= length (objects full))%nat)
  /\ objects (handleEvent (sfml := boxes) full (press 710 15 1)) = objects full
  /\ elements (handleEvent (sfml := boxes) full (press 710 15 1))
     = elements full.
Proof.
  assert (H1 : event (press 710 15 1)
               = MouseButtonPressed Left (vec (inject_Z 710) (inject_Z 15)))
    by reflexivity.
  assert (H2 : (maxObjects <= length (objects full))%nat)
    by (vm_compute; apply le_n).
  split; [exact (conj H1 H2)|].
  exact (proj1 (spawn_gate_and_combination_size (sfml := boxes))
           full (press 710 15 1) Left _ H1 H2).
Defined.

(** Steam (object 3), carried to (388, 281), is released over Fire
    (object 4) at (400, 300): no result. *)
Lemma release_rejects_invalid_witness :
  let g := steamNudged in
  let xd := vx (position (sprite (heap g 3%nat))) in
  let yd := vy (position (sprite (heap g 3%nat))) in
  let xo := vx (position (sprite (heap g 4%nat))) in
  let yo := vy (position (sprite (heap g 4%nat))) in
  (objects g = ([3%nat] ++ 4%nat :: [])%list
   /\ Forall (fun p => combinable (sfml := boxes) g 3 p = false) [3%nat]
   /\ skipped g 3 4 = false
   /\ overlaps (sfml := boxes) g 3 4 = true
   /\ pairResult g 3 4 = ""
   /\ finite32 (xd + xo) = true
   /\ finite32 (yd + yo) = true
   /\ finite32 (11 + 1) = true)
  /\ let g0 := fst (scanObjects (sfml := boxes) g 3 11 [3%nat]) in
     let g1 := recordInvalid g0 3 4 11 in
     let g' := checkCollisions (sfml := boxes) g 3 11 in
     invalidMarkPos g1
     = vec (fl32 (fl32 (xd + xo) / 2)) (fl32 (fl32 (yd + yo) / 2))
     /\ (fl32 (xd + xo) == xd + xo ->
         fl32 ((xd + xo) / 2) == (xd + xo) / 2 ->
         vx (invalidMarkPos g1) == (xd + xo) / 2)
     /\ (fl32 (yd + yo) == yd + yo ->
         fl32 ((yd + yo) / 2) == (yd + yo) / 2 ->
         vy (invalidMarkPos g1) == (yd + yo) / 2)
     /\ invalidMarkTime g1 = fl32 (11 + 1)
     /\ (~ 11 + 1 == 0 ->
         Qabs (invalidMarkTime g1 - (11 + 1)) <= ulp32 (Qabs (11 + 1)) / 2)
     /\ color (sprite (heap g1 4%nat)) = SemiTransparent
     /\ elements g1 = elements g
     /\ objects g1 = objects g
     /\ scanObjects (sfml := boxes) g 3 11 (objects g)
        = scanObjects (sfml := boxes) g1 3 11 []
     /\ color (sprite (heap g' 4%nat)) = SemiTransparent
     /\ (forall t, In 4%nat (objects (update g' t)) ->
                   color (sprite (heap (update g' t) 4%nat)) = White)
     /\ (Forall (fun p => combinable (sfml := boxes) g 3 p = false) [] ->
         elements g' = elements g /\ objects g' = objects g)
     /\ (Forall (fun p => combinable (sfml := boxes) g 3 p = false
                          /\ rejected (sfml := boxes) g 3 p = false) [] ->
         invalidMarkPos g'
         = vec (fl32 (fl32 (xd + xo) / 2)) (fl32 (fl32 (yd + yo) / 2))
         /\ invalidMarkTime g' = fl32 (11 + 1)).
Proof.
  intros g xd yd xo yo.
  assert (H1 : objects g = ([3%nat] ++ 4%nat :: [])%list)
    by (vm_compute; reflexivity).
  assert (H2 : Forall (fun p => combinable (sfml := boxes) g 3 p = false)
                 [3%nat])
    by (apply Forall_cons; [vm_compute; reflexivity|apply Forall_nil]).
  assert (H3 : skipped g 3 4 = false) by (vm_compute; reflexivity).
  assert (H4 : overlaps (sfml := boxes) g 3 4 = true)
    by (vm_compute; reflexivity).
  assert (H5 : pairResult g 3 4 = "") by (vm_compute; reflexivity).
  assert (H6 : finite32 (xd + xo) = true) by (vm_compute; reflexivity).
  assert (H7 : finite32 (yd + yo) = true) by (vm_compute; reflexivity).
  assert (H8 : finite32 (11 + 1) = true) by (vm_compute; reflexivity).
  split; [exact (conj H1 (conj H2 (conj H3 (conj H4 (conj H5
                   (conj H6 (conj H7 H8)))))))|].
  exact (release_rejects_invalid (sfml := boxes) g 3 11
           [3%nat] 4 [] H1 H2 H3 H4 H5 H6 H7 H8).
Defined.

(** In that release Steam is at (388, 281) and Fire at (400, 300): the
    mark is left at (394, 290.5) and expires at 12. *)
Example mark_is_left_halfway :
  let g' := checkCollisions (sfml := boxes) steamNudged 3 11 in
  position (sprite (heap steamNudged 3%nat)) = vec 388 281
  /\ position (sprite (heap steamNudged 4%nat)) = vec 400 300
  /\ invalidMarkPos g' = vec 394 (581 # 2)
  /\ invalidMarkTime g' = 12
  /\ objects g' = [3%nat; 4%nat].
Proof. vm_compute. repeat split; reflexivity. Qed.

(** A release at [2^24] seconds: the binary32 sum of the time and [1] is
    the time itself, so the mark has expired when it is set. *)
Example mark_expires_at_once_after_2_24_seconds :
  let g' := checkCollisions (sfml := boxes) steamNudged 3 16777216 in
  invalidMarkPos g' = vec 394 (581 # 2)
  /\ invalidMarkTime g' = 16777216.
Proof. vm_compute. repeat split; reflexivity. Qed.

(** After Fire and Water have combined, in six events, Steam is
    discovered and has been created once. *)
Lemma discovered_derived_is_counted_witness :
  let ops := map ProcessEvent
               [press 710 15 1; lift 710 15 2; press 710 45 3; lift 710 45 4;
                press 410 310 5; lift 410 310 6] in
  let e := mkElement "Steam" "Hot water vapor" true 1 in
  ((Z.of_nat (length ops) < 2 ^ 31)%Z
   /\ In e (elements (steps (sfml := boxes) initialGame ops))
   /\ discovered e = true
   /\ ~ In (name e) primitives)
  /\ (1 <= creationCount e <= Z.of_nat (length ops))%Z.
Proof.
  intros ops e.
  assert (H0 : (Z.of_nat (length ops) < 2 ^ 31)%Z) by (vm_compute; reflexivity).
  assert (H1 : In e (elements (steps (sfml := boxes) initialGame ops)))
    by (vm_compute; do 4 right; left; reflexivity).
  assert (H2 : discovered e = true) by reflexivity.
  assert (H3 : ~ In (name e) primitives)
    by (simpl; intros [H|[H|[H|[H|[]]]]]; discriminate H).
  split; [exact (conj H0 (conj H1 (conj H2 H3)))|].
  exact (discovered_derived_is_counted (sfml := boxes) ops e H0 H1 H2 H3).
Defined.

(** Fire stays discovered along a run. *)
Lemma discovery_is_monotone_witness :
  let ops := [ProcessEvent (press 710 15 1); Tick 1;
              ProcessEvent (lift 710 15 2)] in
  let e := mkElement "Fire" "A blazing flame" true 0 in
  (nth_error (elements initialGame) 0 = Some e /\ discovered e = true)
  /\ exists e',
       nth_error (elements (steps (sfml := boxes) initialGame ops)) 0 = Some e'
       /\ name e' = name e
       /\ discovered e' = true.
Proof.
  intros ops e.
  assert (H1 : nth_error (elements initialGame) 0 = Some e) by reflexivity.
  assert (H2 : discovered e = true) by reflexivity.
  split; [exact (conj H1 H2)|].
  exact (discovery_is_monotone (sfml := boxes) initialGame ops 0 e H1 H2).
Defined.

(** The Fire object (object 1) is released over the trash bin. *)
Lemma release_over_trash_witness :
  let g := fireOverTrash in
  let inp := lift 50 570 5 in
  (event inp = MouseButtonReleased Left (vec (inject_Z 50) (inject_Z 570))
   /\ bookOpen g = false
   /\ draggingObject g = Some 1%nat
   /\ intersects (Geometry := boxes)
        (getGlobalBounds (sfml := boxes) (sprite (heap g 1%nat)))
        (trashBounds (Geometry := boxes)) = true)
  /\ let g' := handleEvent (sfml := boxes) g inp in
     objects g' = filter (fun p => negb (Nat.eqb p 1)) (objects g)
     /\ (forall l1 l2 : list nat,
           objects g = (l1 ++ 1%nat :: l2)%list ->
           ~ In 1%nat l1 -> ~ In 1%nat l2 ->
           objects g' = (l1 ++ l2)%list)
     /\ elements g' = elements g
     /\ (forall p, p <> 1%nat -> heap g' p = heap g p)
     /\ invalidMarkPos g' = invalidMarkPos g
     /\ invalidMarkTime g' = invalidMarkTime g
     /\ draggingObject g' = None.
Proof.
  intros g inp.
  assert (H1 : event inp
               = MouseButtonReleased Left (vec (inject_Z 50) (inject_Z 570)))
    by reflexivity.
  assert (H2 : bookOpen g = false) by (vm_compute; reflexivity).
  assert (H3 : draggingObject g = Some 1%nat) by (vm_compute; reflexivity).
  assert (H4 : intersects (Geometry := boxes)
                 (getGlobalBounds (sfml := boxes) (sprite (heap g 1%nat)))
                 (trashBounds (Geometry := boxes)) = true)
    by (vm_compute; reflexivity).
  split; [exact (conj H1 (conj H2 (conj H3 H4)))|].
  exact (release_over_trash (sfml := boxes) g inp _ 1 H1 H2 H3 H4).
Defined.

(** The scan of Fire over Water finds Water with result Steam. *)
Lemma result_element_is_found_witness :
  let ops := map ProcessEvent
               [press 710 15 1; lift 710 15 2; press 710 45 3; lift 710 45 4;
                press 410 310 5] in
  let g := steps (sfml := boxes) initialGame ops in
  (getResult "Fire" "Water" <> ""
   /\ snd (scanObjects (sfml := boxes) g 1 6 (objects g))
      = Some (2%nat, "Steam"))
  /\ (In (getResult "Fire" "Water") catalogNames
      /\ exists j e,
           findElement (getResult "Fire" "Water") (elements g) 0 = Some (j, e)
           /\ nth_error (elements g) j = Some e
           /\ name e = getResult "Fire" "Water"
           /\ (forall k e', nth_error (elements g) k = Some e' ->
                            name e' = getResult "Fire" "Water" -> k = j))
  /\ let g' := checkCollisions (sfml := boxes) g 1 6 in
     let p := freshAddr (1%nat :: live g) in
     exists j e,
       findElement "Steam" (elements g) 0 = Some (j, e)
       /\ nth_error (elements g) j = Some e
       /\ name e = "Steam"
       /\ (forall k e', nth_error (elements g) k = Some e' ->
                        name e' = "Steam" -> k = j)
       /\ objects g' = (eraseAll [1%nat; 2%nat] (objects g) ++ [p])%list
       /\ ~ In p (objects g)
       /\ element (heap g' p) = j
       /\ texture (sprite (heap g' p)) = "Steam"
       /\ spritePath (heap g' p) = "assets/" ++ "Steam" ++ ".png"
       /\ (exists e', nth_error (elements g') (element (heap g' p)) = Some e'
                      /\ name e' = "Steam"
                      /\ description e' = description e
                      /\ discovered e' = true).
Proof.
  intros ops g.
  assert (H1 : getResult "Fire" "Water" <> "") by discriminate.
  assert (H2 : snd (scanObjects (sfml := boxes) g 1 6 (objects g))
               = Some (2%nat, "Steam")) by (vm_compute; reflexivity).
  split; [exact (conj H1 H2)|].
  split.
  - exact (proj1 (result_element_is_found (sfml := boxes) ops)
             "Fire" "Water" H1).
  - apply (proj2 (result_element_is_found (sfml := boxes) ops) 1%nat 6
             (fst (scanObjects (sfml := boxes) g 1 6 (objects g)))).
    fold g. rewrite <- H2. apply surjective_pairing.
Defined.

(** In that state the search for Steam returns index 4 of the catalog,
    and the new object is an instance of that element. *)
Example steam_is_the_fifth_element :
  let g := steps (sfml := boxes) initialGame pickFire in
  let g' := checkCollisions (sfml := boxes) g 1 6 in
  findElement "Steam" (elements g) 0
  = Some (4%nat, mkElement "Steam" "Hot water vapor" false 0)
  /\ nth_error (elements g) 4
     = Some (mkElement "Steam" "Hot water vapor" false 0)
  /\ objects g' = [3%nat]
  /\ element (heap g' 3%nat) = 4%nat
  /\ nth_error (elements g') 4
     = Some (mkElement "Steam" "Hot water vapor" true 1).
Proof. vm_compute. repeat split; reflexivity. Qed.

(** * Further properties *)

(** ** The table of the registry *)

Lemma combinations_checked :
  Forall (fun kv =>
            negb (String.eqb (snd kv) "")
            && existsb (String.eqb (fst (fst kv))) catalogNames
            && existsb (String.eqb (snd (fst kv))) catalogNames
            && negb (existsb (String.eqb (snd kv)) primitives) = true)
         combinations.
Proof. vm_compute. repeat constructor. Qed.

Lemma existsb_eqb_In (n : string) (l : list string) :
  existsb (String.eqb n) l = true <-> In n l.
Proof.
  rewrite existsb_exists. split.
  - intros (x & Hin & Hx). apply String.eqb_eq in Hx. now subst.
  - intros Hin. exists n. split; [assumption|apply String.eqb_refl].
Qed.

Lemma map_find_checked (a b r : string) :
  map_find (a, b) combinations = Some r ->
  r <> "" /\ In a catalogNames /\ In b catalogNames /\ ~ In r primitives.
Proof.
  intros H. apply map_find_In in H.
  pose proof (proj1 (Forall_forall _ _) combinations_checked _ H) as Hc.
  cbn [fst snd] in Hc.
  apply andb_true_iff in Hc. destruct Hc as [Hc H4].
  apply andb_true_iff in Hc. destruct Hc as [Hc H3].
  apply andb_true_iff in Hc. destruct Hc as [H1 H2].
  apply negb_true_iff in H1, H4. apply String.eqb_neq in H1.
  repeat split; try assumption.
  - now apply existsb_eqb_In.
  - now apply existsb_eqb_In.
  - intros Hin. apply existsb_eqb_In in Hin. congruence.
Qed.

(** X1. The two lookups of the registry agree: a pair is a valid
    combination exactly when its result is not the empty string (no rule
    has an empty result). *)
Theorem valid_iff_result_nonempty (a b : string) :
  isValidCombination a b = true <-> getResult a b <> "".
Proof.
  unfold isValidCombination, getResult.
  destruct (map_find (a, b) combinations) as [r|] eqn:E.
  - split; [|reflexivity]. intros _. now apply (map_find_checked a b r).
  - split; [discriminate|congruence].
Qed.

(** X2. Whenever a pair has a result, both operands are names of the
    catalog and the result is not one of the four primitive elements. *)
Theorem result_operands_and_kind (a b : string) :
  getResult a b <> "" ->
  In a catalogNames /\ In b catalogNames /\ ~ In (getResult a b) primitives.
Proof.
  unfold getResult.
  destruct (map_find (a, b) combinations) as [r|] eqn:E; [|congruence].
  intros _. destruct (map_find_checked a b r E) as (_ & Ha & Hb & Hr). auto.
Qed.

Lemma result_operands_and_kind_witness :
  getResult "Mud" "Energy" <> ""
  /\ (In "Mud" catalogNames /\ In "Energy" catalogNames
      /\ ~ In (getResult "Mud" "Energy") primitives).
Proof.
  assert (H : getResult "Mud" "Energy" <> "") by discriminate.
  split; [exact H|].
  exact (result_operands_and_kind "Mud" "Energy" H).
Defined.

Lemma primitives_in_catalog (n : string) :
  In n primitives -> In n catalogNames.
Proof.
  intros H. apply existsb_eqb_In.
  simpl in H. destruct H as [<-|[<-|[<-|[<-|[]]]]]; reflexivity.
Qed.

(** X3. The names obtainable from the four primitive elements by
    registered combinations are exactly the names of the catalog: every
    element can be made, and nothing else can. *)
Theorem obtainable_iff_in_catalog (n : string) :
  Obtainable n <-> In n catalogNames.
Proof.
  split.
  - induction 1 as [n Hn|a b _ _ _ _ Hr].
    + now apply primitives_in_catalog.
    + now apply getResult_in_catalog.
  - assert (Fire : Obtainable "Fire")
      by (apply obtain_primitive; simpl; tauto).
    assert (Water : Obtainable "Water")
      by (apply obtain_primitive; simpl; tauto).
    assert (Earth : Obtainable "Earth")
      by (apply obtain_primitive; simpl; tauto).
    assert (Air : Obtainable "Air")
      by (apply obtain_primitive; simpl; tauto).
    assert (Hc : forall a b, Obtainable a -> Obtainable b ->
                   String.eqb (getResult a b) "" = false ->
                   Obtainable (getResult a b)).
    { intros a b Ha Hb He. apply obtain_combined; auto.
      now apply String.eqb_neq. }
    pose proof (Hc "Fire" "Water" Fire Water eq_refl) as Steam.
    pose proof (Hc "Fire" "Earth" Fire Earth eq_refl) as Lava.
    pose proof (Hc "Fire" "Air" Fire Air eq_refl) as Smoke.
    pose proof (Hc "Water" "Earth" Water Earth eq_refl) as Mud.
    pose proof (Hc "Water" "Air" Water Air eq_refl) as Mist.
    pose proof (Hc "Earth" "Air" Earth Air eq_refl) as Dust.
    pose proof (Hc "Fire" "Fire" Fire Fire eq_refl) as Energy.
    pose proof (Hc "Water" "Water" Water Water eq_refl) as Ocean.
    pose proof (Hc "Earth" "Earth" Earth Earth eq_refl) as Mountain.
    pose proof (Hc "Air" "Air" Air Air eq_refl) as Wind.
    change (getResult "Fire" "Water") with "Steam" in Steam.
    change (getResult "Fire" "Earth") with "Lava" in Lava.
    change (getResult "Fire" "Air") with "Smoke" in Smoke.
    change (getResult "Water" "Earth") with "Mud" in Mud.
    change (getResult "Water" "Air") with "Mist" in Mist.
    change (getResult "Earth" "Air") with "Dust" in Dust.
    change (getResult "Fire" "Fire") with "Energy" in Energy.
    change (getResult "Water" "Water") with "Ocean" in Ocean.
    change (getResult "Earth" "Earth") with "Mountain" in Mountain.
    change (getResult "Air" "Air") with "Wind" in Wind.
    pose proof (Hc "Steam" "Air" Steam Air eq_refl) as Cloud.
    change (getResult "Steam" "Air") with "Cloud" in Cloud.
    pose proof (Hc "Cloud" "Water" Cloud Water eq_refl) as Rain.
    pose proof (Hc "Mud" "Energy" Mud Energy eq_refl) as Plant.
    change (getResult "Mud" "Energy") with "Plant" in Plant.
    pose proof (Hc "Lava" "Air" Lava Air eq_refl) as Stone.
    change (getResult "Lava" "Air") with "Stone" in Stone.
    pose proof (Hc "Lava" "Mountain" Lava Mountain eq_refl) as Volcano.
    pose proof (Hc "Energy" "Air" Energy Air eq_refl) as Lightning.
    pose proof (Hc "Water" "Wind" Water Wind eq_refl) as Ice.
    pose proof (Hc "Stone" "Wind" Stone Wind eq_refl) as Sand.
    change (getResult "Stone" "Wind") with "Sand" in Sand.
    pose proof (Hc "Mud" "Plant" Mud Plant eq_refl) as Swamp.
    pose proof (Hc "Plant" "Plant" Plant Plant eq_refl) as Forest.
    pose proof (Hc "Sand" "Sand" Sand Sand eq_refl) as Desert.
    pose proof (Hc "Energy" "Plant" Energy Plant eq_refl) as Life.
    intros Hin. unfold catalogNames, initialElements in Hin.
    cbn [map name newElement In] in Hin.
    repeat (destruct Hin as [<-|Hin]; [assumption|]).
    destruct Hin.
Qed.

(** ** What every state of a run satisfies *)

Lemma fmax_ge_left (a b : float) : a <= fmax a b.
Proof.
  unfold fmax. destruct (fltb a b) eqn:E.
  - apply fltb_lt in E. now apply Qlt_le_weak.
  - apply Qle_refl.
Qed.

Lemma fmax_le (a b c : float) : a <= c -> b <= c -> fmax a b <= c.
Proof. unfold fmax. now destruct (fltb a b). Qed.

Lemma fmin_le_right (a b : float) : fmin a b <= b.
Proof.
  unfold fmin. destruct (fltb b a) eqn:E.
  - apply Qle_refl.
  - now apply fltb_ge in E.
Qed.

Lemma evict_within (A : Type) (comp : A -> A -> bool) (cap : nat) (l : list A) :
  (length l <= cap)%nat -> evict comp cap l = l.
Proof.
  intros H. unfold evict. destruct l as [|a l]; [reflexivity|].
  cbn [length evict_loop].
  destruct (Nat.ltb_spec cap (S (length l))); [simpl in H; lia|reflexivity].
Qed.

Lemma resetColors_uncolored (l : list nat) (h : Heap) (p : nat) :
  uncolored (resetColors l h p) = uncolored (h p).
Proof.
  revert h; induction l as [|a l IH]; intros h; simpl; [reflexivity|].
  rewrite IH. unfold upd. destruct (Nat.eqb_spec p a) as [->|]; reflexivity.
Qed.

Lemma findElement_nth (r : string) (els : list Element) (i k : nat)
    (e : Element) :
  findElement r els i = Some (k, e) ->
  exists j, k = (i + j)%nat /\ nth_error els j = Some e /\ name e = r.
Proof.
  revert i; induction els as [|x els IH]; intros i H; simpl in H;
    [discriminate|].
  destruct (String.eqb_spec (name x) r) as [Heq|Hne].
  - inversion H; subst. exists 0%nat. rewrite Nat.add_0_r. auto.
  - destruct (IH _ H) as (j & -> & Hn & He).
    exists (S j). repeat split; auto; lia.
Qed.

Lemma updateAt_Forall_at (P : Element -> Prop) (f : Element -> Element)
    (els : list Element) (i : nat) :
  Forall P els ->
  (forall e, nth_error els i = Some e -> P (f e)) ->
  Forall P (updateAt i f els).
Proof.
  revert i; induction els as [|x els IH]; intros [|i] H Hf; simpl;
    inversion H; subst; constructor; auto.
Qed.

Lemma updateAt_keeps_discovered (f : Element -> Element) (els : list Element)
    (j k : nat) (e : Element) :
  (forall x, discovered x = true -> discovered (f x) = true) ->
  nth_error els k = Some e -> discovered e = true ->
  exists e', nth_error (updateAt j f els) k = Some e' /\ discovered e' = true.
Proof.
  intros Hf Hn Hd. destruct (Nat.eq_dec k j) as [->|Hne].
  - exists (f e). rewrite (nth_error_updateAt_same _ _ _ _ Hn). auto.
  - exists e. rewrite nth_error_updateAt_other by assumption. auto.
Qed.

Section RunInvariants.

Context {sfml : Geometry}.

(** The state in which the engine handles an event differs from the
    state the event arrived in by the window flag, the book flag and the
    scroll of the sidebar only. *)
Lemma handleEvent_cases (g : Game) (inp : Input) :
  exists g3,
    objects g3 = objects g /\ heap g3 = heap g
    /\ draggingObject g3 = draggingObject g
    /\ elements g3 = elements g
    /\ invalidMarkPos g3 = invalidMarkPos g
    /\ invalidMarkTime g3 = invalidMarkTime g
    /\ (sidebarScroll g3 = sidebarScroll g
        \/ exists x, sidebarScroll g3 = fmax 0 x)
    /\ (handleEvent g inp = g3
        \/ (exists mp, event inp = MouseButtonPressed Left mp
                       /\ bookOpen g3 = false
                       /\ handleEvent g inp
                          = startDragging
                              (sidebarSpawn g3 mp (windowSizeY inp) (now inp))
                              mp)
        \/ (exists mp, event inp = MouseButtonReleased Left mp
                       /\ bookOpen g3 = false
                       /\ handleEvent g inp = releaseDragged g3 (now inp))
        \/ (exists mp, event inp = MouseMoved mp
                       /\ bookOpen g3 = false
                       /\ handleEvent g inp = moveDragged g3 mp)).
Proof.
  unfold handleEvent.
  destruct (event inp) as [|delta mp|b mp|b mp|mp|]; cbv zeta;
    match goal with
    | |- context [if bookOpen ?g3 then _ else _] => exists g3
    end;
    (split; [|split; [|split; [|split; [|split; [|split; [|split]]]]]]);
    try (unfold scrollSidebar;
         destruct (fltb _ _ && negb (bookOpen g)); reflexivity);
    try reflexivity;
    try (now left).
  - match goal with
    | |- context [if ?c then _ else _] => destruct c eqn:E
    end; now left.
  - unfold scrollSidebar.
    destruct (fltb _ _ && negb (bookOpen g)); simpl;
      [right; eexists; reflexivity|now left].
  - match goal with
    | |- context [if ?c then _ else _] => destruct c eqn:E
    end; now left.
  - match goal with
    | |- context [if ?c then _ else _] => destruct c eqn:E
    end; [now left|].
    destruct b; try (now left). right; left. now exists mp.
  - match goal with
    | |- context [if ?c then _ else _] => destruct c eqn:E
    end; [now left|].
    destruct b; try (now left). right; right; left. now exists mp.
  - match goal with
    | |- context [if ?c then _ else _] => destruct c eqn:E
    end; [now left|].
    right; right; right. now exists mp.
  - match goal with
    | |- context [if ?c then _ else _] => destruct c eqn:E
    end; now left.
Qed.

(** What a release leaves, in every case. *)
Lemma checkCollisions_cases (g : Game) (d : nat) (time : float) :
  draggingObject (checkCollisions g d time) = draggingObject g
  /\ sidebarScroll (checkCollisions g d time) = sidebarScroll g
  /\ ((elements (checkCollisions g d time) = elements g
       /\ (objects (checkCollisions g d time) = objects g
           \/ exists o, objects (checkCollisions g d time)
                        = eraseAll [d; o] (objects g))
       /\ forall q, uncolored (heap (checkCollisions g d time) q)
                    = uncolored (heap g q))
      \/ exists o j e,
           In o (objects g)
           /\ nth_error (elements g) j = Some e
           /\ elements (checkCollisions g d time)
              = updateAt j (fun e => incrementCreated (markDiscovered e))
                  (elements g)
           /\ objects (checkCollisions g d time)
              = (eraseAll [d; o] (objects g) ++ [freshAddr (d :: live g)])%list
           /\ element (heap (checkCollisions g d time)
                            (freshAddr (d :: live g))) = j
           /\ isDragging (heap (checkCollisions g d time)
                               (freshAddr (d :: live g))) = false
           /\ forall q, q <> freshAddr (d :: live g) ->
                        uncolored (heap (checkCollisions g d time) q)
                        = uncolored (heap g q)).
Proof.
  pose proof (scanObjects_feedback g d time (objects g)) as Hsim.
  destruct (scanObjects g d time (objects g)) as [g2 [[o r]|]] eqn:Hscan.
  - simpl in Hsim.
    destruct (scanObjects_some _ _ _ _ _ _ _ Hscan) as (Hin & _).
    destruct (findElement r (elements g) 0) as [[j e]|] eqn:Hfind.
    + destruct (checkCollisions_hit g g2 d o time r j e Hscan Hfind Hin)
        as (Hels & Hobjs & Hnew & Hrest & Hdrag).
      split; [exact Hdrag|]. split.
      * unfold checkCollisions, spawnResult. rewrite Hscan.
        destruct Hsim as (_ & He & _ & _ & _ & Hs & _).
        rewrite He, Hfind. simpl. exact Hs.
      * right. exists o, j, e.
        destruct (findElement_nth _ _ _ _ _ Hfind) as (j' & Hj & Hn & _).
        simpl in Hj. subst j'.
        repeat split; try assumption; now rewrite Hnew.
    + destruct Hsim as (_ & He & Ho & _ & Hd & Hs & Hh).
      unfold checkCollisions, spawnResult. rewrite Hscan, He, Hfind. simpl.
      split; [exact Hd|]. split; [exact Hs|]. left.
      split; [exact He|]. split; [|exact Hh].
      right. exists o. now rewrite Ho.
  - simpl in Hsim. destruct Hsim as (_ & He & Ho & _ & Hd & Hs & Hh).
    unfold checkCollisions. rewrite Hscan.
    split; [exact Hd|]. split; [exact Hs|]. left.
    split; [exact He|]. split; [now left|exact Hh].
Qed.

Lemma sidebarLoop_spec (g : Game) (mousePos : Vector2f) (wy : Z)
    (els : list Element) (i k : nat) (di : Z) :
  sidebarLoop g mousePos wy els i di = Some k ->
  exists j e, k = (i + j)%nat /\ nth_error els j = Some e
              /\ discovered e = true.
Proof.
  revert i di; induction els as [|x els IH]; intros i di H; simpl in H;
    [discriminate|].
  destruct (discovered x) eqn:Hd; simpl in H.
  - match type of H with
    | (if ?c then _ else _) = _ => destruct c
    end.
    + inversion H; subst. exists 0%nat, x. rewrite Nat.add_0_r. auto.
    + destruct (IH _ _ H) as (j & e & -> & Hn & He).
      exists (S j), e. repeat split; auto; lia.
  - destruct (IH _ _ H) as (j & e & -> & Hn & He).
    exists (S j), e. repeat split; auto; lia.
Qed.

Lemma objectAt_In (h : Heap) (mp : Vector2f) (l : list nat) (p : nat) :
  objectAt h mp l = Some p ->
  In p l /\ contains (getGlobalBounds (sprite (h p))) mp = true.
Proof.
  induction l as [|x l IH]; simpl; [discriminate|].
  destruct (contains (getGlobalBounds (sprite (h x))) mp) eqn:E.
  - intros H; inversion H; subst. auto.
  - intros H. destruct (IH H). auto.
Qed.

Lemma live_fresh (g : Game) (q : nat) :
  In q (live g) -> q <> freshAddr (live g).
Proof. intros H. pose proof (freshAddr_gt _ _ H). lia. Qed.

Lemma wellFormed_spawnElement (g : Game) (i : nat) (e : Element)
    (time : float) :
  wellFormed g ->
  (length (objects g) < maxObjects)%nat ->
  nth_error (elements g) i = Some e -> discovered e = true ->
  wellFormed (spawnElement g i time).
Proof.
  intros (Hcap & Hnd & Hdrag & Hdisc & Hcnt & Hscr) Hlt Hn Hd.
  assert (Hobj : forall q, In q (objects g) -> q <> freshAddr (live g)).
  { intros q Hq. apply live_fresh. unfold live. apply in_or_app. now left. }
  unfold wellFormed, spawnElement; simpl.
  split; [rewrite length_app; simpl; lia|].
  split.
  { apply NoDup_app; [assumption|repeat constructor; auto|].
    intros a Ha [Hb|[]]. apply (Hobj a Ha). now symmetry. }
  split.
  { intros d Hdr. destruct (Hdrag d Hdr) as [Hin Hflag].
    split; [apply in_or_app; now left|].
    rewrite upd_other; [assumption|]. now apply Hobj. }
  split.
  { intros p Hp. apply in_app_or in Hp. destruct Hp as [Hp|[<-|[]]].
    - rewrite upd_other by now apply Hobj.
      destruct (Hdisc p Hp) as (e0 & Hn0 & Hd0).
      apply (updateAt_keeps_discovered _ _ _ _ e0); auto.
    - rewrite upd_same. simpl. exists (incrementCreated e).
      rewrite (nth_error_updateAt_same _ _ _ _ Hn). auto. }
  split; [|assumption].
  apply updateAt_Forall_at; [assumption|].
  intros e0 He0. rewrite Hn in He0. inversion He0; subst e0.
  cbn [incrementCreated creationCount discovered].
  split; [apply toInt_isInt|intros _; exact Hd].
Qed.

Lemma wellFormed_sidebarSpawn (g : Game) (mp : Vector2f) (wy : Z)
    (time : float) :
  wellFormed g -> wellFormed (sidebarSpawn g mp wy time).
Proof.
  intros H. unfold sidebarSpawn.
  destruct (sidebarLoop g mp wy (elements g) 0 0) as [i|] eqn:Hloop;
    [|exact H].
  destruct (sidebarLoop_spec _ _ _ _ _ _ _ Hloop) as (j & e & -> & Hn & Hd).
  apply sidebarLoop_some in Hloop.
  now apply (wellFormed_spawnElement g _ e).
Qed.

Lemma wellFormed_startDragging (g : Game) (mp : Vector2f) :
  wellFormed g -> wellFormed (startDragging g mp).
Proof.
  intros H. unfold startDragging.
  destruct (objectAt (heap g) mp (objects g)) as [p|] eqn:Hat; [|exact H].
  destruct (objectAt_In _ _ _ _ Hat) as [Hp _].
  destruct H as (Hcap & Hnd & Hdrag & Hdisc & Hcnt & Hscr).
  unfold wellFormed; simpl.
  split; [assumption|]. split; [assumption|].
  split.
  { intros d Hd. inversion Hd; subst d. rewrite upd_same. auto. }
  split; [|split; assumption].
  intros q Hq. unfold upd.
  destruct (Nat.eqb_spec q p) as [->|]; simpl; now apply Hdisc.
Qed.

Lemma wellFormed_moveDragged (g : Game) (mp : Vector2f) :
  wellFormed g -> wellFormed (moveDragged g mp).
Proof.
  intros H. unfold moveDragged.
  destruct (draggingObject g) as [d|] eqn:Hd; [|exact H].
  destruct H as (Hcap & Hnd & Hdrag & Hdisc & Hcnt & Hscr).
  unfold wellFormed; simpl.
  split; [assumption|]. split; [assumption|].
  split.
  { intros d' Hd'. rewrite Hd in Hd'. inversion Hd'; subst d'.
    rewrite upd_same. simpl. now apply Hdrag. }
  split; [|split; assumption].
  intros q Hq. unfold upd.
  destruct (Nat.eqb_spec q d) as [->|]; simpl; now apply Hdisc.
Qed.

Lemma wellFormed_releaseDragged (g : Game) (time : float) :
  wellFormed g -> wellFormed (releaseDragged g time).
Proof.
  intros H. unfold releaseDragged.
  destruct (draggingObject g) as [d|] eqn:Hd; [|exact H].
  destruct H as (Hcap & Hnd & Hdrag & Hdisc & Hcnt & Hscr).
  assert (Hkeep : forall (h : Heap) q,
            element (upd h d (withDragging (h d) false) q) = element (h q)).
  { intros h q. unfold upd. destruct (Nat.eqb_spec q d) as [->|]; reflexivity. }
  destruct (intersects _ trashBounds).
  - unfold wellFormed; simpl.
    split; [pose proof (eraseAll_length_le [d] (objects g)); lia|].
    split; [now apply NoDup_filter|].
    split; [discriminate|]. split; [|split; assumption].
    intros q Hq. rewrite Hkeep. apply Hdisc.
    unfold eraseAll in Hq. now apply filter_In in Hq.
  - destruct (checkCollisions_cases g d time)
      as (_ & Hs & [(He & Ho & Hh)|(o & j & e & Hin & Hn & He & Ho & Hel & _ & Hh)]).
    + unfold wellFormed; simpl. rewrite He, Hs.
      split; [pose proof (checkCollisions_length_le g d time); lia|].
      split.
      { destruct Ho as [->|[o ->]]; [assumption|now apply NoDup_filter]. }
      split; [discriminate|]. split; [|split; assumption].
      intros q Hq. rewrite Hkeep.
      destruct (uncolored_fields _ _ (Hh q)) as (-> & _).
      apply Hdisc. destruct Ho as [Ho|[o Ho]]; rewrite Ho in Hq; [assumption|].
      unfold eraseAll in Hq. now apply filter_In in Hq.
    + assert (Hfresh : forall q, In q (objects g) ->
                                 q <> freshAddr (d :: live g)).
      { intros q Hq.
        assert (Hl : In q (d :: live g))
          by (right; unfold live; apply in_or_app; now left).
        pose proof (freshAddr_gt _ _ Hl). lia. }
      unfold wellFormed; simpl. rewrite He, Ho, Hs.
      split; [pose proof (checkCollisions_length_le g d time) as Hle;
              rewrite Ho in Hle; lia|].
      split.
      { apply NoDup_app; [now apply NoDup_filter|repeat constructor; auto|].
        intros a Ha [Hb|[]]. unfold eraseAll in Ha. apply filter_In in Ha.
        apply (Hfresh a); [tauto|now symmetry]. }
      split; [discriminate|]. split.
      * intros q Hq. rewrite Hkeep.
        apply in_app_or in Hq. destruct Hq as [Hq|[<-|[]]].
        -- unfold eraseAll in Hq. apply filter_In in Hq. destruct Hq as [Hq _].
           destruct (uncolored_fields _ _ (Hh q (Hfresh q Hq))) as (-> & _).
           destruct (Hdisc q Hq) as (e0 & Hn0 & Hd0).
           apply (updateAt_keeps_discovered _ _ _ _ e0); auto.
        -- rewrite Hel.
           exists (incrementCreated (markDiscovered e)).
           rewrite (nth_error_updateAt_same _ _ _ _ Hn). auto.
      * split; [|assumption].
        apply updateAt_Forall; [|assumption].
        intros x _.
        cbn [incrementCreated markDiscovered creationCount discovered].
        split; [apply toInt_isInt|reflexivity].
Qed.

Lemma wellFormed_update (g : Game) (time : float) :
  wellFormed g -> wellFormed (update g time).
Proof.
  intros (Hcap & Hnd & Hdrag & Hdisc & Hcnt & Hscr).
  unfold wellFormed, update; simpl.
  rewrite (evict_within _ _ _ _ Hcap).
  split; [assumption|]. split; [assumption|].
  split.
  { intros d Hd. rewrite resetColors_isDragging. now apply Hdrag. }
  split; [|split; assumption].
  intros q Hq.
  destruct (uncolored_fields _ _ (resetColors_uncolored (objects g) (heap g) q))
    as (-> & _).
  now apply Hdisc.
Qed.

Lemma wellFormed_handleEvent (g : Game) (inp : Input) :
  wellFormed g -> wellFormed (handleEvent g inp).
Proof.
  intros (Hcap & Hnd & Hdrag & Hdisc & Hcnt & Hscr).
  destruct (handleEvent_cases g inp)
    as (g3 & Ho & Hh & Hd & He & _ & _ & Hs & Hcase).
  assert (H3 : wellFormed g3).
  { unfold wellFormed. rewrite Ho, Hh, Hd, He.
    repeat split; try assumption; try (now apply Hdrag).
    destruct Hs as [->|[x ->]]; [assumption|apply fmax_ge_left]. }
  destruct Hcase as [->|[(mp & _ & _ & ->)|[(mp & _ & _ & ->)|(mp & _ & _ & ->)]]].
  - exact H3.
  - now apply wellFormed_startDragging, wellFormed_sidebarSpawn.
  - now apply wellFormed_releaseDragged.
  - now apply wellFormed_moveDragged.
Qed.

Lemma wellFormed_initial : wellFormed initialGame.
Proof.
  unfold wellFormed, initialGame; simpl.
  split; [unfold maxObjects; lia|]. split; [constructor|].
  split; [discriminate|]. split; [intros p []|].
  split; [|apply Qle_refl].
  unfold initialElements, newElement.
  repeat (apply Forall_cons;
          [cbn [creationCount];
           split; [unfold isInt; lia|intros H; now contradiction H]|]).
  apply Forall_nil.
Qed.

Lemma wellFormed_steps (ops : list Step) (g : Game) :
  wellFormed g -> wellFormed (steps g ops).
Proof.
  revert g; induction ops as [|s ops IH]; intros g H; [exact H|].
  simpl. apply IH. destruct s; simpl.
  - now apply wellFormed_handleEvent.
  - now apply wellFormed_update.
Qed.

End RunInvariants.

(** X4. In every state of a run the registry holds at most [maxObjects]
    instances, so that the eviction loop of the update never removes
    anything: an update leaves the registry as it is. *)
Theorem registry_within_capacity {sfml : Geometry} (ops : list Step)
    (time : float) :
  (length (objects (steps initialGame ops)) <= maxObjects)%nat
  /\ objects (update (steps initialGame ops) time)
     = objects (steps initialGame ops).
Proof.
  destruct (wellFormed_steps ops initialGame wellFormed_initial) as (Hcap & _).
  split; [exact Hcap|].
  unfold update; simpl. now apply evict_within.
Qed.

(** X5. In every state of a run no instance is in the registry twice. *)
Theorem registry_has_no_duplicate {sfml : Geometry} (ops : list Step) :
  NoDup (objects (steps initialGame ops)).
Proof.
  now destruct (wellFormed_steps ops initialGame wellFormed_initial)
    as (_ & Hnd & _).
Qed.

(** X6. In every state of a run, the object [draggingObject] points to
    is in the registry and has [isDragging] set. *)
Theorem dragged_is_registered {sfml : Geometry} (ops : list Step) (d : nat) :
  draggingObject (steps initialGame ops) = Some d ->
  In d (objects (steps initialGame ops))
  /\ isDragging (heap (steps initialGame ops) d) = true.
Proof.
  destruct (wellFormed_steps ops initialGame wellFormed_initial)
    as (_ & _ & Hdrag & _).
  apply Hdrag.
Qed.

Lemma dragged_is_registered_witness :
  draggingObject (steps (sfml := boxes) initialGame pickFire) = Some 1%nat
  /\ (In 1%nat (objects (steps (sfml := boxes) initialGame pickFire))
      /\ isDragging (heap (steps (sfml := boxes) initialGame pickFire) 1%nat)
         = true).
Proof.
  assert (H : draggingObject (steps (sfml := boxes) initialGame pickFire)
              = Some 1%nat) by (vm_compute; reflexivity).
  split; [exact H|].
  exact (dragged_is_registered (sfml := boxes) pickFire 1 H).
Defined.

(** X7. In every state of a run, every instance of the registry refers
    to an element of the catalog that is discovered. *)
Theorem instances_are_of_discovered_elements {sfml : Geometry}
    (ops : list Step) (p : nat) :
  In p (objects (steps initialGame ops)) ->
  exists e,
    nth_error (elements (steps initialGame ops))
              (element (heap (steps initialGame ops) p)) = Some e
    /\ discovered e = true.
Proof.
  destruct (wellFormed_steps ops initialGame wellFormed_initial)
    as (_ & _ & _ & Hdisc & _).
  apply Hdisc.
Qed.

Lemma instances_are_of_discovered_elements_witness :
  In 2%nat (objects (steps (sfml := boxes) initialGame pickFire))
  /\ exists e,
       nth_error (elements (steps (sfml := boxes) initialGame pickFire))
                 (element (heap (steps (sfml := boxes) initialGame pickFire)
                                2%nat)) = Some e
       /\ discovered e = true.
Proof.
  assert (H : In 2%nat (objects (steps (sfml := boxes) initialGame pickFire)))
    by (vm_compute; right; left; reflexivity).
  split; [exact H|].
  exact (instances_are_of_discovered_elements (sfml := boxes) pickFire 2 H).
Defined.

(** X8. In every state of a run every counter is a value of [int], and
    an element whose counter is not zero is discovered; along a run of
    fewer than [2^31] events and updates every counter is between zero
    and the number of operations. *)
Theorem counted_elements_are_discovered {sfml : Geometry} (ops : list Step)
    (e : Element) :
  In e (elements (steps initialGame ops)) ->
  isInt (creationCount e)
  /\ (creationCount e <> 0%Z -> discovered e = true)
  /\ ((Z.of_nat (length ops) < 2 ^ 31)%Z ->
      (0 <= creationCount e <= Z.of_nat (length ops))%Z).
Proof.
  destruct (wellFormed_steps ops initialGame wellFormed_initial)
    as (_ & _ & _ & _ & Hcnt & _).
  intros Hin.
  destruct (proj1 (Forall_forall _ _) Hcnt e Hin) as [H1 H2].
  split; [exact H1|]. split; [exact H2|].
  intros Hlen.
  exact (proj1 (proj1 (Forall_forall _ _) (run_counters ops Hlen) e Hin)).
Qed.

Lemma counted_elements_are_discovered_witness :
  In (mkElement "Fire" "A blazing flame" true 1)
     (elements (steps (sfml := boxes) initialGame pickFire))
  /\ (isInt (creationCount (mkElement "Fire" "A blazing flame" true 1))
      /\ (creationCount (mkElement "Fire" "A blazing flame" true 1) <> 0%Z ->
          discovered (mkElement "Fire" "A blazing flame" true 1) = true)
      /\ ((Z.of_nat (length pickFire) < 2 ^ 31)%Z ->
          (0 <= creationCount (mkElement "Fire" "A blazing flame" true 1)
           <= Z.of_nat (length pickFire))%Z)).
Proof.
  assert (H : In (mkElement "Fire" "A blazing flame" true 1)
                 (elements (steps (sfml := boxes) initialGame pickFire)))
    by (vm_compute; left; reflexivity).
  split; [exact H|].
  exact (counted_elements_are_discovered (sfml := boxes) pickFire _ H).
Defined.

(** X9. In every state of a run the scroll offset of the sidebar is not
    negative. *)
Theorem sidebar_scroll_not_negative {sfml : Geometry} (ops : list Step) :
  0 <= sidebarScroll (steps initialGame ops).
Proof.
  now destruct (wellFormed_steps ops initialGame wellFormed_initial)
    as (_ & _ & _ & _ & _ & Hscr).
Qed.

(** X10. Along any sequence of events and updates, from any state, the
    catalog keeps its length and every element keeps its place, its name
    and its description. As long as the counter of an element, increased
    by the number of operations, stays below [2^31], it does not decrease
    and grows by at most the number of operations. *)
Theorem counters_never_decrease {sfml : Geometry} (g : Game)
    (ops : list Step) (i : nat) (e : Element) :
  nth_error (elements g) i = Some e ->
  length (elements (steps g ops)) = length (elements g)
  /\ exists e', nth_error (elements (steps g ops)) i = Some e'
                /\ name e' = name e
                /\ description e' = description e
                /\ ((- 2 ^ 31 <= creationCount e)%Z ->
                    (creationCount e + Z.of_nat (length ops) < 2 ^ 31)%Z ->
                    (creationCount e <= creationCount e'
                     <= creationCount e + Z.of_nat (length ops))%Z).
Proof.
  intros Hn.
  set (inv := fun (n : nat) (els : list Element) =>
         length els = length (elements g)
         /\ exists e', nth_error els i = Some e'
              /\ name e' = name e
              /\ description e' = description e
              /\ ((- 2 ^ 31 <= creationCount e)%Z ->
                  (creationCount e + Z.of_nat n < 2 ^ 31)%Z ->
                  (creationCount e <= creationCount e'
                   <= creationCount e + Z.of_nat n)%Z)).
  assert (H : inv (length ops + 0)%nat (elements (steps g ops))).
  { apply (steps_elements_counted inv).
    - intros n els (Hlen & e' & Hn' & Hname & Hdesc & Hc).
      split; [exact Hlen|]. exists e'.
      split; [exact Hn'|]. split; [exact Hname|]. split; [exact Hdesc|].
      intros Hlo Hhi. assert (creationCount e + Z.of_nat n < 2 ^ 31)%Z by lia.
      specialize (Hc Hlo H). lia.
    - intros n els k (Hlen & e' & Hn' & Hname & Hdesc & Hc).
      split; [now rewrite updateAt_length|].
      destruct (Nat.eq_dec i k) as [->|Hik].
      + exists (incrementCreated e').
        rewrite (nth_error_updateAt_same _ _ _ _ Hn').
        cbn [incrementCreated name description creationCount].
        split; [reflexivity|]. split; [exact Hname|]. split; [exact Hdesc|].
        intros Hlo Hhi. assert (creationCount e + Z.of_nat n < 2 ^ 31)%Z by lia.
        specialize (Hc Hlo H).
        rewrite toInt_id by (unfold isInt; lia). lia.
      + exists e'. rewrite nth_error_updateAt_other by assumption.
        split; [exact Hn'|]. split; [exact Hname|]. split; [exact Hdesc|].
        intros Hlo Hhi. assert (creationCount e + Z.of_nat n < 2 ^ 31)%Z by lia.
        specialize (Hc Hlo H). lia.
    - intros n els k (Hlen & e' & Hn' & Hname & Hdesc & Hc).
      split; [now rewrite updateAt_length|].
      destruct (Nat.eq_dec i k) as [->|Hik].
      + exists (incrementCreated (markDiscovered e')).
        rewrite (nth_error_updateAt_same _ _ _ _ Hn').
        cbn [incrementCreated markDiscovered name description creationCount].
        split; [reflexivity|]. split; [exact Hname|]. split; [exact Hdesc|].
        intros Hlo Hhi. assert (creationCount e + Z.of_nat n < 2 ^ 31)%Z by lia.
        specialize (Hc Hlo H).
        rewrite toInt_id by (unfold isInt; lia). lia.
      + exists e'. rewrite nth_error_updateAt_other by assumption.
        split; [exact Hn'|]. split; [exact Hname|]. split; [exact Hdesc|].
        intros Hlo Hhi. assert (creationCount e + Z.of_nat n < 2 ^ 31)%Z by lia.
        specialize (Hc Hlo H). lia.
    - split; [reflexivity|]. exists e.
      split; [exact Hn|]. split; [reflexivity|]. split; [reflexivity|].
      intros; lia. }
  rewrite Nat.add_0_r in H. exact H.
Qed.

Lemma counters_never_decrease_witness :
  nth_error (elements initialGame) 1
  = Some (mkElement "Water" "Crystal clear liquid" true 0)
  /\ (length (elements (steps (sfml := boxes) initialGame pickFire))
      = length (elements initialGame)
      /\ exists e',
           nth_error (elements (steps (sfml := boxes) initialGame pickFire)) 1
           = Some e'
           /\ name e' = name (mkElement "Water" "Crystal clear liquid" true 0)
           /\ description e'
              = description (mkElement "Water" "Crystal clear liquid" true 0)
           /\ ((- 2 ^ 31
                <= creationCount
                     (mkElement "Water" "Crystal clear liquid" true 0))%Z ->
               (creationCount (mkElement "Water" "Crystal clear liquid" true 0)
                + Z.of_nat (length pickFire) < 2 ^ 31)%Z ->
               (creationCount (mkElement "Water" "Crystal clear liquid" true 0)
                <= creationCount e'
                <= creationCount
                     (mkElement "Water" "Crystal clear liquid" true 0)
                   + Z.of_nat (length pickFire))%Z)).
Proof.
  assert (H : nth_error (elements initialGame) 1
              = Some (mkElement "Water" "Crystal clear liquid" true 0))
    by reflexivity.
  split; [exact H|].
  exact (counters_never_decrease (sfml := boxes) initialGame pickFire 1 _ H).
Defined.

(** From [2^31 - 1] the counter of Fire goes to [- 2^31] when Fire is
    spawned once more. *)
Example counter_wraps_around :
  let g := set_elements initialGame
             (updateAt 0 (fun e => mkElement (name e) (description e)
                                     (discovered e) 2147483647)
                (elements initialGame)) in
  nth_error (elements (handleEvent (sfml := boxes) g (press 710 15 1))) 0
  = Some (mkElement "Fire" "A blazing flame" true (-2147483648)).
Proof. vm_compute. reflexivity. Qed.

(** ** The update *)

Lemma white_fixed (o : GameObject) :
  color (sprite o) = White -> withSprite o (setColor (sprite o) White) = o.
Proof.
  destruct o as [e [p t s c] sp ct dr]. simpl. intros ->. reflexivity.
Qed.

Lemma resetColors_ext (l : list nat) (h h' : Heap) :
  (forall p, h p = h' p) -> forall p, resetColors l h p = resetColors l h' p.
Proof.
  revert h h'; induction l as [|a l IH]; intros h h' H p; simpl; [apply H|].
  apply IH. intros q. unfold upd. rewrite (H a).
  destruct (Nat.eqb q a); [reflexivity|apply H].
Qed.

Lemma resetColors_white (l : list nat) (h : Heap) :
  (forall q, In q l -> color (sprite (h q)) = White) ->
  forall p, resetColors l h p = h p.
Proof.
  revert h; induction l as [|a l IH]; intros h H p; simpl; [reflexivity|].
  rewrite (resetColors_ext l _ h).
  - apply IH. intros q Hq. apply H. now right.
  - intros q. unfold upd. destruct (Nat.eqb_spec q a) as [->|]; [|reflexivity].
    apply white_fixed. apply H. now left.
Qed.

Lemma resetColors_absent (l : list nat) (h : Heap) (p : nat) :
  ~ In p l -> resetColors l h p = h p.
Proof.
  revert h; induction l as [|a l IH]; intros h H; simpl; [reflexivity|].
  rewrite IH by (intros Hin; apply H; now right).
  apply upd_other. intros ->. apply H. now left.
Qed.

(** X11. An update neither adds an instance nor touches anything but
    colours: the catalog, the dragged object, the invalid mark and the
    scroll are unchanged, every object keeps all its fields except the
    colour of its sprite, and an object outside the registry is not
    touched at all. *)
Theorem update_only_recolours (g : Game) (time : float) :
  elements (update g time) = elements g
  /\ draggingObject (update g time) = draggingObject g
  /\ invalidMarkPos (update g time) = invalidMarkPos g
  /\ invalidMarkTime (update g time) = invalidMarkTime g
  /\ sidebarScroll (update g time) = sidebarScroll g
  /\ (forall p, In p (objects (update g time)) -> In p (objects g))
  /\ (forall p, uncolored (heap (update g time) p) = uncolored (heap g p))
  /\ (forall p, ~ In p (objects (update g time)) ->
                heap (update g time) p = heap g p).
Proof.
  unfold update; simpl. repeat split.
  - intros p Hp. unfold evict in Hp. eapply evict_loop_In; eauto.
  - intros p. apply resetColors_uncolored.
  - intros p Hp. now apply resetColors_absent.
Qed.

(** X12. Updating twice is the same as updating once: the second update
    changes neither the registry nor any object. *)
Theorem update_twice (g : Game) (time time' : float) :
  objects (update (update g time) time') = objects (update g time)
  /\ forall p, heap (update (update g time) time') p
               = heap (update g time) p.
Proof.
  assert (Hcap : (length (objects (update g time)) <= maxObjects)%nat).
  { unfold update; simpl. unfold evict. apply evict_loop_bound. lia. }
  pose proof (update_resets_colors g time) as Hwhite.
  set (g1 := update g time) in *.
  assert (Hobj : objects (update g1 time') = objects g1).
  { unfold update. simpl. now apply evict_within. }
  split; [exact Hobj|].
  intros p. unfold update. simpl.
  rewrite (evict_within _ _ _ _ Hcap).
  apply resetColors_white. exact Hwhite.
Qed.

(** ** More on the event handler *)

Section HandlerFurther.

Context {sfml : Geometry}.

Lemma checkCollisions_window_book (g : Game) (d : nat) (time : float) :
  windowOpen (checkCollisions g d time) = windowOpen g
  /\ bookOpen (checkCollisions g d time) = bookOpen g.
Proof.
  unfold checkCollisions.
  pose proof (scanObjects_feedback g d time (objects g)) as Hsim.
  destruct (scanObjects g d time (objects g)) as [g2 [[o r]|]];
    simpl in Hsim; destruct Hsim as (Hw & _ & _ & Hb & _).
  - unfold spawnResult.
    destruct (findElement r (elements g2) 0) as [[j e]|]; simpl; auto.
  - auto.
Qed.

(** The three actions of the engine leave the window and the book as
    they are. *)
Lemma actions_window_book (g : Game) (mp : Vector2f) (wy : Z) (time : float) :
  (windowOpen (startDragging (sidebarSpawn g mp wy time) mp) = windowOpen g
   /\ bookOpen (startDragging (sidebarSpawn g mp wy time) mp) = bookOpen g)
  /\ (windowOpen (releaseDragged g time) = windowOpen g
      /\ bookOpen (releaseDragged g time) = bookOpen g)
  /\ (windowOpen (moveDragged g mp) = windowOpen g
      /\ bookOpen (moveDragged g mp) = bookOpen g).
Proof.
  split; [|split].
  - unfold startDragging, sidebarSpawn, spawnElement.
    destruct (sidebarLoop g mp wy (elements g) 0 0); simpl;
      match goal with
      | |- context [objectAt ?h ?m ?l] => destruct (objectAt h m l)
      end; simpl; auto.
  - unfold releaseDragged. destruct (draggingObject g) as [d|]; [|auto].
    destruct (intersects _ trashBounds); simpl; auto.
    apply checkCollisions_window_book.
  - unfold moveDragged. destruct (draggingObject g); simpl; auto.
Qed.

(** X13. While the book is open the engine is frozen: an event after
    which the book is open changes neither the registry, nor any object,
    nor the catalog, nor the dragged object, nor the invalid mark, nor the
    scroll of the sidebar. *)
Theorem open_book_blocks_engine (g : Game) (inp : Input) :
  bookOpen (handleEvent g inp) = true ->
  objects (handleEvent g inp) = objects g
  /\ elements (handleEvent g inp) = elements g
  /\ draggingObject (handleEvent g inp) = draggingObject g
  /\ invalidMarkPos (handleEvent g inp) = invalidMarkPos g
  /\ invalidMarkTime (handleEvent g inp) = invalidMarkTime g
  /\ sidebarScroll (handleEvent g inp) = sidebarScroll g
  /\ forall p, heap (handleEvent g inp) p = heap g p.
Proof.
  unfold handleEvent.
  destruct (event inp) as [|delta mp|b mp|b mp|mp|]; cbv zeta;
    match goal with
    | |- context [if bookOpen ?g3 then _ else _] =>
        destruct (bookOpen g3) eqn:E
    end;
    try (intros _; repeat split; reflexivity);
    try (simpl in E; intros H; simpl in H; congruence).
  - (* wheel, book open afterwards: it was open before *)
    intros _. unfold scrollSidebar in *.
    destruct (bookOpen g) eqn:Eb.
    + rewrite andb_false_r. repeat split; reflexivity.
    + exfalso. destruct (fltb _ _ && negb false); simpl in E; congruence.
  - (* press, book closed afterwards *)
    intros H. exfalso.
    destruct b; try (simpl in *; congruence).
    destruct (actions_window_book
                (set_bookOpen g
                   (book_handleInput (bookOpen g)
                      (MouseButtonPressed Left mp)))
                mp (windowSizeY inp) (now inp)) as ((_ & Hb) & _).
    rewrite Hb in H. simpl in *. congruence.
  - intros H. exfalso.
    destruct b; try (simpl in *; congruence).
    destruct (actions_window_book
                (set_bookOpen g
                   (book_handleInput (bookOpen g)
                      (MouseButtonReleased Left mp)))
                mp 0%Z (now inp)) as (_ & (_ & Hb) & _).
    rewrite Hb in H. simpl in *. congruence.
  - intros H. exfalso.
    destruct (actions_window_book
                (set_bookOpen g
                   (book_handleInput (bookOpen g) (MouseMoved mp)))
                mp 0%Z 0) as (_ & _ & (_ & Hb)).
    rewrite Hb in H. simpl in *. congruence.
Qed.

Lemma release_with_closed_book (g : Game) (inp : Input) (mp : Vector2f) :
  event inp = MouseButtonReleased Left mp ->
  bookOpen g = false ->
  handleEvent g inp = releaseDragged g (now inp).
Proof.
  intros Hev Hbook. unfold handleEvent. rewrite Hev. cbv zeta.
  unfold book_handleInput. simpl. rewrite Hbook.
  destruct g; simpl in *; subst; reflexivity.
Qed.

Lemma press_with_closed_book (g : Game) (inp : Input) (mp : Vector2f) :
  event inp = MouseButtonPressed Left mp ->
  bookOpen g = false ->
  contains bookIconBounds mp = false ->
  handleEvent g inp
  = startDragging (sidebarSpawn g mp (windowSizeY inp) (now inp)) mp.
Proof.
  intros Hev Hbook Hicon. unfold handleEvent. rewrite Hev. cbv zeta.
  unfold book_handleInput. simpl. rewrite Hbook. simpl. rewrite Hicon.
  simpl.
  destruct g; simpl in *; subst; reflexivity.
Qed.

(** X14. A release over empty space: when the dragged instance [d] is
    released outside the trash bin and no examined instance overlaps it,
    the registry, the catalog and the invalid mark are unchanged, [d]
    only loses its [isDragging] flag, no other object is touched, and
    nothing is dragged any more. *)
Theorem release_on_empty_space (g : Game) (inp : Input) (mp : Vector2f)
    (d : nat) :
  event inp = MouseButtonReleased Left mp ->
  bookOpen g = false ->
  draggingObject g = Some d ->
  intersects (getGlobalBounds (sprite (heap g d))) trashBounds = false ->
  Forall (fun p => skipped g d p = true \/ overlaps g d p = false)
         (objects g) ->
  let g' := handleEvent g inp in
  objects g' = objects g
  /\ elements g' = elements g
  /\ invalidMarkPos g' = invalidMarkPos g
  /\ invalidMarkTime g' = invalidMarkTime g
  /\ draggingObject g' = None
  /\ heap g' d = withDragging (heap g d) false
  /\ forall p, p <> d -> heap g' p = heap g p.
Proof.
  intros Hev Hbook Hdrag Htrash Hfree g'.
  assert (Hscan : scanObjects g d (now inp) (objects g) = (g, None)).
  { apply scanObjects_idle. eapply Forall_impl; [|exact Hfree].
    intros p Hp. unfold combinable, rejected.
    destruct Hp as [->| ->]; simpl; [auto|].
    rewrite andb_false_r. auto. }
  unfold g'. rewrite (release_with_closed_book g inp mp Hev Hbook).
  unfold releaseDragged. rewrite Hdrag, Htrash.
  unfold checkCollisions. rewrite Hscan. simpl.
  repeat split.
  - apply upd_same.
  - intros p Hp. now apply upd_other.
Qed.

Lemma objectAt_first (h : Heap) (mp : Vector2f) (pre : list nat) (p : nat)
    (rest : list nat) :
  Forall (fun q => contains (getGlobalBounds (sprite (h q))) mp = false) pre ->
  contains (getGlobalBounds (sprite (h p))) mp = true ->
  objectAt h mp (pre ++ p :: rest) = Some p.
Proof.
  intros Hpre Hp. induction pre as [|x pre IH]; simpl.
  - now rewrite Hp.
  - inversion Hpre; subst. rewrite H1. now apply IH.
Qed.

(** The spawn from the sidebar appends to the registry and leaves the
    objects of the registry as they are. *)
Lemma sidebarSpawn_old (g : Game) (mp : Vector2f) (wy : Z) (time : float) :
  exists tail,
    objects (sidebarSpawn g mp wy time) = (objects g ++ tail)%list
    /\ forall q, In q (objects g) ->
                 heap (sidebarSpawn g mp wy time) q = heap g q.
Proof.
  unfold sidebarSpawn, spawnElement.
  destruct (sidebarLoop g mp wy (elements g) 0 0) as [i|]; simpl.
  - exists [freshAddr (live g)]. split; [reflexivity|].
    intros q Hq. apply upd_other. apply live_fresh.
    unfold live. apply in_or_app. now left.
  - exists []. rewrite app_nil_r. auto.
Qed.

(** X15. On a left press with the book closed (and the pointer outside
    the book icon), the object that is picked up is the first one, in
    registry order, whose bounds hold the pointer: the earliest inserted
    of the objects under the pointer. *)
Theorem press_picks_first_in_registry (g : Game) (inp : Input)
    (mp : Vector2f) (pre : list nat) (p : nat) (post : list nat) :
  event inp = MouseButtonPressed Left mp ->
  bookOpen g = false ->
  contains bookIconBounds mp = false ->
  objects g = (pre ++ p :: post)%list ->
  Forall (fun q => contains (getGlobalBounds (sprite (heap g q))) mp = false)
         pre ->
  contains (getGlobalBounds (sprite (heap g p))) mp = true ->
  draggingObject (handleEvent g inp) = Some p
  /\ isDragging (heap (handleEvent g inp) p) = true.
Proof.
  intros Hev Hbook Hicon Hobj Hpre Hp.
  rewrite (press_with_closed_book g inp mp Hev Hbook Hicon).
  destruct (sidebarSpawn_old g mp (windowSizeY inp) (now inp))
    as (tail & Hobjs & Hheap).
  set (g4 := sidebarSpawn g mp (windowSizeY inp) (now inp)) in *.
  assert (Hat : objectAt (heap g4) mp (objects g4) = Some p).
  { rewrite Hobjs, Hobj, <- app_assoc, <- app_comm_cons.
    apply objectAt_first.
    - apply Forall_forall. intros q Hq.
      rewrite Hheap by (rewrite Hobj; apply in_or_app; now left).
      exact (proj1 (Forall_forall _ _) Hpre q Hq).
    - rewrite Hheap by (rewrite Hobj; apply in_or_app; right; now left).
      exact Hp. }
  unfold startDragging. rewrite Hat. simpl.
  split; [reflexivity|]. now rewrite upd_same.
Qed.

Lemma handleEvent_window (g : Game) (inp : Input) :
  windowOpen (handleEvent g inp)
  = match event inp with Closed => false | _ => windowOpen g end.
Proof.
  unfold handleEvent.
  destruct (event inp) as [|delta mp|b mp|b mp|mp|]; cbv zeta;
    match goal with
    | |- context [if bookOpen ?g3 then _ else _] => destruct (bookOpen g3)
    end; try reflexivity;
    try (unfold scrollSidebar;
         destruct (fltb _ _ && negb (bookOpen g)); reflexivity).
  - destruct b; try reflexivity.
    match goal with
    | |- windowOpen (startDragging (sidebarSpawn ?g0 ?m ?w ?t) _) = _ =>
        destruct (actions_window_book g0 m w t) as ((-> & _) & _)
    end. reflexivity.
  - destruct b; try reflexivity.
    match goal with
    | |- windowOpen (releaseDragged ?g0 ?t) = _ =>
        destruct (actions_window_book g0 mp 0%Z t) as (_ & (-> & _) & _)
    end. reflexivity.
  - match goal with
    | |- windowOpen (moveDragged ?g0 ?m) = _ =>
        destruct (actions_window_book g0 m 0%Z 0) as (_ & _ & (-> & _))
    end. reflexivity.
Qed.

(** X16. A [Closed] event closes the window and ends the queue: the
    events queued after it are not processed. *)
Theorem closed_event_ends_queue (g : Game) (inp : Input) (rest : list Input) :
  event inp = Closed ->
  windowOpen g = true ->
  windowOpen (handleEvent g inp) = false
  /\ handleEvents g (inp :: rest) = handleEvent g inp.
Proof.
  intros Hev Hopen.
  assert (H : windowOpen (handleEvent g inp) = false)
    by (rewrite handleEvent_window, Hev; reflexivity).
  split; [exact H|].
  cbn [handleEvents]. rewrite Hopen.
  destruct rest as [|inp' rest]; [reflexivity|].
  cbn [handleEvents]. now rewrite H.
Qed.

(** X17. A closed window is never reopened: after it, no event and no
    update opens it again, the event loop processes nothing and the main
    loop stops. *)
Theorem window_never_reopens (g : Game) :
  windowOpen g = false ->
  (forall ops, windowOpen (steps g ops) = false)
  /\ (forall inputs, handleEvents g inputs = g)
  /\ (forall frames, run g frames = g).
Proof.
  intros Hclosed. split; [|split].
  - intros ops. revert g Hclosed.
    induction ops as [|s ops IH]; intros g Hclosed; [exact Hclosed|].
    simpl. apply IH. destruct s as [inp|time]; simpl.
    + rewrite handleEvent_window. now destruct (event inp).
    + exact Hclosed.
  - intros [|inp rest]; simpl; [reflexivity|now rewrite Hclosed].
  - intros [|f rest]; simpl; [reflexivity|now rewrite Hclosed].
Qed.

End HandlerFurther.

(** Fire (object 1), carried to (100, 100), is released there. *)
Lemma release_on_empty_space_witness :
  let g := steps (sfml := boxes) initialGame carryFireAway in
  let inp := lift 100 100 7 in
  (event inp = MouseButtonReleased Left (vec (inject_Z 100) (inject_Z 100))
   /\ bookOpen g = false
   /\ draggingObject g = Some 1%nat
   /\ intersects (Geometry := boxes)
        (getGlobalBounds (sfml := boxes) (sprite (heap g 1%nat)))
        (trashBounds (Geometry := boxes)) = false
   /\ Forall (fun p => skipped g 1 p = true
                       \/ overlaps (sfml := boxes) g 1 p = false)
             (objects g))
  /\ let g' := handleEvent (sfml := boxes) g inp in
     objects g' = objects g
     /\ elements g' = elements g
     /\ invalidMarkPos g' = invalidMarkPos g
     /\ invalidMarkTime g' = invalidMarkTime g
     /\ draggingObject g' = None
     /\ heap g' 1%nat = withDragging (heap g 1%nat) false
     /\ forall p, p <> 1%nat -> heap g' p = heap g p.
Proof.
  intros g inp.
  assert (H1 : event inp
               = MouseButtonReleased Left (vec (inject_Z 100) (inject_Z 100)))
    by reflexivity.
  assert (H2 : bookOpen g = false) by (vm_compute; reflexivity).
  assert (H3 : draggingObject g = Some 1%nat) by (vm_compute; reflexivity).
  assert (H4 : intersects (Geometry := boxes)
                 (getGlobalBounds (sfml := boxes) (sprite (heap g 1%nat)))
                 (trashBounds (Geometry := boxes)) = false)
    by (vm_compute; reflexivity).
  assert (H5 : Forall (fun p => skipped g 1 p = true
                                \/ overlaps (sfml := boxes) g 1 p = false)
                 (objects g)).
  { replace (objects g) with [1%nat; 2%nat] by (vm_compute; reflexivity).
    apply Forall_cons; [left; vm_compute; reflexivity|].
    apply Forall_cons; [right; vm_compute; reflexivity|apply Forall_nil]. }
  split; [exact (conj H1 (conj H2 (conj H3 (conj H4 H5))))|].
  exact (release_on_empty_space (sfml := boxes) g inp _ 1 H1 H2 H3 H4 H5).
Defined.

(** Fire (object 1) and Water (object 2) lie at the same place; a press
    on them picks Fire. *)
Lemma press_picks_first_in_registry_witness :
  let g := steps (sfml := boxes) initialGame twoSpawned in
  let inp := press 410 310 5 in
  let mp := vec (inject_Z 410) (inject_Z 310) in
  (event inp = MouseButtonPressed Left mp
   /\ bookOpen g = false
   /\ contains (Geometry := boxes) (bookIconBounds (Geometry := boxes)) mp
      = false
   /\ objects g = ([] ++ 1%nat :: [2%nat])%list
   /\ Forall (fun q => contains (Geometry := boxes)
                         (getGlobalBounds (sfml := boxes) (sprite (heap g q)))
                         mp = false) []
   /\ contains (Geometry := boxes)
        (getGlobalBounds (sfml := boxes) (sprite (heap g 1%nat))) mp = true)
  /\ (draggingObject (handleEvent (sfml := boxes) g inp) = Some 1%nat
      /\ isDragging (heap (handleEvent (sfml := boxes) g inp) 1%nat) = true).
Proof.
  intros g inp mp.
  assert (H1 : event inp = MouseButtonPressed Left mp) by reflexivity.
  assert (H2 : bookOpen g = false) by (vm_compute; reflexivity).
  assert (H3 : contains (Geometry := boxes)
                 (bookIconBounds (Geometry := boxes)) mp = false)
    by (vm_compute; reflexivity).
  assert (H4 : objects g = ([] ++ 1%nat :: [2%nat])%list)
    by (vm_compute; reflexivity).
  assert (H5 : Forall (fun q => contains (Geometry := boxes)
                         (getGlobalBounds (sfml := boxes) (sprite (heap g q)))
                         mp = false) []) by apply Forall_nil.
  assert (H6 : contains (Geometry := boxes)
                 (getGlobalBounds (sfml := boxes) (sprite (heap g 1%nat))) mp
               = true) by (vm_compute; reflexivity).
  split; [exact (conj H1 (conj H2 (conj H3 (conj H4 (conj H5 H6)))))|].
  exact (press_picks_first_in_registry (sfml := boxes) g inp mp [] 1 [2%nat]
           H1 H2 H3 H4 H5 H6).
Defined.

(** The window is closed while a press is still queued. *)
Lemma closed_event_ends_queue_witness :
  let inp := mkInput Closed 1 800 600 in
  (event inp = Closed /\ windowOpen initialGame = true)
  /\ (windowOpen (handleEvent (sfml := boxes) initialGame inp) = false
      /\ handleEvents (sfml := boxes) initialGame [inp; press 710 15 2]
         = handleEvent (sfml := boxes) initialGame inp).
Proof.
  intros inp.
  assert (H1 : event inp = Closed) by reflexivity.
  assert (H2 : windowOpen initialGame = true) by reflexivity.
  split; [exact (conj H1 H2)|].
  exact (closed_event_ends_queue (sfml := boxes) initialGame inp
           [press 710 15 2] H1 H2).
Defined.

Lemma window_never_reopens_witness :
  let g := handleEvent (sfml := boxes) initialGame (mkInput Closed 1 800 600) in
  windowOpen g = false
  /\ ((forall ops, windowOpen (steps (sfml := boxes) g ops) = false)
      /\ (forall inputs, handleEvents (sfml := boxes) g inputs = g)
      /\ (forall frames, run (sfml := boxes) g frames = g)).
Proof.
  intros g.
  assert (H : windowOpen g = false) by reflexivity.
  split; [exact H|].
  exact (window_never_reopens (sfml := boxes) g H).
Defined.

(** ** The element book *)

Section BookProperties.

Context {sfml : Geometry}.

Variable size : nat.

Lemma selectLoop_cases (b : ElementBook) (mp : Vector2f) (count i : nat) :
  selectLoop b mp count i = b
  \/ exists k, (i <= k < i + count)%nat
               /\ selectLoop b mp count i
                  = mkBook (isOpen b) (toInt (Z.of_nat k)) (bookScroll b).
Proof.
  revert i; induction count as [|count IH]; intros i; simpl; [now left|].
  match goal with
  | |- context [if ?c then _ else _] => destruct c
  end.
  - right. exists i. split; [lia|reflexivity].
  - destruct (IH (S i)) as [H|(k & Hk & H)]; [now left|].
    right. exists k. split; [lia|exact H].
Qed.

Lemma scrollBook_cases (b : ElementBook) (delta : float) (mp : Vector2f) :
  scrollBook size b delta mp = b
  \/ exists x,
       scrollBook size b delta mp
       = mkBook (isOpen b) (selectedIndex b)
           (fmax 0 (fmin x (fmax 0 (inject_Z (Z.of_nat size) * 30 - 400 + 50)))).
Proof.
  unfold scrollBook.
  match goal with
  | |- context [if ?c then _ else _] => destruct c
  end; [right; eexists; reflexivity|now left].
Qed.

(** Every event leaves the book as it was, toggles it, selects an entry
    of the list or scrolls the list within its bounds. *)
Lemma handleInput_cases (b : ElementBook) (ev : Event) :
  handleInput size b ev = b
  \/ handleInput size b ev = toggle b
  \/ (isOpen b = true
      /\ exists k, (k < size)%nat
                   /\ handleInput size b ev
                      = mkBook (isOpen b) (toInt (Z.of_nat k)) (bookScroll b))
  \/ (isOpen b = true
      /\ exists x,
           handleInput size b ev
           = mkBook (isOpen b) (selectedIndex b)
               (fmax 0 (fmin x (fmax 0 (inject_Z (Z.of_nat size) * 30
                                        - 400 + 50))))).
Proof.
  unfold handleInput. destruct (isOpen b) eqn:Eo; simpl.
  - destruct ev as [|delta mp|btn mp|btn mp|mp|]; try (now left).
    + destruct (scrollBook_cases b delta mp) as [H|[x H]]; [now left|].
      right; right; right. split; [reflexivity|].
      exists x. now rewrite H, Eo.
    + destruct btn; try (now left).
      match goal with
      | |- context [if ?c then _ else _] => destruct c
      end; [right; now left|].
      match goal with
      | |- context [if ?c then _ else _] => destruct c
      end; [right; now left|].
      destruct (selectLoop_cases b mp size 0) as [H|(k & Hk & H)];
        [now left|].
      right; right; left. split; [reflexivity|].
      exists k. split; [lia|]. now rewrite H, Eo.
  - destruct ev as [|delta mp|btn mp|btn mp|mp|]; try (now left).
    destruct btn; try (now left).
    destruct (contains bookIconBounds mp); [right|]; now left.
Qed.

(** X18. The flag [isOpen] that [ElementBook::handleInput] leaves is the
    one the engine reads: it depends on the event and on the flag only,
    not on the selection or on the scroll of the book. *)
Theorem book_flag_agrees (b : ElementBook) (ev : Event) :
  isOpen (handleInput size b ev) = book_handleInput (isOpen b) ev.
Proof.
  unfold handleInput, book_handleInput.
  destruct (isOpen b) eqn:Eo; simpl.
  - destruct ev as [|delta mp|btn mp|btn mp|mp|]; try exact Eo.
    + destruct (scrollBook_cases b delta mp) as [->|[x ->]]; exact Eo.
    + destruct btn; try exact Eo.
      destruct (fltb (vx mp) 100 || fltb 700 (vx mp) || fltb (vy mp) 100
                || fltb 500 (vy mp)); [simpl; now rewrite Eo|].
      destruct (contains (shapeBounds (vec 32 32) (vec 668 100)) mp);
        [simpl; now rewrite Eo|].
      destruct (selectLoop_cases b mp size 0) as [->|(k & _ & ->)]; exact Eo.
  - destruct ev as [|delta mp|btn mp|btn mp|mp|]; try exact Eo.
    destruct btn; try exact Eo.
    destruct (contains bookIconBounds mp); [simpl; now rewrite Eo|exact Eo].
Qed.

Lemma toInt_small (k : Z) : (0 <= k < 2 ^ 31)%Z -> toInt k = k.
Proof.
  intros H. unfold toInt. rewrite Z.mod_small; lia.
Qed.

(** X19. Whatever the events, a closed book has no selection
    ([selectedIndex] is -1), and the selection of an open book is -1 or
    the index of one of its entries. *)
Theorem book_selection_in_range (evs : list Event) :
  (Z.of_nat size < 2 ^ 31)%Z ->
  let b := fold_left (handleInput size) evs newBook in
  (isOpen b = false -> selectedIndex b = (-1)%Z)
  /\ (-1 <= selectedIndex b < Z.of_nat size)%Z.
Proof.
  intros Hsize.
  assert (Hinv : forall evs b,
            (isOpen b = false -> selectedIndex b = (-1)%Z)
            /\ (-1 <= selectedIndex b < Z.of_nat size)%Z ->
            (isOpen (fold_left (handleInput size) evs b) = false ->
             selectedIndex (fold_left (handleInput size) evs b) = (-1)%Z)
            /\ (-1 <= selectedIndex (fold_left (handleInput size) evs b)
                < Z.of_nat size)%Z).
  { clear evs. induction evs as [|ev evs IH]; intros b Hb; [exact Hb|].
    simpl. apply IH. destruct Hb as [Hclosed Hrange].
    destruct (handleInput_cases b ev)
      as [->|[->|[(Ho & k & Hk & ->)|(Ho & x & ->)]]]; simpl.
    - auto.
    - split; [reflexivity|lia].
    - rewrite Ho. rewrite toInt_small by lia. split; [discriminate|lia].
    - auto. }
  apply Hinv. simpl. split; [reflexivity|lia].
Qed.

(** X20. Whatever the events, the scroll offset of the list of the book
    stays between 0 and [max(0, 30 * size - 350)]. *)
Theorem book_scroll_in_range (evs : list Event) :
  let b := fold_left (handleInput size) evs newBook in
  0 <= bookScroll b
  /\ bookScroll b <= fmax 0 (inject_Z (Z.of_nat size) * 30 - 400 + 50).
Proof.
  set (M := fmax 0 (inject_Z (Z.of_nat size) * 30 - 400 + 50)).
  assert (HM : 0 <= M) by apply fmax_ge_left.
  assert (Hinv : forall evs b,
            0 <= bookScroll b /\ bookScroll b <= M ->
            0 <= bookScroll (fold_left (handleInput size) evs b)
            /\ bookScroll (fold_left (handleInput size) evs b) <= M).
  { clear evs. induction evs as [|ev evs IH]; intros b Hb; [exact Hb|].
    simpl. apply IH.
    destruct (handleInput_cases b ev)
      as [->|[->|[(Ho & k & Hk & ->)|(Ho & x & ->)]]]; simpl; try exact Hb.
    fold M. split; [apply fmax_ge_left|].
    apply fmax_le; [exact HM|apply fmin_le_right]. }
  apply Hinv. simpl. split; [apply Qle_refl|exact HM].
Qed.

End BookProperties.

Lemma book_selection_in_range_witness :
  let evs := [MouseButtonPressed Left (vec 20 20);
              MouseButtonPressed Left (vec 150 135)] in
  (Z.of_nat 26 < 2 ^ 31)%Z
  /\ let b := fold_left (handleInput (sfml := boxes) 26) evs newBook in
     (isOpen b = false -> selectedIndex b = (-1)%Z)
     /\ (-1 <= selectedIndex b < Z.of_nat 26)%Z.
Proof.
  intros evs.
  assert (H : (Z.of_nat 26 < 2 ^ 31)%Z) by (vm_compute; reflexivity).
  split; [exact H|].
  exact (book_selection_in_range (sfml := boxes) 26 evs H).
Defined.

Example book_selects_second_entry :
  selectedIndex
    (fold_left (handleInput (sfml := boxes) 26)
       [MouseButtonPressed Left (vec 20 20);
        MouseButtonPressed Left (vec 150 135)] newBook) = 1%Z.
Proof. vm_compute. reflexivity. Qed.

(** ** What is drawn *)

Section DrawProperties.

Context {sfml : Geometry}.

(** X21. Along a run in which every left press arrives while nothing is
    dragged, [Game::draw] draws every instance of the registry exactly
    once, and the dragged one last. *)
Theorem every_instance_drawn_once (ops : list Step) :
  pressesWhenIdle initialGame ops ->
  let g := steps initialGame ops in
  NoDup (drawnObjects g)
  /\ (forall p, In p (drawnObjects g) <-> In p (objects g))
  /\ (forall d, draggingObject g = Some d ->
                exists l, drawnObjects g = (l ++ [d])%list).
Proof.
  intros Hidle g.
  assert (Htracked : draggerTracked initialGame) by (intros p []).
  destruct (single_dragger_when_presses_idle ops initialGame Htracked Hidle)
    as [Ht _].
  destruct (wellFormed_steps ops initialGame wellFormed_initial)
    as (_ & Hnd & Hdrag & _).
  fold g in Ht, Hnd, Hdrag.
  unfold drawnObjects.
  destruct (draggingObject g) as [d|] eqn:Hd.
  - destruct (Hdrag d eq_refl) as [Hin Hflag].
    split; [|split].
    + apply NoDup_app; [now apply NoDup_filter|repeat constructor; auto|].
      intros a Ha [<-|[]]. apply filter_In in Ha. destruct Ha as [_ Ha].
      rewrite Hflag in Ha. discriminate.
    + intros p. rewrite in_app_iff, filter_In. simpl. split.
      * intros [[Hp _]|[<-|[]]]; assumption.
      * intros Hp. destruct (isDragging (heap g p)) eqn:E.
        -- right. left. specialize (Ht p Hp E). congruence.
        -- left. auto.
    + intros d' Hd'. inversion Hd'; subst. eexists; reflexivity.
  - rewrite app_nil_r. split; [now apply NoDup_filter|]. split.
    + intros p. rewrite filter_In. split; [tauto|].
      intros Hp. split; [assumption|].
      destruct (isDragging (heap g p)) eqn:E; [|reflexivity].
      specialize (Ht p Hp E). congruence.
    + discriminate.
Qed.

Lemma sidebarLoop_drawnButtons (g : Game) (mp : Vector2f) (wy : Z)
    (els : list Element) (i : nat) (di : Z) :
  (length (objects g) < maxObjects)%nat ->
  sidebarLoop g mp wy els i di
  = option_map fst
      (find (fun b => contains (shapeBounds (vec 100 30) (vec 705 (snd b))) mp)
            (drawnButtons (sidebarScroll g) wy els i di)).
Proof.
  intros Hcap. apply Nat.ltb_lt in Hcap.
  revert i di; induction els as [|e rest IH]; intros i di;
    cbn [sidebarLoop drawnButtons]; [reflexivity|].
  destruct (discovered e); cbn [negb]; [|apply IH].
  cbv zeta. cbn [vy]. rewrite Hcap, andb_true_r.
  destruct (Qle_bool (-30) (inject_Z (10 + di * 30) - sidebarScroll g)
            && Qle_bool (inject_Z (10 + di * 30) - sidebarScroll g)
                 (inject_Z wy)); cbn [andb find snd]; [|apply IH].
  destruct (contains _ mp); [reflexivity|apply IH].
Qed.

(** X22. What is clicked is what is drawn: while the registry is under
    capacity, a press in the sidebar spawns the element of the first
    drawn button whose area (100 by 30, at the ordinate of the button)
    holds the pointer, and no element when there is no such button. *)
Theorem click_hits_first_drawn_button (g : Game) (mp : Vector2f) (wy : Z) :
  (length (objects g) < maxObjects)%nat ->
  sidebarLoop g mp wy (elements g) 0 0
  = option_map fst
      (find (fun b => contains (shapeBounds (vec 100 30) (vec 705 (snd b))) mp)
            (drawnButtons (sidebarScroll g) wy (elements g) 0 0)).
Proof. apply sidebarLoop_drawnButtons. Qed.

End DrawProperties.

Lemma every_instance_drawn_once_witness :
  pressesWhenIdle (sfml := boxes) initialGame pickFire
  /\ let g := steps (sfml := boxes) initialGame pickFire in
     NoDup (drawnObjects g)
     /\ (forall p, In p (drawnObjects g) <-> In p (objects g))
     /\ (forall d, draggingObject g = Some d ->
                   exists l, drawnObjects g = (l ++ [d])%list).
Proof.
  assert (H : pressesWhenIdle (sfml := boxes) initialGame pickFire)
    by (vm_compute; repeat split; reflexivity).
  split; [exact H|].
  exact (every_instance_drawn_once (sfml := boxes) pickFire H).
Defined.

Lemma click_hits_first_drawn_button_witness :
  let mp := vec (inject_Z 710) (inject_Z 45) in
  (length (objects initialGame) < maxObjects)%nat
  /\ sidebarLoop (sfml := boxes) initialGame mp 600 (elements initialGame) 0 0
     = option_map fst
         (find (fun b => contains (Geometry := boxes)
                           (shapeBounds (Geometry := boxes) (vec 100 30)
                              (vec 705 (snd b))) mp)
               (drawnButtons (sidebarScroll initialGame) 600
                  (elements initialGame) 0 0)).
Proof.
  intros mp.
  assert (H : (length (objects initialGame) < maxObjects)%nat)
    by (vm_compute; lia).
  split; [exact H|].
  exact (click_hits_first_drawn_button (sfml := boxes) initialGame mp 600 H).
Defined.

(** After the two presses of [pressTwice] and a release, the Fire object
    is still in the registry, is flagged and is not drawn. *)
Example stale_flag_hides_object :
  let g := handleEvents (sfml := boxes) initialGame
             (pressTwice ++ [lift 410 310 8])%list in
  objects g = [1%nat; 2%nat]
  /\ draggingObject g = None
  /\ drawnObjects g = [2%nat].
Proof. vm_compute. repeat split; reflexivity. Qed.

(** ** The main loop *)

Section MainLoop.

Context {sfml : Geometry}.

Lemma steps_app (g : Game) (ops1 ops2 : list Step) :
  steps g (ops1 ++ ops2) = steps (steps g ops1) ops2.
Proof. unfold steps. apply fold_left_app. Qed.

Lemma handleEvents_steps (g : Game) (inputs : list Input) :
  exists ops, handleEvents g inputs = steps g ops.
Proof.
  revert g; induction inputs as [|inp rest IH]; intros g.
  - now exists [].
  - simpl. destruct (windowOpen g); [|now exists []].
    destruct (IH (handleEvent g inp)) as [ops Hops].
    exists (ProcessEvent inp :: ops). exact Hops.
Qed.

(** X23. The states [Game::run] goes through are states of a run: what
    the main loop has made of a state after any number of frames is
    reached from it by a sequence of processed events and updates; hence
    the registry of the game stays within capacity and without
    duplicate. *)
Theorem main_loop_is_a_run (frames : list Frame) :
  (forall g, exists ops, run g frames = steps g ops)
  /\ (length (objects (run initialGame frames)) <= maxObjects)%nat
  /\ NoDup (objects (run initialGame frames)).
Proof.
  assert (Hrun : forall g, exists ops, run g frames = steps g ops).
  { induction frames as [|f rest IH]; intros g.
    - now exists [].
    - simpl. destruct (windowOpen g); [|now exists []].
      destruct (handleEvents_steps g (inputs f)) as [ops1 H1].
      destruct (IH (frame g f)) as [ops2 H2].
      exists (ops1 ++ Tick (frameTime f) :: ops2)%list.
      rewrite H2. unfold frame. rewrite H1.
      rewrite steps_app. reflexivity. }
  split; [exact Hrun|].
  destruct (Hrun initialGame) as [ops ->].
  destruct (wellFormed_steps ops initialGame wellFormed_initial)
    as (Hcap & Hnd & _).
  split; assumption.
Qed.

(** X24. At the end of every frame, when [draw] runs, every object of
    the registry is white: the semi-transparent colour given to a
    rejected partner during the events of the frame is taken off by the
    update of the same frame. *)
Theorem frame_ends_white (g : Game) (f : Frame) (p : nat) :
  In p (objects (frame g f)) ->
  color (sprite (heap (frame g f) p)) = White.
Proof. unfold frame. apply update_resets_colors. Qed.

End MainLoop.

Lemma frame_ends_white_witness :
  let f := mkFrame [lift 410 310 10] 11 in
  In 4%nat (objects (frame (sfml := boxes) steamOverFire f))
  /\ color (sprite (heap (frame (sfml := boxes) steamOverFire f) 4%nat))
     = White.
Proof.
  intros f.
  assert (H : In 4%nat (objects (frame (sfml := boxes) steamOverFire f)))
    by (vm_compute; right; left; reflexivity).
  split; [exact H|].
  exact (frame_ends_white (sfml := boxes) steamOverFire f 4 H).
Defined.

Example rejected_partner_is_flagged_before_update :
  color (sprite (heap (handleEvents (sfml := boxes) steamOverFire
                         [lift 410 310 10]) 4%nat))
  = SemiTransparent.
Proof. vm_compute. reflexivity. Qed.

(** ** Spawning and combining, counted *)

Section Counting.

Context {sfml : Geometry}.

(** X25. A left press (book closed, pointer outside the book icon) that
    the loop over the sidebar resolves to the element of index [i] spawns
    exactly one instance: the registry was under capacity, the element is
    discovered and its counter is incremented as an [int] is (it goes up
    by one when it is below [2^31 - 1]), no other element changes, and the
    new instance is appended to the registry, is of that element, is
    white, stands at (400, 300) and is created at the time of the
    press. *)
Theorem sidebar_press_spawns_one (g : Game) (inp : Input) (mp : Vector2f)
    (i : nat) :
  event inp = MouseButtonPressed Left mp ->
  bookOpen g = false ->
  contains bookIconBounds mp = false ->
  sidebarLoop g mp (windowSizeY inp) (elements g) 0 0 = Some i ->
  let g' := handleEvent g inp in
  let p := freshAddr (live g) in
  (length (objects g) < maxObjects)%nat
  /\ (exists e, nth_error (elements g) i = Some e
                /\ discovered e = true
                /\ nth_error (elements g') i
                   = Some (mkElement (name e) (description e) true
                             (toInt (creationCount e + 1)))
                /\ (isInt (creationCount e) ->
                    (creationCount e < 2 ^ 31 - 1)%Z ->
                    nth_error (elements g') i
                    = Some (mkElement (name e) (description e) true
                              (creationCount e + 1))))
  /\ (forall k, k <> i -> nth_error (elements g') k = nth_error (elements g) k)
  /\ objects g' = (objects g ++ [p])%list
  /\ ~ In p (objects g)
  /\ element (heap g' p) = i
  /\ position (sprite (heap g' p)) = vec 400 300
  /\ color (sprite (heap g' p)) = White
  /\ creationTime (heap g' p) = now inp.
Proof.
  intros Hev Hbook Hicon Hloop g' p.
  destruct (sidebarLoop_spec _ _ _ _ _ _ _ Hloop) as (j & e & Hj & Hn & Hd).
  simpl in Hj. subst j.
  pose proof (sidebarLoop_some _ _ _ _ _ _ _ Hloop) as Hcap.
  assert (Hfresh : ~ In p (objects g)).
  { intros Hin. apply (live_fresh g p); [|reflexivity].
    unfold live. apply in_or_app. now left. }
  assert (Hg' : exists h,
            elements g' = updateAt i incrementCreated (elements g)
            /\ objects g' = (objects g ++ [p])%list
            /\ heap g' = h
            /\ uncolored (withDragging (h p) false)
               = uncolored
                   (newGameObject i (elementName (elements g) i)
                      ("assets/" ++ elementName (elements g) i ++ ".png")
                      (vec 400 300) (now inp))
            /\ color (sprite (h p)) = White).
  { unfold g'. rewrite (press_with_closed_book g inp mp Hev Hbook Hicon).
    unfold sidebarSpawn. rewrite Hloop.
    unfold startDragging, spawnElement.
    match goal with
    | |- context [objectAt ?h ?m ?l] => destruct (objectAt h m l) as [p0|]
    end; simpl; fold p; eexists; (split; [reflexivity|]);
      (split; [reflexivity|]); (split; [reflexivity|]).
    - unfold upd. destruct (Nat.eqb_spec p p0) as [<-|Hne].
      + rewrite Nat.eqb_refl. split; reflexivity.
      + rewrite Nat.eqb_refl. split; reflexivity.
    - rewrite upd_same. split; reflexivity. }
  destruct Hg' as (h & Hels & Hobjs & Hh & Hnew & Hwhite).
  split; [exact Hcap|]. split.
  { exists e. rewrite Hels, (nth_error_updateAt_same _ _ _ _ Hn).
    unfold incrementCreated. rewrite Hd.
    split; [exact Hn|]. split; [reflexivity|]. split; [reflexivity|].
    intros Hint Hlt. now rewrite (toInt_succ _ Hint Hlt). }
  split.
  { intros k Hk. rewrite Hels. now apply nth_error_updateAt_other. }
  split; [exact Hobjs|]. split; [exact Hfresh|].
  rewrite Hh.
  destruct (uncolored_fields _ _ Hnew) as (He & Hp & _ & _ & _ & Ht & _).
  simpl in He, Hp, Ht. auto.
Qed.

Lemma scanObjects_some_other (g g1 : Game) (d : nat) (time : float)
    (l : list nat) (o : nat) (r : string) :
  scanObjects g d time l = (g1, Some (o, r)) -> o <> d.
Proof.
  revert g; induction l as [|x rest IH]; intros g H; [discriminate|].
  rewrite scanObjects_cons in H.
  destruct (combinable g d x) eqn:Ec.
  - inversion H; subst. unfold combinable, skipped in Ec.
    destruct (Nat.eqb_spec o d) as [->|Hne]; [discriminate|assumption].
  - destruct (rejected g d x); eapply IH; eauto.
Qed.

Lemma eraseAll_none (toRemove l : list nat) :
  (forall x, In x toRemove -> ~ In x l) -> eraseAll toRemove l = l.
Proof.
  intros H. unfold eraseAll. induction l as [|y l IH]; simpl; [reflexivity|].
  destruct (existsb (Nat.eqb y) toRemove) eqn:E.
  - apply existsb_exists in E. destruct E as (x & Hx & Hxy).
    apply Nat.eqb_eq in Hxy. subst. exfalso. apply (H x Hx). now left.
  - simpl. rewrite IH; [reflexivity|].
    intros x Hx Hin. apply (H x Hx). now right.
Qed.

Lemma eraseAll_cons (toRemove : list nat) (y : nat) (l : list nat) :
  eraseAll toRemove (y :: l)
  = if existsb (Nat.eqb y) toRemove then eraseAll toRemove l
    else y :: eraseAll toRemove l.
Proof.
  unfold eraseAll. simpl. now destruct (existsb (Nat.eqb y) toRemove).
Qed.

Lemma existsb_pair (y d o : nat) :
  existsb (Nat.eqb y) [d; o] = Nat.eqb y d || Nat.eqb y o.
Proof. simpl. now rewrite orb_false_r. Qed.

Lemma eraseAll_one_length (d o : nat) (l : list nat) :
  NoDup l -> In o l -> ~ In d l ->
  S (length (eraseAll [d; o] l)) = length l.
Proof.
  intros Hnd Ho Hd. induction l as [|y l IH]; [destruct Ho|].
  inversion Hnd; subst. rewrite eraseAll_cons, existsb_pair.
  destruct (Nat.eqb_spec y d) as [->|Hyd]; [exfalso; apply Hd; now left|].
  destruct (Nat.eqb_spec y o) as [->|Hyo]; simpl.
  - rewrite eraseAll_none; [reflexivity|].
    intros x [<-|[<-|[]]] Hin; [apply Hd; now right|contradiction].
  - rewrite IH; auto.
    + destruct Ho as [->|Ho]; [congruence|assumption].
    + intros Hin. apply Hd. now right.
Qed.

Lemma eraseAll_two_length (d o : nat) (l : list nat) :
  NoDup l -> In d l -> In o l -> d <> o ->
  S (S (length (eraseAll [d; o] l))) = length l.
Proof.
  intros Hnd Hd Ho Hne. induction l as [|y l IH]; [destruct Hd|].
  inversion Hnd; subst. rewrite eraseAll_cons, existsb_pair.
  destruct (Nat.eqb_spec y d) as [->|Hyd]; simpl.
  - f_equal. apply eraseAll_one_length; auto.
    destruct Ho as [Ho|Ho]; [congruence|assumption].
  - destruct (Nat.eqb_spec y o) as [->|Hyo]; simpl.
    + f_equal.
      assert (Hsym : eraseAll [d; o] l = eraseAll [o; d] l).
      { unfold eraseAll. apply filter_ext. intros x. simpl.
        now rewrite !orb_false_r, orb_comm. }
      rewrite Hsym. apply eraseAll_one_length; auto.
      destruct Hd as [Hd|Hd]; [congruence|assumption].
    + rewrite IH; auto.
      * destruct Hd as [Hd|Hd]; [congruence|assumption].
      * destruct Ho as [Ho|Ho]; [congruence|assumption].
Qed.

(** X26. A combination turns two instances into one: in every state of a
    run, when the dragged object is released and the scan finds a partner,
    the registry has exactly one instance fewer after the release, and
    the partner is not the dragged object. *)
Theorem combination_turns_two_into_one (ops : list Step) (d : nat)
    (time : float) (g1 : Game) (o : nat) (r : string) :
  let g := steps initialGame ops in
  draggingObject g = Some d ->
  scanObjects g d time (objects g) = (g1, Some (o, r)) ->
  o <> d
  /\ S (length (objects (checkCollisions g d time))) = length (objects g).
Proof.
  intros g Hdrag Hscan.
  destruct (wellFormed_steps ops initialGame wellFormed_initial)
    as (_ & Hnd & Hd & _).
  fold g in Hnd, Hd. destruct (Hd d Hdrag) as [Hind _].
  pose proof (scanObjects_some_other _ _ _ _ _ _ _ Hscan) as Hne.
  destruct (scanObjects_some _ _ _ _ _ _ _ Hscan) as (Hino & Hr & a & b & Hab).
  assert (Hcat : map name (elements g) = catalogNames)
    by (apply steps_catalog; reflexivity).
  assert (Hrc : In r (map name (elements g))).
  { rewrite Hcat, Hab. apply getResult_in_catalog. now rewrite <- Hab. }
  destruct (findElement_found r (elements g) 0 Hrc) as (j & e & Hf & _).
  simpl in Hf.
  destruct (checkCollisions_hit g g1 d o time r j e Hscan Hf Hino)
    as (_ & Hobjs & _).
  split; [exact Hne|].
  rewrite Hobjs, length_app. simpl.
  pose proof (eraseAll_two_length d o (objects g) Hnd Hind Hino
                (fun H => Hne (eq_sym H))). lia.
Qed.

End Counting.

Lemma sidebar_press_spawns_one_witness :
  let g := initialGame in
  let inp := press 710 45 3 in
  let mp := vec (inject_Z 710) (inject_Z 45) in
  (event inp = MouseButtonPressed Left mp
   /\ bookOpen g = false
   /\ contains (Geometry := boxes) (bookIconBounds (Geometry := boxes)) mp
      = false
   /\ sidebarLoop (sfml := boxes) g mp (windowSizeY inp) (elements g) 0 0
      = Some 1%nat)
  /\ let g' := handleEvent (sfml := boxes) g inp in
     let p := freshAddr (live g) in
     (length (objects g) < maxObjects)%nat
     /\ (exists e, nth_error (elements g) 1 = Some e
                   /\ discovered e = true
                   /\ nth_error (elements g') 1
                      = Some (mkElement (name e) (description e) true
                                (toInt (creationCount e + 1)))
                   /\ (isInt (creationCount e) ->
                       (creationCount e < 2 ^ 31 - 1)%Z ->
                       nth_error (elements g') 1
                       = Some (mkElement (name e) (description e) true
                                 (creationCount e + 1))))
     /\ (forall k, k <> 1%nat ->
                   nth_error (elements g') k = nth_error (elements g) k)
     /\ objects g' = (objects g ++ [p])%list
     /\ ~ In p (objects g)
     /\ element (heap g' p) = 1%nat
     /\ position (sprite (heap g' p)) = vec 400 300
     /\ color (sprite (heap g' p)) = White
     /\ creationTime (heap g' p) = now inp.
Proof.
  intros g inp mp.
  assert (H1 : event inp = MouseButtonPressed Left mp) by reflexivity.
  assert (H2 : bookOpen g = false) by reflexivity.
  assert (H3 : contains (Geometry := boxes)
                 (bookIconBounds (Geometry := boxes)) mp = false)
    by (vm_compute; reflexivity).
  assert (H4 : sidebarLoop (sfml := boxes) g mp (windowSizeY inp)
                 (elements g) 0 0 = Some 1%nat) by (vm_compute; reflexivity).
  split; [exact (conj H1 (conj H2 (conj H3 H4)))|].
  exact (sidebar_press_spawns_one (sfml := boxes) g inp mp 1 H1 H2 H3 H4).
Defined.

Lemma combination_turns_two_into_one_witness :
  let g := steps (sfml := boxes) initialGame pickFire in
  let g1 := fst (scanObjects (sfml := boxes) g 1 6 (objects g)) in
  (draggingObject g = Some 1%nat
   /\ scanObjects (sfml := boxes) g 1 6 (objects g)
      = (g1, Some (2%nat, "Steam")))
  /\ (2%nat <> 1%nat
      /\ S (length (objects (checkCollisions (sfml := boxes) g 1 6)))
         = length (objects g)).
Proof.
  intros g g1.
  assert (H1 : draggingObject g = Some 1%nat) by (vm_compute; reflexivity).
  assert (H2 : scanObjects (sfml := boxes) g 1 6 (objects g)
               = (g1, Some (2%nat, "Steam"))).
  { assert (Hs : snd (scanObjects (sfml := boxes) g 1 6 (objects g))
                 = Some (2%nat, "Steam")) by (vm_compute; reflexivity).
    unfold g1. rewrite <- Hs. apply surjective_pairing. }
  split; [exact (conj H1 H2)|].
  exact (combination_turns_two_into_one (sfml := boxes) pickFire 1 6 g1 2
           "Steam" H1 H2).
Defined.

(** A press on the book icon opens the book. *)
Lemma open_book_blocks_engine_witness :
  let g := steps (sfml := boxes) initialGame pickFire in
  let inp := press 20 20 6 in
  bookOpen (handleEvent (sfml := boxes) g inp) = true
  /\ (objects (handleEvent (sfml := boxes) g inp) = objects g
      /\ elements (handleEvent (sfml := boxes) g inp) = elements g
      /\ draggingObject (handleEvent (sfml := boxes) g inp) = draggingObject g
      /\ invalidMarkPos (handleEvent (sfml := boxes) g inp) = invalidMarkPos g
      /\ invalidMarkTime (handleEvent (sfml := boxes) g inp)
         = invalidMarkTime g
      /\ sidebarScroll (handleEvent (sfml := boxes) g inp) = sidebarScroll g
      /\ forall p, heap (handleEvent (sfml := boxes) g inp) p = heap g p).
Proof.
  intros g inp.
  assert (H : bookOpen (handleEvent (sfml := boxes) g inp) = true)
    by (vm_compute; reflexivity).
  split; [exact H|].
  exact (open_book_blocks_engine (sfml := boxes) g inp H).
Defined.
